(** * assets/photos.js: folder traversal and archive assembly

    A shallow embedding of the scripted logic of the photo pages
    (src/assets/photos.js), the properties of it that the design
    document states, and further properties read off the code.

    Conventions of the embedding.
    - A JavaScript string is a [string] holding its UTF-8 bytes.
    - Everything the browser or the network decides is an explicit input:
      the answer to a request, the [href]/[src] attributes the HTML parser
      finds in a page, the moment an in-flight request completes.
    - An [async] function that can reject returns a [result]; the job
      queue of the event loop is modelled where overlapping invocations
      matter (section [MapWithConcurrency]). *)

From Stdlib Require Import List String Ascii Bool Arith ZArith QArith Qround Qpower Lia Permutation.
From Stdlib Require PrimFloat FloatOps Uint63.
Import ListNotations.

Local Open Scope string_scope.
Local Open Scope list_scope.
Local Open Scope nat_scope.

(* ================================================================== *)
(** ** JavaScript string primitives used by the source *)

Module JsString.

(** [s || d] on strings: the empty string is falsy. *)
Definition or_default (s d : string) : string :=
  match s with EmptyString => d | _ => s end.

(** [Boolean(s)] for a string. *)
Definition truthy (s : string) : bool :=
  match s with EmptyString => false | _ => true end.

(** [s.startsWith(p)] *)
Definition startsWith (p s : string) : bool := String.prefix p s.

(** [s.endsWith(suf)] *)
Fixpoint endsWith (suf s : string) : bool :=
  String.eqb suf s ||
  match s with
  | EmptyString => false
  | String _ s' => endsWith suf s'
  end.

Definition slash : ascii := "/"%char.

(** [s.replace(/\//, '')]: the regular expression has no [g] flag, so
    only the first slash goes. *)
Fixpoint remove_first_slash (s : string) : string :=
  match s with
  | EmptyString => EmptyString
  | String c s' => if Ascii.eqb c slash then s' else String c (remove_first_slash s')
  end.

(** [s.replace(/^\/\//, '')] *)
Definition strip_leading_double_slash (s : string) : string :=
  match s with
  | String c1 (String c2 s') =>
      if Ascii.eqb c1 slash && Ascii.eqb c2 slash then s' else s
  | _ => s
  end.

(** A line terminator starts at the head of [s]: LF, CR, U+2028 or
    U+2029 (E2 80 A8 / E2 80 A9 in UTF-8).  The dot of a regular
    expression does not match these. *)
Definition line_terminator_at (s : string) : bool :=
  match s with
  | String c rest =>
      match nat_of_ascii c with
      | 10 | 13 => true
      | 226 =>
          match rest with
          | String c2 (String c3 _) =>
              Nat.eqb (nat_of_ascii c2) 128 &&
              (Nat.eqb (nat_of_ascii c3) 168 || Nat.eqb (nat_of_ascii c3) 169)
          | _ => false
          end
      | _ => false
      end
  | EmptyString => false
  end.

(** The text after the last slash of the first line of [s], when that
    line has a slash: what is left once the greedy match of [/^.*\//]
    is removed. *)
Fixpoint after_last_slash (s : string) : option string :=
  match s with
  | EmptyString => None
  | String c s' =>
      if line_terminator_at s then None
      else match after_last_slash s' with
           | Some r => Some r
           | None => if Ascii.eqb c slash then Some s' else None
           end
  end.

(** [s.replace(/^.*\//, '')] *)
Definition basename (s : string) : string :=
  match after_last_slash s with
  | Some r => r
  | None => s
  end.

(** [s.toLowerCase()] on the ASCII letters.  Bytes of multi-byte
    characters are left alone; no character outside ASCII lowercases to
    one of the letters of the name the source compares with. *)
Definition lower_char (c : ascii) : ascii :=
  let n := nat_of_ascii c in
  if (65 <=? n) && (n <=? 90) then ascii_of_nat (n + 32) else c.

Fixpoint toLowerCase (s : string) : string :=
  match s with
  | EmptyString => EmptyString
  | String c s' => String (lower_char c) (toLowerCase s')
  end.

Definition hex_digit (n : nat) : ascii :=
  if n <? 10 then ascii_of_nat (48 + n) else ascii_of_nat (55 + n).

(** The characters [encodeURIComponent] leaves as they are:
    [A-Z a-z 0-9 - _ . ! ~ * ' ( )]. *)
Definition uri_unreserved (c : ascii) : bool :=
  let n := nat_of_ascii c in
  ((65 <=? n) && (n <=? 90)) || ((97 <=? n) && (n <=? 122)) ||
  ((48 <=? n) && (n <=? 57)) ||
  existsb (Nat.eqb n) [45; 95; 46; 33; 126; 42; 39; 40; 41].

(** [encodeURIComponent(s)]: every other byte of the UTF-8 form becomes
    [%XX] with upper-case digits. *)
Fixpoint encodeURIComponent (s : string) : string :=
  match s with
  | EmptyString => EmptyString
  | String c s' =>
      if uri_unreserved c then String c (encodeURIComponent s')
      else
        let n := nat_of_ascii c in
        String "%"%char
          (String (hex_digit (n / 16))
             (String (hex_digit (n mod 16)) (encodeURIComponent s')))
  end.

(** Number of bytes of the white-space character (the class [\s]) at
    the head of [s]; 0 when there is none. *)
Definition space_width (s : string) : nat :=
  match s with
  | EmptyString => 0
  | String c rest =>
      let n := nat_of_ascii c in
      if existsb (Nat.eqb n) [9; 10; 11; 12; 13; 32] then 1
      else
        match rest with
        | String c2 rest2 =>
            let n2 := nat_of_ascii c2 in
            if Nat.eqb n 194 && Nat.eqb n2 160 then 2           (* U+00A0 *)
            else
              match rest2 with
              | String c3 _ =>
                  let n3 := nat_of_ascii c3 in
                  if (Nat.eqb n 225 && Nat.eqb n2 154 && Nat.eqb n3 128)       (* U+1680 *)
                     || (Nat.eqb n 226 && Nat.eqb n2 128 &&
                         ((128 <=? n3) && (n3 <=? 138)                         (* U+2000-200A *)
                          || existsb (Nat.eqb n3) [168; 169; 175]))            (* U+2028 U+2029 U+202F *)
                     || (Nat.eqb n 226 && Nat.eqb n2 129 && Nat.eqb n3 159)    (* U+205F *)
                     || (Nat.eqb n 227 && Nat.eqb n2 128 && Nat.eqb n3 128)    (* U+3000 *)
                     || (Nat.eqb n 239 && Nat.eqb n2 187 && Nat.eqb n3 191)    (* U+FEFF *)
                  then 3 else 0
              | EmptyString => 0
              end
        | EmptyString => 0
        end
  end.

(** [s.replace(/\s+/g, '_')].  [skip] counts the bytes of the current
    white-space character still to drop, [in_run] tells that the run it
    belongs to already produced its underscore. *)
Fixpoint collapse_spaces_from (skip : nat) (in_run : bool) (s : string) : string :=
  match s with
  | EmptyString => EmptyString
  | String c s' =>
      match skip with
      | S k => collapse_spaces_from k true s'
      | O =>
          match space_width s with
          | O => String c (collapse_spaces_from 0 false s')
          | S k =>
              if in_run then collapse_spaces_from k true s'
              else String "_"%char (collapse_spaces_from k true s')
          end
      end
  end.

Definition collapse_spaces (s : string) : string := collapse_spaces_from 0 false s.

End JsString.

(** String concatenation, the [+] of the source on strings. *)
Infix "+++" := String.append (right associativity, at level 60).

(* ================================================================== *)
(** ** Settlement of a promise, and the answers of the network *)

(** An awaited computation either yields a value or throws. *)
Inductive result (A : Type) : Type :=
| Ok (a : A)
| Throw.
Arguments Ok {A} a.
Arguments Throw {A}.

Definition bind {A B : Type} (m : result A) (k : A -> result B) : result B :=
  match m with
  | Ok a => k a
  | Throw => Throw
  end.

(** [try { m } catch (e) { handler }] *)
Definition try_catch {A : Type} (m handler : result A) : result A :=
  match m with
  | Ok a => Ok a
  | Throw => handler
  end.

Notation "x <- m ;; k" := (bind m (fun x => k))
  (at level 61, m at next level, right associativity).

(** What [await fetch(url)] gives: a transport failure, which rejects, or
    a response with its [ok] flag.  [body] is what reading the response
    ([json()], [text()], [blob()]) yields, [None] when that read rejects. *)
Inductive fetched (B : Type) : Type :=
| NetworkError
| Status (ok : bool) (body : option B).
Arguments NetworkError {B}.
Arguments Status {B} ok body.

(** [await fetch(url)] *)
Definition fetch {B : Type} (r : fetched B) : result (bool * option B) :=
  match r with
  | NetworkError => Throw
  | Status ok body => Ok (ok, body)
  end.

(** [await res.json()], [await res.text()], [await res.blob()] *)
Definition read_body {B : Type} (body : option B) : result B :=
  match body with
  | Some b => Ok b
  | None => Throw
  end.

(** The answer to a [HEAD] request. *)
Inductive head_result : Type :=
| HeadError
| HeadStatus (ok : bool).

Definition head_ok (r : head_result) : bool :=
  match r with
  | HeadStatus true => true
  | _ => false
  end.

(* ================================================================== *)
(** ** Locating a pre-built archive (the two "Download ZIP" handlers) *)

Module ZipResolver.
Import JsString.

(** Try several candidate locations and return the first that exists.
    The first component lists the URLs that were probed, in order.  The
    server is a snapshot: [probe] gives the answer to a [HEAD] request. *)
Fixpoint findAvailableZip (probe : string -> head_result) (candidates : list string)
  : list string * option string :=
  match candidates with
  | [] => ([], None)
  | c :: cs =>
      if head_ok (probe c) then ([c], Some c)
      else let (probed, found) := findAvailableZip probe cs in (c :: probed, found)
  end.

Definition minnesotaZipPath : string := "/photos/minnesota/minnesota.zip".

(** The guard of the folder tile: [name && name.toLowerCase() === 'minnesota']. *)
Definition is_special (name : string) : bool :=
  truthy name && String.eqb (toLowerCase name) "minnesota".

(** What a click ends with: the browser is sent to download [href] under
    the suggested file name, or the archive is built in the page by
    [createZipFromFolder(path, name)]. *)
Inductive zip_action : Type :=
| Download (href download : string)
| ClientZip (folderPath folderName : string).

Record click_result : Type := {
  probed : list string;      (* HEAD requests issued, oldest first *)
  action : zip_action
}.

(** The candidate list built by the folder tile. *)
Definition tile_candidates (name path : string) : list string :=
  let folderName := encodeURIComponent (or_default name "photos") in
  [ path +++ folderName +++ ".zip";
    path +++ folderName +++ ".ZIP";
    "/photos/" +++ folderName +++ ".zip";
    "/photos/altfiles/" +++ folderName +++ ".zip" ].

(** The generic part shared by both handlers: probe the candidates, then
    download the one found under the [download] attribute of the button
    ([attr || '']), or fall back to zipping in the page. *)
Definition resolve_generic (probe : string -> head_result) (before : list string)
    (candidates : list string) (attr path name : string) : click_result :=
  let (log, found) := findAvailableZip probe candidates in
  match found with
  | Some url => {| probed := before ++ log; action := Download url attr |}
  | None => {| probed := before ++ log; action := ClientZip path name |}
  end.

(** [zipBtn] click handler of [folderTile(name, path, node)]. *)
Definition folderTile_zipClick (name path : string) (probe : string -> head_result)
  : click_result :=
  let attr := or_default name "photos" +++ ".zip" in
  if is_special name then
    if head_ok (probe minnesotaZipPath) then
      {| probed := [minnesotaZipPath]; action := Download minnesotaZipPath "minnesota.zip" |}
    else
      resolve_generic probe [minnesotaZipPath] (tile_candidates name path) attr path name
  else
    resolve_generic probe [] (tile_candidates name path) attr path name.

(** The candidate list built by the folder page; no default for an empty
    name here. *)
Definition page_candidates (basePath folderName : string) : list string :=
  [ basePath +++ encodeURIComponent folderName +++ ".zip";
    basePath +++ encodeURIComponent folderName +++ ".ZIP";
    "/photos/" +++ encodeURIComponent folderName +++ ".zip";
    "/photos/altfiles/" +++ encodeURIComponent folderName +++ ".zip" ].

(** [topZip] click handler of [renderFolderPage(basePath, ...)].
    [folderName] is the variable of that name computed by
    [renderFolderPage] from [basePath]; the handler closes over both. *)
Definition renderFolderPage_zipClick (basePath folderName : string)
    (probe : string -> head_result) : click_result :=
  let attr := or_default folderName "photos" +++ ".zip" in
  if head_ok (probe minnesotaZipPath) then
    {| probed := [minnesotaZipPath]; action := Download minnesotaZipPath "minnesota.zip" |}
  else
    resolve_generic probe [minnesotaZipPath] (page_candidates basePath folderName)
      attr basePath folderName.

(** *** Properties *)

Definition fails (probe : string -> head_result) (url : string) : Prop :=
  head_ok (probe url) = false.

Lemma findAvailableZip_first probe pre c post :
  Forall (fails probe) pre ->
  head_ok (probe c) = true ->
  findAvailableZip probe (pre ++ c :: post) = (pre ++ [c], Some c).
Proof.
  intros Hpre Hc. induction Hpre as [|u pre Hu _ IH]; simpl.
  - now rewrite Hc.
  - unfold fails in Hu. now rewrite Hu, IH.
Qed.

Lemma findAvailableZip_none probe cs :
  Forall (fails probe) cs ->
  findAvailableZip probe cs = (cs, None).
Proof.
  induction 1 as [|u cs Hu _ IH]; simpl; [reflexivity|].
  unfold fails in Hu. now rewrite Hu, IH.
Qed.

(** Whatever the answers, the probed URLs are an initial segment of the
    candidate list, and a URL is returned only if its probe succeeded. *)
Lemma findAvailableZip_prefix probe cs :
  exists rest, cs = fst (findAvailableZip probe cs) ++ rest /\
    match snd (findAvailableZip probe cs) with
    | Some url => head_ok (probe url) = true /\
                  exists pre, fst (findAvailableZip probe cs) = pre ++ [url] /\
                              Forall (fails probe) pre
    | None => rest = [] /\ Forall (fails probe) cs
    end.
Proof.
  induction cs as [|c cs IH]; simpl.
  - exists []. repeat split; constructor.
  - destruct (head_ok (probe c)) eqn:Hc; simpl.
    + exists cs. repeat split; auto. exists []. split; [reflexivity|constructor].
    + destruct IH as [rest [Heq Hres]].
      destruct (findAvailableZip probe cs) as [log found]; simpl in *.
      exists rest. split; [now f_equal|].
      destruct found as [url|].
      * destruct Hres as [Hok [pre [Hlog Hpre]]]. split; [assumption|].
        exists (c :: pre). split; [now rewrite Hlog|]. now constructor.
      * destruct Hres as [Hrest Hall]. split; [assumption|]. now constructor.
Qed.

(** C5.  On a folder tile whose name is not the special one, the click
    probes [path+F+".zip"], [path+F+".ZIP"], ["/photos/"+F+".zip"],
    ["/photos/altfiles/"+F+".zip"] in this order, where [F] is the
    URL-encoded folder name (["photos"] for an empty name).  It stops at
    the first candidate whose probe succeeds, which [findAvailableZip]
    returns and the browser downloads, without probing a later one; when
    every probe fails [findAvailableZip] returns null, all four were
    probed, and the archive is built in the page. *)
Theorem tile_candidates_probed_in_order (name path : string) (probe : string -> head_result) :
  is_special name = false ->
  let F := encodeURIComponent (or_default name "photos") in
  let cs := [ path +++ F +++ ".zip"; path +++ F +++ ".ZIP";
              "/photos/" +++ F +++ ".zip"; "/photos/altfiles/" +++ F +++ ".zip" ] in
  let r := folderTile_zipClick name path probe in
  (forall pre c post,
      cs = pre ++ c :: post -> Forall (fails probe) pre -> head_ok (probe c) = true ->
      findAvailableZip probe cs = (pre ++ [c], Some c) /\
      probed r = pre ++ [c] /\
      action r = Download c (or_default name "photos" +++ ".zip")) /\
  (Forall (fails probe) cs ->
      findAvailableZip probe cs = (cs, None) /\
      probed r = cs /\
      action r = ClientZip path name).
Proof.
  intros Hsp F cs r. subst r. unfold folderTile_zipClick. rewrite Hsp.
  unfold resolve_generic. change (tile_candidates name path) with cs.
  split.
  - intros pre c post Hcs Hpre Hc.
    rewrite Hcs, (findAvailableZip_first probe pre c post Hpre Hc). auto.
  - intros Hall. rewrite (findAvailableZip_none probe cs Hall). auto.
Qed.

(** An instance of C5: folder "Lake Trip" under /photos/, the archive
    lying in the [altfiles] directory only. *)
Lemma tile_candidates_probed_in_order_witness :
  let probe := fun u => if String.eqb u "/photos/altfiles/Lake%20Trip.zip"
                        then HeadStatus true else HeadStatus false in
  is_special "Lake Trip" = false /\
  probed (folderTile_zipClick "Lake Trip" "/photos/Lake Trip/" probe) =
    [ "/photos/Lake Trip/Lake%20Trip.zip"; "/photos/Lake Trip/Lake%20Trip.ZIP";
      "/photos/Lake%20Trip.zip"; "/photos/altfiles/Lake%20Trip.zip" ] /\
  action (folderTile_zipClick "Lake Trip" "/photos/Lake Trip/" probe) =
    Download "/photos/altfiles/Lake%20Trip.zip" "Lake Trip.zip".
Proof.
  intro probe.
  pose proof (tile_candidates_probed_in_order "Lake Trip" "/photos/Lake Trip/" probe
                eq_refl) as [Hfirst _].
  split; [reflexivity|].
  apply (Hfirst [ "/photos/Lake Trip/Lake%20Trip.zip"; "/photos/Lake Trip/Lake%20Trip.ZIP";
                  "/photos/Lake%20Trip.zip" ]
                "/photos/altfiles/Lake%20Trip.zip" []).
  - reflexivity.
  - repeat constructor.
  - reflexivity.
Defined.

(** The tile handler does guard the special path: a tile whose name is
    not the special one never probes it unless it is one of its own
    candidates. *)
Lemma tile_special_guarded name path probe :
  is_special name = false ->
  exists rest, tile_candidates name path = probed (folderTile_zipClick name path probe) ++ rest.
Proof.
  intros Hsp. unfold folderTile_zipClick, resolve_generic. rewrite Hsp.
  destruct (findAvailableZip_prefix probe (tile_candidates name path)) as [rest [Heq _]].
  destruct (findAvailableZip probe (tile_candidates name path)) as [log [url|]];
    exists rest; exact Heq.
Qed.

(** C2 (defect of the folder page).  The [topZip] handler of a folder
    page probes the special archive path without looking at the folder:
    whenever /photos/minnesota/minnesota.zip exists, a click on the
    "Download ZIP" button of any folder page downloads minnesota.zip and
    probes nothing else. *)
Theorem folder_page_downloads_special_for_any_folder
    (basePath folderName : string) (probe : string -> head_result) :
  head_ok (probe minnesotaZipPath) = true ->
  renderFolderPage_zipClick basePath folderName probe =
    {| probed := [minnesotaZipPath];
       action := Download minnesotaZipPath "minnesota.zip" |}.
Proof.
  intros H. unfold renderFolderPage_zipClick. now rewrite H.
Qed.

(** The failing input of C2: the page of folder "paris".  The folder
    name [renderFolderPage] computes is the text after the last slash of
    the base path, which is empty for the base paths that end with a
    slash; the handler does not look at it before probing. *)
Lemma folder_page_downloads_special_for_any_folder_witness :
  let probe := fun u => if String.eqb u minnesotaZipPath
                        then HeadStatus true else HeadStatus false in
  is_special "paris" = false /\
  is_special "" = false /\
  renderFolderPage_zipClick "/photos/paris/" "" probe =
    {| probed := ["/photos/minnesota/minnesota.zip"];
       action := Download "/photos/minnesota/minnesota.zip" "minnesota.zip" |}.
Proof.
  intro probe. split; [reflexivity|]. split; [reflexivity|].
  apply (folder_page_downloads_special_for_any_folder "/photos/paris/" "" probe).
  reflexivity.
Defined.

(** On a tile the same request leaves the special path alone (the
    sibling path that has the guard). *)
Lemma tile_paris_leaves_special_alone :
  let probe := fun u => if String.eqb u minnesotaZipPath
                        then HeadStatus true else HeadStatus false in
  folderTile_zipClick "paris" "/photos/paris/" probe =
    {| probed := [ "/photos/paris/paris.zip"; "/photos/paris/paris.ZIP";
                   "/photos/paris.zip"; "/photos/altfiles/paris.zip" ];
       action := ClientZip "/photos/paris/" "paris" |}.
Proof. reflexivity. Qed.

(** On a tile, a successful probe of the special path ends the click. *)
Lemma tile_special_short_circuit name path probe :
  is_special name = true ->
  head_ok (probe minnesotaZipPath) = true ->
  folderTile_zipClick name path probe =
    {| probed := [minnesotaZipPath];
       action := Download minnesotaZipPath "minnesota.zip" |}.
Proof.
  intros Hsp H. unfold folderTile_zipClick. now rewrite Hsp, H.
Qed.

End ZipResolver.

(* ================================================================== *)
(** ** Data discovery: the root manifest and a folder's index *)

Module RemoteListing.
Import JsString.

(** The [href] (or [src]) attributes of the elements the HTML parser
    finds in a fetched page, [None] for an element without the
    attribute: what [getAttribute] returns on each. *)
Definition attributes : Type := list (option string).

(** [.map(a => a.getAttribute(..)).filter(Boolean)] *)
Definition present (attrs : attributes) : list string :=
  flat_map (fun a => match a with
                     | Some h => if truthy h then [h] else []
                     | None => []
                     end) attrs.

Record folder_entry : Type := { name : string; path : string }.

(** What [loadManifest] resolves to: the parsed manifest document, or the
    object [{ folders }] it builds itself. *)
Inductive manifest (J : Type) : Type :=
| ManifestJson (j : J)
| ManifestFolders (folders : list folder_entry).
Arguments ManifestJson {J} j.
Arguments ManifestFolders {J} folders.

(** Folder links of the server's own index of /photos/. *)
Definition heuristic_folders (anchors : attributes) : list folder_entry :=
  map (fun h => {| name := remove_first_slash h;
                   path := "/photos/" +++ remove_first_slash h +++ "/" |})
      (filter (endsWith "/") (present anchors)).

(** [loadManifest()].  [manifest_resp] answers the request for
    /photos/manifest.json (its body read by [json()]), [root_resp] the
    request for /photos/ (its body read by [text()] and parsed). *)
Definition loadManifest {J : Type} (manifest_resp : fetched J)
    (root_resp : fetched attributes) : result (manifest J) :=
  try_catch
    (res <- fetch manifest_resp ;;
     if negb (fst res) then Throw
     else j <- read_body (snd res) ;; Ok (ManifestJson j))
    (try_catch
       (res <- fetch root_resp ;;
        anchors <- read_body (snd res) ;;
        Ok (ManifestFolders (heuristic_folders anchors)))
       (Ok (ManifestFolders []))).

(** The manifest request did not deliver a document. *)
Definition manifest_failed {J : Type} (r : fetched J) : Prop :=
  match r with
  | Status true (Some _) => False
  | _ => True
  end.

(** A fetched folder page, as the parser sees it. *)
Record page : Type := { anchors : attributes; imgs : attributes }.

Record listing : Type := {
  files : list string;
  folders : list string        (* the [name] of each [{ name }] object *)
}.

Inductive folder_index (J : Type) : Type :=
| IndexJson (j : J)
| IndexListing (l : listing).
Arguments IndexJson {J} j.
Arguments IndexListing {J} l.

(** The body of [anchors.forEach(a => ...)]. *)
Definition classify_anchor (acc : listing) (a : option string) : listing :=
  match a with
  | None => acc
  | Some href =>
      if negb (truthy href) || startsWith "?" href || String.eqb href "../" then acc
      else if endsWith "/" href then
        {| files := files acc; folders := folders acc ++ [remove_first_slash href] |}
      else
        {| files := files acc ++ [href]; folders := folders acc |}
  end.

(** The chain applied to the [img] elements. *)
Definition image_files (srcs : attributes) : list string :=
  filter (fun s => negb (startsWith "data:" s))
    (map basename (map strip_leading_double_slash (present srcs))).

(** The directory-listing fallback of [loadFolderIndex]. *)
Definition parse_listing (pg : page) : listing :=
  let l := fold_left classify_anchor (anchors pg) {| files := []; folders := [] |} in
  if Nat.eqb (List.length (files l)) 0
  then {| files := files l ++ image_files (imgs pg); folders := folders l |}
  else l.

(** [loadFolderIndex(folderPath)].  [index_resp] answers the request for
    [folderPath + 'index.json'], [folder_resp] the one for [folderPath]. *)
Definition loadFolderIndex {J : Type} (index_resp : fetched J)
    (folder_resp : fetched page) : result (folder_index J) :=
  let returned :=
    try_catch
      (res <- fetch index_resp ;;
       if fst res then j <- read_body (snd res) ;; Ok (Some j) else Ok None)
      (Ok None) in
  r <- returned ;;
  match r with
  | Some j => Ok (IndexJson j)
  | None =>
      res <- fetch folder_resp ;;
      pg <- read_body (snd res) ;;
      Ok (IndexListing (parse_listing pg))
  end.

(** *** Properties *)

Lemma in_present (attrs : attributes) (h : string) :
  In h (present attrs) <-> In (Some h) attrs /\ truthy h = true.
Proof.
  unfold present. rewrite in_flat_map. split.
  - intros [[a|] [Hin Hh]]; [|contradiction].
    destruct (truthy a) eqn:Ha; [|contradiction].
    destruct Hh as [<-|[]]. auto.
  - intros [Hin Ht]. exists (Some h). split; [assumption|]. rewrite Ht. now left.
Qed.

Lemma endsWith_slash_truthy (h : string) : endsWith "/" h = true -> truthy h = true.
Proof. destruct h; [discriminate | reflexivity]. Qed.

(** An entry of the heuristic folder list is a trailing-slash [href]. *)
Lemma in_heuristic_folders (anchors : attributes) (e : folder_entry) :
  In e (heuristic_folders anchors) <->
  exists h, In (Some h) anchors /\ endsWith "/" h = true /\
            e = {| name := remove_first_slash h;
                   path := "/photos/" +++ remove_first_slash h +++ "/" |}.
Proof.
  unfold heuristic_folders. rewrite in_map_iff. split.
  - intros [h [<- Hin]]. apply filter_In in Hin as [Hin Hend].
    apply in_present in Hin as [Hin _]. now exists h.
  - intros [h [Hin [Hend ->]]]. exists h. split; [reflexivity|].
    apply filter_In. split; [|assumption].
    apply in_present. split; [assumption|]. now apply endsWith_slash_truthy.
Qed.

(** C7.  [loadManifest] never throws.  When the manifest request fails
    (transport error, a status that is not ok, or a body that is no
    JSON), the result is the folder list read off the anchors of the
    /photos/ page, whose entries are exactly the trailing-slash [href]s;
    when that page cannot be fetched or read either, or has no such
    link, the folder list is empty. *)
Theorem loadManifest_never_throws (J : Type) (manifest_resp : fetched J)
    (root_resp : fetched attributes) :
  (exists m, loadManifest manifest_resp root_resp = Ok m) /\
  (manifest_failed manifest_resp ->
     exists fs, loadManifest manifest_resp root_resp = Ok (ManifestFolders fs) /\
       match root_resp with
       | Status _ (Some anchors) =>
           fs = heuristic_folders anchors /\
           (forall e, In e fs <->
              exists h, In (Some h) anchors /\ endsWith "/" h = true /\
                        e = {| name := remove_first_slash h;
                               path := "/photos/" +++ remove_first_slash h +++ "/" |}) /\
           ((forall h, In (Some h) anchors -> endsWith "/" h = false) -> fs = [])
       | _ => fs = []
       end).
Proof.
  split.
  - unfold loadManifest.
    destruct manifest_resp as [|[|] [j|]]; simpl; eauto;
      destruct root_resp as [|ok [a|]]; simpl; eauto.
  - intros Hfail.
    assert (Hfall : loadManifest manifest_resp root_resp =
                    try_catch
                      (res <- fetch root_resp ;;
                       anchors <- read_body (snd res) ;;
                       Ok (ManifestFolders (heuristic_folders anchors)))
                      (Ok (ManifestFolders []))).
    { unfold loadManifest. destruct manifest_resp as [|[|] [j|]]; simpl in *;
        try reflexivity; contradiction. }
    rewrite Hfall. clear Hfall Hfail.
    destruct root_resp as [|ok [a|]]; simpl.
    + now exists [].
    + exists (heuristic_folders a). split; [reflexivity|]. split; [reflexivity|]. split.
      * intros e. apply in_heuristic_folders.
      * intros Hnone. destruct (heuristic_folders a) as [|e fs] eqn:E; [reflexivity|].
        assert (Hin : In e (heuristic_folders a)) by (rewrite E; now left).
        apply in_heuristic_folders in Hin as [h [Hin [Hend _]]].
        rewrite (Hnone h Hin) in Hend. discriminate.
    + now exists [].
Qed.

(** When no anchor is a file, the files of the listing are the image
    file names. *)
Lemma parse_listing_secondary (pg : page) :
  files (fold_left classify_anchor (anchors pg) {| files := []; folders := [] |}) = [] ->
  files (parse_listing pg) = image_files (imgs pg).
Proof.
  intros H. unfold parse_listing. rewrite H. reflexivity.
Qed.

(** A page that shows thumbnails: path components are stripped. *)
Example secondary_fallback_strips_paths :
  loadFolderIndex (J := unit) NetworkError
    (Status true (Some {| anchors := [Some "../"; Some "sub/"];
                          imgs := [Some "/photos/a/one.jpg"; Some "thumbs/two.jpg"; None] |}))
  = Ok (IndexListing {| files := ["one.jpg"; "two.jpg"]; folders := ["sub"] |}).
Proof. reflexivity. Qed.

(** The filter on [data:] comes after the path has been stripped, so it
    only sees a [data:] URI that has no slash. *)
Example data_uri_without_slash_excluded :
  image_files [Some "data:,hello"; Some "x/y.png"] = ["y.png"].
Proof. reflexivity. Qed.

(** C9 (defect).  A page without file anchors whose only image is an
    inline [data:] URI of the usual form: the URI is not excluded; what
    follows its last slash becomes a file entry. *)
Theorem data_uri_becomes_file_entry :
  loadFolderIndex (J := unit) NetworkError
    (Status true (Some {| anchors := [];
                          imgs := [Some "data:image/png;base64,iVBORw0KGgo="] |}))
  = Ok (IndexListing {| files := ["png;base64,iVBORw0KGgo="]; folders := [] |}).
Proof. reflexivity. Qed.

End RemoteListing.

(* ================================================================== *)
(** ** Lazy expansion of a folder tile *)

Module FolderTile.

(** What the contents area of a tile shows. *)
Inductive contents (D : Type) : Type :=
| Untouched
| Rendered (data : D)         (* [renderFolderContents(contentWrap, data, path)] *)
| LoadFailed.                 (* "Failed to load contents" *)
Arguments Untouched {D}.
Arguments Rendered {D} data.
Arguments LoadFailed {D}.

(** The state a tile's toggle handler reads and writes. *)
Record tile (D : Type) : Type := {
  hidden : bool;              (* class [hidden] of the contents area *)
  expanded : bool;            (* class [expanded] of the arrow *)
  loaded : bool;              (* [contentWrap.dataset.loaded] is set *)
  shown : contents D;
  requests : nat;             (* calls of [loadFolderIndex] issued so far *)
  pending : nat               (* of these, the ones not yet settled *)
}.
Arguments hidden {D} t.
Arguments expanded {D} t.
Arguments loaded {D} t.
Arguments shown {D} t.
Arguments requests {D} t.
Arguments pending {D} t.

(** A tile as [folderTile] creates it. *)
Definition fresh (D : Type) : tile D :=
  {| hidden := true; expanded := false; loaded := false;
     shown := Untouched; requests := 0; pending := 0 |}.

(** What happens to a tile: a click on its arrow, or the settlement of
    an awaited [loadFolderIndex]: [Ok data] when the index arrived and was
    rendered, [Throw] when loading or rendering threw. *)
Inductive event (D : Type) : Type :=
| ToggleClick
| LoadSettles (r : result D).
Arguments ToggleClick {D}.
Arguments LoadSettles {D} r.

(** The click handler up to its [await], and its continuation. *)
Definition step {D : Type} (e : event D) (t : tile D) : option (tile D) :=
  match e with
  | ToggleClick =>
      let opened := negb (hidden t) in      (* what [classList.toggle('hidden')] returns *)
      let issue := negb opened && negb (loaded t) in
      Some {| hidden := opened; expanded := negb (expanded t); loaded := loaded t;
              shown := shown t;
              requests := if issue then S (requests t) else requests t;
              pending := if issue then S (pending t) else pending t |}
  | LoadSettles r =>
      match pending t with
      | O => None
      | S k =>
          match r with
          | Ok data =>
              Some {| hidden := hidden t; expanded := expanded t; loaded := true;
                      shown := Rendered data; requests := requests t; pending := k |}
          | Throw =>
              Some {| hidden := hidden t; expanded := expanded t; loaded := loaded t;
                      shown := LoadFailed; requests := requests t; pending := k |}
          end
      end
  end.

(** The states a tile goes through under a sequence of events, the
    starting state first; [None] when an event cannot happen. *)
Fixpoint history {D : Type} (evs : list (event D)) (t : tile D) : option (list (tile D)) :=
  match evs with
  | [] => Some [t]
  | e :: evs' =>
      match step e t with
      | Some t' => option_map (cons t) (history evs' t')
      | None => None
      end
  end.

(** Number of places where a sequence of flags goes from false to true. *)
Fixpoint rises (l : list bool) : nat :=
  match l with
  | false :: ((true :: _) as l') => S (rises l')
  | _ :: l' => rises l'
  | [] => 0
  end.

Definition clicks_only {D : Type} (evs : list (event D)) : Prop :=
  Forall (fun e => e = ToggleClick) evs.

(** *** Properties *)

Lemma step_keeps_loaded {D : Type} (e : event D) (t t' : tile D) :
  step e t = Some t' -> loaded t = true -> loaded t' = true.
Proof.
  destruct e as [|[d|]]; simpl.
  - intros [= <-]. auto.
  - destruct (pending t); [discriminate|]. intros [= <-]. auto.
  - destruct (pending t); [discriminate|]. intros [= <-]. auto.
Qed.

Lemma step_loaded_no_request {D : Type} (e : event D) (t t' : tile D) :
  step e t = Some t' -> loaded t = true -> requests t' = requests t.
Proof.
  destruct e as [|[d|]]; simpl.
  - intros [= <-] Hl. simpl. rewrite Hl, andb_false_r. reflexivity.
  - destruct (pending t); [discriminate|]. now intros [= <-].
  - destruct (pending t); [discriminate|]. now intros [= <-].
Qed.

Lemma history_loaded_stable {D : Type} (evs : list (event D)) :
  forall (t : tile D) (h : list (tile D)),
    history evs t = Some h -> loaded t = true ->
    Forall (fun t' => loaded t' = true /\ requests t' = requests t) h.
Proof.
  induction evs as [|e evs IH]; simpl; intros t h Hh Hl.
  - injection Hh as <-. repeat constructor; auto.
  - destruct (step e t) as [t'|] eqn:Hs; [|discriminate].
    destruct (history evs t') as [h'|] eqn:Hh'; [|discriminate].
    injection Hh as <-. constructor; [auto|].
    pose proof (step_keeps_loaded e t t' Hs Hl) as Hl'.
    pose proof (step_loaded_no_request e t t' Hs Hl) as Hr.
    specialize (IH t' h' Hh' Hl').
    eapply Forall_impl; [|exact IH]. simpl. intros a [Ha1 Ha2]. split; congruence.
Qed.

Lemma rises_all_true (l : list bool) : Forall (fun b => b = true) l -> rises l = 0.
Proof.
  induction 1 as [|b l Hb _ IH]; [reflexivity|]. subst b. simpl. exact IH.
Qed.

Lemma history_head {D : Type} (evs : list (event D)) (t : tile D) (h : list (tile D)) :
  history evs t = Some h -> exists h', h = t :: h'.
Proof.
  destruct evs as [|e evs]; simpl.
  - intros [= <-]. eauto.
  - destruct (step e t); [|discriminate].
    destruct (history evs t0); [|discriminate]. intros [= <-]. eauto.
Qed.

Lemma history_rises {D : Type} (evs : list (event D)) :
  forall (t : tile D) (h : list (tile D)),
    history evs t = Some h -> rises (map loaded h) <= 1.
Proof.
  induction evs as [|e evs IH]; simpl; intros t h Hh.
  - injection Hh as <-. simpl. destruct (loaded t); auto.
  - destruct (step e t) as [t'|] eqn:Hs; [|discriminate].
    destruct (history evs t') as [h'|] eqn:Hh'; [|discriminate].
    injection Hh as <-.
    destruct (loaded t) eqn:Hl.
    + assert (Hall : Forall (fun t' => loaded t' = true /\ requests t' = requests t) (t :: h')).
      { apply (history_loaded_stable (e :: evs) t); [|assumption].
        simpl. now rewrite Hs, Hh'. }
      rewrite rises_all_true; [lia|].
      apply Forall_map. eapply Forall_impl; [|exact Hall]. simpl. now intros a [Ha _].
    + destruct (history_head evs t' h' Hh') as [h'' ->].
      simpl map. rewrite Hl.
      destruct (loaded t') eqn:Hl'.
      * assert (Hall : Forall (fun t0 => loaded t0 = true /\ requests t0 = requests t') (t' :: h'')).
        { now apply (history_loaded_stable evs t'). }
        assert (H0 : rises (map loaded (t' :: h'')) = 0).
        { apply rises_all_true. apply Forall_map.
          eapply Forall_impl; [|exact Hall]. simpl. now intros a [Ha _]. }
        simpl map in H0. rewrite Hl' in H0.
        change (S (rises (true :: map loaded h'')) <= 1). rewrite H0. lia.
      * specialize (IH t' (t' :: h'') Hh'). simpl map in IH. rewrite Hl' in IH.
        exact IH.
Qed.

Lemma click_on_loaded {D : Type} (t t' : tile D) :
  step ToggleClick t = Some t' -> loaded t = true ->
  loaded t' = true /\ shown t' = shown t /\ pending t' = pending t.
Proof.
  simpl. intros [= <-] Hl. simpl. rewrite Hl, andb_false_r. auto.
Qed.

Lemma history_clicks_keep_contents {D : Type} (evs : list (event D)) :
  clicks_only evs ->
  forall (t : tile D) (h : list (tile D)),
    history evs t = Some h -> loaded t = true ->
    Forall (fun t' => shown t' = shown t /\ pending t' = pending t) h.
Proof.
  induction 1 as [|e evs He _ IH]; intros t h Hh Hl.
  - simpl in Hh. injection Hh as <-. repeat constructor.
  - subst e. cbn [history] in Hh.
    destruct (step ToggleClick t) as [t'|] eqn:Hs; [|discriminate].
    destruct (history evs t') as [h'|] eqn:Hh'; [|discriminate].
    injection Hh as <-. constructor; [auto|].
    destruct (click_on_loaded t t' Hs Hl) as [Hl' [Hsh Hp]].
    specialize (IH t' h' Hh' Hl').
    eapply Forall_impl; [|exact IH]. simpl. intros a [Ha1 Ha2]. split; congruence.
Qed.

(** C8.  Once a tile's contents have been loaded, whatever happens to
    it afterwards (clicks, late settlements of earlier requests) issues
    no further [loadFolderIndex] call and leaves the flag set, and clicks
    alone also leave the rendered contents as they are; along every
    sequence of events of a tile the flag goes from unset to set at most
    once. *)
Theorem expansion_idempotent (D : Type) (before after : list (event D))
    (t : tile D) (h hist : list (tile D)) :
  history before (fresh D) = Some hist ->
  last hist (fresh D) = t ->
  loaded t = true ->
  history after t = Some h ->
  Forall (fun t' => requests t' = requests t /\ loaded t' = true) h /\
  (clicks_only after ->
     Forall (fun t' => shown t' = shown t /\ pending t' = pending t) h) /\
  rises (map loaded hist) <= 1 /\ rises (map loaded h) = 0.
Proof.
  intros Hbefore Hlast Hl Hafter.
  pose proof (history_loaded_stable after t h Hafter Hl) as Hst.
  split; [|split; [|split]].
  - eapply Forall_impl; [|exact Hst]. simpl. tauto.
  - intros Hclicks. exact (history_clicks_keep_contents after Hclicks t h Hafter Hl).
  - exact (history_rises before (fresh D) hist Hbefore).
  - apply rises_all_true. apply Forall_map.
    eapply Forall_impl; [|exact Hst]. simpl. tauto.
Qed.

(** An instance of C8: open, contents arrive, then close, open, close. *)
Lemma expansion_idempotent_witness :
  let t := {| hidden := false; expanded := true; loaded := true;
              shown := Rendered 7; requests := 1; pending := 0 |} in
  exists hist h,
    history [ToggleClick; LoadSettles (Ok 7)] (fresh nat) = Some hist /\
    last hist (fresh nat) = t /\
    history [ToggleClick; ToggleClick; ToggleClick] t = Some h /\
    Forall (fun t' => requests t' = 1 /\ loaded t' = true) h /\
    Forall (fun t' => shown t' = Rendered 7 /\ pending t' = 0) h /\
    rises (map loaded hist) <= 1.
Proof.
  intros t. eexists. eexists.
  split; [reflexivity|]. split; [reflexivity|]. split; [reflexivity|].
  destruct (expansion_idempotent nat [ToggleClick; LoadSettles (Ok 7)]
              [ToggleClick; ToggleClick; ToggleClick] t _ _ eq_refl eq_refl eq_refl eq_refl)
    as [H1 [H2 [H3 _]]].
  split; [exact H1|]. split; [|exact H3].
  apply H2. repeat constructor.
Defined.

(** The guard reads the flag when the click arrives: a tile that is
    closed and opened again before its contents have arrived asks for
    them a second time. *)
Example reopened_before_loaded :
  option_map (fun h => requests (last h (fresh nat)))
             (history [ToggleClick; ToggleClick; ToggleClick] (fresh nat)) = Some 2.
Proof. reflexivity. Qed.

End FolderTile.

(* ================================================================== *)
(** ** More on data discovery *)

Module ListingFacts.
Import JsString RemoteListing.

(** No slash occurs in [s]. *)
Fixpoint slash_free (s : string) : bool :=
  match s with
  | EmptyString => true
  | String c s' => negb (Ascii.eqb c slash) && slash_free s'
  end.

(** The [href]s the anchor loop of [loadFolderIndex] looks at: present,
    not empty, no sort link of a generated index, not the parent link. *)
Definition link_targets (anchors : attributes) : list string :=
  filter (fun h => negb (startsWith "?" h) && negb (String.eqb h "../")) (present anchors).

Definition file_links (anchors : attributes) : list string :=
  filter (fun h => negb (endsWith "/" h)) (link_targets anchors).

Definition folder_links (anchors : attributes) : list string :=
  filter (endsWith "/") (link_targets anchors).

(** The request for [index.json] did not deliver a document. *)
Definition index_unavailable {J : Type} (r : fetched J) : Prop :=
  match r with
  | Status true (Some _) => False
  | _ => True
  end.

Lemma endsWith_cons (suf : string) (c : ascii) (s : string) :
  endsWith suf s = true -> endsWith suf (String c s) = true.
Proof.
  intros H. change (endsWith suf (String c s))
    with (String.eqb suf (String c s) || endsWith suf s).
  rewrite H. apply orb_true_r.
Qed.

Lemma endsWith_app (suf s : string) : endsWith suf (s +++ suf) = true.
Proof.
  induction s as [|c s IH]; simpl.
  - destruct suf; simpl; [reflexivity|]. rewrite Ascii.eqb_refl, String.eqb_refl. reflexivity.
  - rewrite IH. apply orb_true_r.
Qed.

(** A link that ends with [../] ends with a slash. *)
Lemma endsWith_parent_slash (h : string) :
  endsWith "../" h = true -> endsWith "/" h = true.
Proof.
  induction h as [|c h IH]; [discriminate|].
  intros H. change (endsWith "../" (String c h))
    with (String.eqb "../" (String c h) || endsWith "../" h) in H.
  apply orb_true_iff in H as [H|H].
  - apply String.eqb_eq in H. rewrite <- H. reflexivity.
  - apply endsWith_cons. now apply IH.
Qed.

Lemma slash_free_app (a b : string) :
  slash_free (a +++ b) = slash_free a && slash_free b.
Proof.
  induction a as [|c a IH]; simpl; [reflexivity|]. now rewrite IH, andb_assoc.
Qed.

(** A plain link to a sub-folder, [name/], gives back [name]. *)
Lemma remove_first_slash_trailing (n : string) :
  slash_free n = true -> remove_first_slash (n +++ "/") = n.
Proof.
  induction n as [|c n IH]; simpl; [reflexivity|].
  intros H. apply andb_true_iff in H as [Hc Hn].
  apply negb_true_iff in Hc. rewrite Hc. now rewrite IH.
Qed.

Lemma after_last_slash_settled (s r : string) :
  after_last_slash s = Some r -> after_last_slash r = None.
Proof.
  revert r. induction s as [|c s IH]; intros r; [discriminate|].
  change (after_last_slash (String c s))
    with (if line_terminator_at (String c s) then None
          else match after_last_slash s with
               | Some r => Some r
               | None => if Ascii.eqb c slash then Some s else None
               end).
  destruct (line_terminator_at (String c s)); [discriminate|].
  destruct (after_last_slash s) as [r'|] eqn:E.
  - intros [= <-]. now apply IH.
  - destruct (Ascii.eqb c slash); [|discriminate]. now intros [= <-].
Qed.

Lemma basename_basename (s : string) : basename (basename s) = basename s.
Proof.
  unfold basename at 2 3. destruct (after_last_slash s) as [r|] eqn:E.
  - unfold basename. now rewrite (after_last_slash_settled s r E).
  - unfold basename. now rewrite E.
Qed.

(** The anchor loop in closed form. *)
Lemma fold_classify (anchors : attributes) :
  forall acc,
    fold_left classify_anchor anchors acc =
    {| files := files acc ++ file_links anchors;
       folders := folders acc ++ map remove_first_slash (folder_links anchors) |}.
Proof.
  unfold file_links, folder_links, link_targets.
  induction anchors as [|a rest IH]; intros acc; simpl.
  - rewrite !app_nil_r. now destruct acc.
  - rewrite IH. clear IH. rewrite !filter_app, map_app.
    destruct a as [h|]; simpl; [|reflexivity].
    destruct (truthy h) eqn:Ht; simpl; [|reflexivity].
    destruct (startsWith "?" h); simpl; [reflexivity|].
    destruct (String.eqb h "../"); simpl; [reflexivity|].
    destruct (endsWith "/" h); simpl; now rewrite <- ?app_assoc.
Qed.

Lemma parse_listing_closed (pg : page) :
  parse_listing pg =
  {| files := match file_links (anchors pg) with
              | [] => image_files (imgs pg)
              | fs => fs
              end;
     folders := map remove_first_slash (folder_links (anchors pg)) |}.
Proof.
  unfold parse_listing. rewrite fold_classify. simpl.
  destruct (file_links (anchors pg)) as [|f fs]; reflexivity.
Qed.

(** X1.  When [loadFolderIndex] rejects.  It rejects exactly when
    [index.json] is not delivered and the request for the folder itself
    fails or its body cannot be read; a delivered [index.json] is
    returned as it is, without a request for the folder mattering. *)
Theorem loadFolderIndex_rejects_only_without_folder_page (J : Type)
    (index_resp : fetched J) (folder_resp : fetched page) :
  (loadFolderIndex index_resp folder_resp = Throw <->
   index_unavailable index_resp /\
   (folder_resp = NetworkError \/ exists ok, folder_resp = Status ok None)) /\
  (forall j, index_resp = Status true (Some j) ->
             loadFolderIndex index_resp folder_resp = Ok (IndexJson j)).
Proof.
  split.
  - unfold loadFolderIndex, index_unavailable.
    destruct index_resp as [|[|] [j|]]; destruct folder_resp as [|ok [pg|]]; simpl; split;
      try (intros H; discriminate H);
      try (intros _; split; [exact I|eauto]; fail);
      try (intros [Hi [Hf|[ok' Hf]]]; first [contradiction | discriminate Hf | reflexivity]).
  - intros j ->. reflexivity.
Qed.

(** X2.  The directory-listing fallback, for any page.  When
    [index.json] is not delivered and the folder request delivers a page
    (whatever its status: [res.ok] is not looked at), the result lists,
    in document order, as folders the links that end with a slash, less
    their first slash, and as files the other links, where links without
    [href], with an empty one, starting with [?] or equal to [../] are
    passed over; only when no link is a file do the images provide the
    files. *)
Theorem fallback_listing_in_document_order (J : Type) (index_resp : fetched J)
    (ok : bool) (pg : page) :
  index_unavailable index_resp ->
  loadFolderIndex index_resp (Status ok (Some pg)) =
  Ok (IndexListing
        {| files := match file_links (anchors pg) with
                    | [] => image_files (imgs pg)
                    | fs => fs
                    end;
           folders := map remove_first_slash (folder_links (anchors pg)) |}).
Proof.
  intros Hidx. rewrite <- parse_listing_closed.
  unfold loadFolderIndex, index_unavailable in *.
  destruct index_resp as [|[|] [j|]]; simpl; try reflexivity. contradiction.
Qed.

Lemma fallback_listing_in_document_order_witness :
  index_unavailable (J := unit) (Status false None) /\
  loadFolderIndex (J := unit) (Status false None)
    (Status false (Some {| anchors := [Some "?C=N;O=D"; Some "../"; Some "b.jpg"; None;
                                       Some "sub/"; Some "a.jpg"];
                           imgs := [Some "logo.png"] |})) =
  Ok (IndexListing {| files := ["b.jpg"; "a.jpg"]; folders := ["sub"] |}).
Proof.
  split; [exact I|].
  exact (fallback_listing_in_document_order unit (Status false None) false
           {| anchors := [Some "?C=N;O=D"; Some "../"; Some "b.jpg"; None;
                          Some "sub/"; Some "a.jpg"];
              imgs := [Some "logo.png"] |} I).
Defined.

(** X3.  File names taken from images are base names.  Stripping the
    path ([replace(/^.*\//, '')], which the download code also uses to
    name archive entries) is idempotent, and every file entry the image
    fallback produces is a fixed point of it. *)
Theorem image_file_names_are_base_names (srcs : attributes) :
  (forall s, basename (basename s) = basename s) /\
  (forall f, In f (image_files srcs) -> basename f = f).
Proof.
  split; [exact basename_basename|].
  intros f Hin. unfold image_files in Hin. apply filter_In in Hin as [Hin _].
  apply in_map_iff in Hin as [s [<- _]]. apply basename_basename.
Qed.

(** X4.  Plain folder links survive the heuristic manifest.  When the
    manifest is not delivered and the index of /photos/ links to
    [name/] ([name] without a slash), the folder list [loadManifest]
    builds has the entry of that name with the path /photos/name/. *)
Theorem plain_folder_link_becomes_folder (J : Type) (manifest_resp : fetched J)
    (ok : bool) (anchors : attributes) (n : string) :
  manifest_failed manifest_resp ->
  slash_free n = true ->
  In (Some (n +++ "/")) anchors ->
  exists fs,
    loadManifest manifest_resp (Status ok (Some anchors)) = Ok (ManifestFolders fs) /\
    In {| name := n; path := "/photos/" +++ n +++ "/" |} fs.
Proof.
  intros Hfail Hn Hin. exists (heuristic_folders anchors). split.
  - unfold loadManifest. destruct manifest_resp as [|[|] [j|]]; simpl in *;
      try reflexivity. contradiction.
  - apply in_heuristic_folders. exists (n +++ "/"). split; [assumption|].
    split; [apply endsWith_app|]. now rewrite (remove_first_slash_trailing n Hn).
Qed.

Lemma plain_folder_link_becomes_folder_witness :
  exists fs,
    loadManifest (J := unit) NetworkError
      (Status true (Some [Some "../"; Some "paris/"; Some "readme.txt"]))
      = Ok (ManifestFolders fs) /\
    In {| name := "paris"; path := "/photos/paris/" |} fs.
Proof.
  apply (plain_folder_link_becomes_folder unit NetworkError true
           [Some "../"; Some "paris/"; Some "readme.txt"] "paris").
  - exact I.
  - reflexivity.
  - right. left. reflexivity.
Defined.

(** A link with a directory part loses its first slash only: the entry
    is not the folder linked to. *)
Example deep_folder_link_is_mangled :
  loadManifest (J := unit) NetworkError (Status true (Some [Some "/photos/paris/"])) =
  Ok (ManifestFolders [{| name := "photos/paris/"; path := "/photos/photos/paris//" |}]).
Proof. reflexivity. Qed.

End ListingFacts.

(* ================================================================== *)
(** ** The concurrency-limited mapper on the event loop

    [mapWithConcurrency] overlaps the invocations of its mapper, so what
    it does depends on when each of them completes.  The model is the
    event loop itself: a state holding the variables of the function
    ([results], [executing], the position of the [for] loop), the
    promises with their subscribers, and the queue of microtasks; and two
    kinds of steps, taken in any order: the oldest microtask runs, or the
    environment lets a pending invocation complete.  A stretch of
    synchronous code (the loop from one [await] to the next) is one
    function.  What an invocation does when it is resumed and the
    settlement of its promise are taken as one step; the mappers of the
    source touch the shared variables only after their [await]. *)

Module Scheduler.

Section MapWithConcurrency.

(** The items mapped over, what the mapper's promise is fulfilled or
    rejected with, and the state the mapper's invocations share (the
    variables they close over). *)
Variables (Item Val Err U : Type).

Inductive outcome : Type :=
| Fulfilled (v : Val)
| Rejected (e : Err).

(** The mapper.  Invocation number [i] (on the [i]-th item) either runs
    to its end without suspending ([immediate i item]), or suspends on
    something it awaits and is resumed by the environment.  [finish i
    item] is what it then does to the shared state and how its promise
    settles; what the awaited request answered is part of [finish]. *)
Variable immediate : nat -> Item -> bool.
Variable finish : nat -> Item -> U -> U * outcome.

(** The third argument of [mapWithConcurrency]. *)
Variable concurrency : nat.

(** A promise [p] made by [(async () => mapper(item))()], with the
    [Promise.race] calls that have subscribed to it.  Its first
    subscriber is always [p.then(cleanup)]. *)
Record promise : Type := {
  p_item : Item;
  p_state : option outcome;          (* [None]: pending *)
  p_races : list nat
}.

(** Jobs of the microtask queue.  Promises are named by their index in
    [results], races by their call number. *)
Inductive job : Type :=
| JCleanup (p : nat)       (* [cleanup()]: [executing.delete(p)] *)
| JPass (p : nat)          (* [p] rejected: [p.then(cleanup)] rejects in turn,
                              which schedules [.catch(cleanup)] *)
| JRace (r p : nat)        (* race [r] hears of the settlement of [p] *)
| JResume.                 (* continuation of [await Promise.race(executing)] *)

(** Where the body of [mapWithConcurrency] stands between two jobs. *)
Inductive loop_state : Type :=
| LAwait (r : nat)         (* suspended on race [r], which is pending *)
| LWake (p : nat)          (* race settled like [p]; continuation queued *)
| LDone                    (* the loop ended: [return Promise.all(results)] *)
| LThrew (e : Err).        (* the [await] threw: the call rejects *)

Inductive event : Type :=
| EStart (i : nat)         (* the mapper is invoked on item [i] *)
| ESettle (i : nat).       (* that invocation's promise settles *)

Record state : Type := {
  todo : list Item;          (* items the [for] loop has not reached *)
  results : list promise;
  executing : list nat;      (* the [Set], in insertion order *)
  races : nat;               (* [Promise.race] calls made so far *)
  loop : loop_state;
  queue : list job;          (* microtasks, oldest first *)
  shared : U;
  trace : list event         (* oldest first *)
}.

Definition reaction (o : outcome) (p : nat) : job :=
  match o with
  | Fulfilled _ => JCleanup p
  | Rejected _ => JPass p
  end.

(** One turn of the loop up to its [if]: invoke the mapper, push and
    add the promise, subscribe [cleanup]. *)
Definition start (item : Item) (s : state) : state :=
  let id := List.length (results s) in
  if immediate id item then
    let (u, o) := finish id item (shared s) in
    {| todo := todo s;
       results := results s ++ [{| p_item := item; p_state := Some o; p_races := [] |}];
       executing := executing s ++ [id];
       races := races s; loop := loop s;
       queue := queue s ++ [reaction o id];
       shared := u;
       trace := trace s ++ [EStart id; ESettle id] |}
  else
    {| todo := todo s;
       results := results s ++ [{| p_item := item; p_state := None; p_races := [] |}];
       executing := executing s ++ [id];
       races := races s; loop := loop s;
       queue := queue s;
       shared := shared s;
       trace := trace s ++ [EStart id] |}.

Definition subscribe (r : nat) (pr : promise) : promise :=
  {| p_item := p_item pr; p_state := p_state pr; p_races := p_races pr ++ [r] |}.

(** Race [r] subscribes to the promises of [ex] ([i] is the index of
    the head of [ps]). *)
Fixpoint subscribe_all (r : nat) (ex : list nat) (i : nat) (ps : list promise) : list promise :=
  match ps with
  | [] => []
  | pr :: ps' =>
      (if existsb (Nat.eqb i) ex then subscribe r pr else pr)
        :: subscribe_all r ex (S i) ps'
  end.

Definition settled (ps : list promise) (p : nat) : bool :=
  match nth_error ps p with
  | Some pr => match p_state pr with Some _ => true | None => false end
  | None => false
  end.

(** [await Promise.race(executing)]: the race subscribes to every member
    of the set; a member that has settled already answers at once. *)
Definition await_race (rest : list Item) (s : state) : state :=
  let r := races s in
  {| todo := rest;
     results := subscribe_all r (executing s) 0 (results s);
     executing := executing s;
     races := S r;
     loop := LAwait r;
     queue := queue s ++ map (JRace r) (filter (settled (results s)) (executing s));
     shared := shared s;
     trace := trace s |}.

Definition finish_loop (s : state) : state :=
  {| todo := []; results := results s; executing := executing s; races := races s;
     loop := LDone; queue := queue s; shared := shared s; trace := trace s |}.

(** The [for] loop from the item it stands at, up to the next
    suspension or its end. *)
Fixpoint run_loop (items : list Item) (s : state) : state :=
  match items with
  | [] => finish_loop s
  | item :: rest =>
      let s1 := start item s in
      if concurrency <=? List.length (executing s1) then await_race rest s1
      else run_loop rest s1
  end.

(** [mapWithConcurrency(list, mapper, concurrency)] up to its first
    suspension, called with the shared state [u]. *)
Definition mapWithConcurrency (list : list Item) (u : U) : state :=
  run_loop list
    {| todo := list; results := []; executing := []; races := 0; loop := LDone;
       queue := []; shared := u; trace := [] |}.

Definition with_queue (q : list job) (s : state) : state :=
  {| todo := todo s; results := results s; executing := executing s; races := races s;
     loop := loop s; queue := q; shared := shared s; trace := trace s |}.

Definition with_loop (l : loop_state) (s : state) : state :=
  {| todo := todo s; results := results s; executing := executing s; races := races s;
     loop := l; queue := queue s; shared := shared s; trace := trace s |}.

Definition with_executing (ex : list nat) (s : state) : state :=
  {| todo := todo s; results := results s; executing := ex; races := races s;
     loop := loop s; queue := queue s; shared := shared s; trace := trace s |}.

Definition outcome_of (s : state) (p : nat) : option outcome :=
  match nth_error (results s) p with
  | Some pr => p_state pr
  | None => None
  end.

(** Running one job, already taken off the queue. *)
Definition exec_job (j : job) (s : state) : state :=
  match j with
  | JCleanup p => with_executing (remove Nat.eq_dec p (executing s)) s
  | JPass p => with_queue (queue s ++ [JCleanup p]) s
  | JRace r p =>
      match loop s with
      | LAwait r' =>
          if Nat.eqb r r' then with_queue (queue s ++ [JResume]) (with_loop (LWake p) s)
          else s
      | _ => s
      end
  | JResume =>
      match loop s with
      | LWake p =>
          match outcome_of s p with
          | Some (Fulfilled _) => run_loop (todo s) s
          | Some (Rejected e) => with_loop (LThrew e) s
          | None => s
          end
      | _ => s
      end
  end.

Fixpoint set_nth {A : Type} (n : nat) (a : A) (l : list A) : list A :=
  match l, n with
  | [], _ => []
  | _ :: l', O => a :: l'
  | x :: l', S n' => x :: set_nth n' a l'
  end.

(** The environment resumes the pending invocation [p], which runs to
    its end: its promise settles and its subscribers are scheduled in
    the order they subscribed. *)
Definition settle (p : nat) (s : state) : option state :=
  match nth_error (results s) p with
  | Some pr =>
      match p_state pr with
      | Some _ => None
      | None =>
          let (u, o) := finish p (p_item pr) (shared s) in
          Some {| todo := todo s;
                  results := set_nth p {| p_item := p_item pr; p_state := Some o;
                                          p_races := p_races pr |} (results s);
                  executing := executing s;
                  races := races s; loop := loop s;
                  queue := queue s ++ reaction o p :: map (fun r => JRace r p) (p_races pr);
                  shared := u;
                  trace := trace s ++ [ESettle p] |}
      end
  | None => None
  end.

(** What the event loop does next: run the oldest microtask, or let a
    pending invocation complete. *)
Inductive action : Type :=
| RunJob
| Settle (p : nat).

Definition step (a : action) (s : state) : option state :=
  match a with
  | RunJob =>
      match queue s with
      | [] => None
      | j :: q => Some (exec_job j (with_queue q s))
      end
  | Settle p => settle p s
  end.

Fixpoint run (sched : list action) (s : state) : option state :=
  match sched with
  | [] => Some s
  | a :: sched' =>
      match step a s with
      | Some s' => run sched' s'
      | None => None
      end
  end.

(** Nothing is left to happen. *)
Definition quiescent (s : state) : Prop :=
  queue s = [] /\ forall p, p < List.length (results s) -> settled (results s) p = true.

Definition is_pending (pr : promise) : bool :=
  match p_state pr with None => true | Some _ => false end.

(** [quiescent], as a test. *)
Definition idle (s : state) : bool :=
  match queue s with
  | [] => negb (existsb is_pending (results s))
  | _ :: _ => false
  end.

(** What the promise returned by [mapWithConcurrency] has become. *)
Inductive settlement : Type :=
| Unsettled
| Resolved (vs : list Val)
| Failed.

Fixpoint values (ps : list promise) : option (list Val) :=
  match ps with
  | [] => Some []
  | pr :: ps' =>
      match p_state pr, values ps' with
      | Some (Fulfilled v), Some vs => Some (v :: vs)
      | _, _ => None
      end
  end.

Definition is_rejected (pr : promise) : bool :=
  match p_state pr with Some (Rejected _) => true | _ => false end.

Definition settlement_of (s : state) : settlement :=
  match loop s with
  | LThrew _ => Failed
  | LDone =>
      if existsb is_rejected (results s) then Failed
      else match values (results s) with
           | Some vs => Resolved vs
           | None => Unsettled
           end
  | _ => Unsettled
  end.

Definition starts (tr : list event) : list nat :=
  flat_map (fun e => match e with EStart i => [i] | ESettle _ => [] end) tr.

Definition settles (tr : list event) : list nat :=
  flat_map (fun e => match e with ESettle i => [i] | EStart _ => [] end) tr.

(** Invocations started and not yet settled after the events [tr]. *)
Definition in_flight (tr : list event) : nat :=
  List.length (starts tr) - List.length (settles tr).

(** [list.map((x, i) => f(i, x))] *)
Definition mapi {A B : Type} (f : nat -> A -> B) (l : list A) : list B :=
  map (fun ix => f (fst ix) (snd ix)) (combine (seq 0 (List.length l)) l).


(** *** Lists, and the effect of the steps on [results] *)

Lemma length_set_nth {A : Type} (n : nat) (a : A) (l : list A) :
  List.length (set_nth n a l) = List.length l.
Proof.
  revert n. induction l as [|x l IH]; intros [|n]; simpl; auto.
Qed.

Lemma nth_error_set_nth_eq {A : Type} (n : nat) (a : A) (l : list A) :
  n < List.length l -> nth_error (set_nth n a l) n = Some a.
Proof.
  revert n. induction l as [|x l IH]; intros [|n] H; simpl in *; try lia; auto.
  apply IH. lia.
Qed.

Lemma nth_error_set_nth_neq {A : Type} (n m : nat) (a : A) (l : list A) :
  n <> m -> nth_error (set_nth n a l) m = nth_error l m.
Proof.
  revert n m. induction l as [|x l IH]; intros [|n] [|m] H; simpl; auto.
  congruence.
Qed.

Lemma length_subscribe_all r ex i ps :
  List.length (subscribe_all r ex i ps) = List.length ps.
Proof.
  revert i. induction ps as [|pr ps IH]; intros i; simpl; auto.
Qed.

Lemma nth_error_subscribe_all r ex ps :
  forall i k,
    nth_error (subscribe_all r ex i ps) k =
    option_map (fun pr => if existsb (Nat.eqb (i + k)) ex then subscribe r pr else pr)
               (nth_error ps k).
Proof.
  induction ps as [|pr ps IH]; intros i [|k]; simpl; auto.
  - now rewrite Nat.add_0_r.
  - rewrite IH. now replace (S i + k) with (i + S k) by lia.
Qed.

Lemma existsb_eqb_In (n : nat) (l : list nat) :
  existsb (Nat.eqb n) l = true <-> In n l.
Proof.
  rewrite existsb_exists. split.
  - intros [x [Hin Heq]]. apply Nat.eqb_eq in Heq. now subst.
  - intros H. exists n. split; [assumption|apply Nat.eqb_refl].
Qed.

Lemma settled_subscribe_all r ex ps p :
  settled (subscribe_all r ex 0 ps) p = settled ps p.
Proof.
  unfold settled. rewrite nth_error_subscribe_all.
  destruct (nth_error ps p) as [pr|]; simpl; [|reflexivity].
  destruct (existsb _ ex); reflexivity.
Qed.

Lemma settled_lt ps p : settled ps p = true -> p < List.length ps.
Proof.
  unfold settled. intros H. apply nth_error_Some.
  destruct (nth_error ps p); [discriminate | discriminate].
Qed.

Lemma settled_app_old ps qs p :
  p < List.length ps -> settled (ps ++ qs) p = settled ps p.
Proof.
  intros H. unfold settled. now rewrite nth_error_app1.
Qed.

Lemma settled_set_nth_eq ps p pr :
  p < List.length ps -> settled (set_nth p pr ps) p =
                        match p_state pr with Some _ => true | None => false end.
Proof.
  intros H. unfold settled. now rewrite nth_error_set_nth_eq.
Qed.

Lemma settled_set_nth_neq ps p q pr :
  p <> q -> settled (set_nth p pr ps) q = settled ps q.
Proof.
  intros H. unfold settled. now rewrite nth_error_set_nth_neq.
Qed.

Lemma split_cons {A : Type} (x j : A) (q q1 q2 : list A) :
  x :: q = q1 ++ j :: q2 ->
  (q1 = [] /\ x = j /\ q = q2) \/ (exists q1', q1 = x :: q1' /\ q = q1' ++ j :: q2).
Proof.
  destruct q1 as [|y q1]; simpl; intros H; injection H as H1 H2; subst;
    [left|right]; eauto.
Qed.

Lemma split_app {A : Type} (qa qb q1 q2 : list A) (j : A) :
  qa ++ qb = q1 ++ j :: q2 ->
  (exists q2', qa = q1 ++ j :: q2' /\ q2 = q2' ++ qb) \/
  (exists q1', q1 = qa ++ q1' /\ qb = q1' ++ j :: q2).
Proof.
  revert q1. induction qa as [|x qa IH]; intros q1 H; simpl in *.
  - right. exists q1. auto.
  - destruct q1 as [|y q1]; simpl in H; injection H as -> H.
    + left. exists qa. subst. auto.
    + destruct (IH q1 H) as [[q2' [-> ->]]|[q1' [-> ->]]].
      * left. exists q2'. auto.
      * right. exists q1'. auto.
Qed.

Lemma starts_app (t1 t2 : list event) : starts (t1 ++ t2) = starts t1 ++ starts t2.
Proof. apply flat_map_app. Qed.

Lemma settles_app (t1 t2 : list event) : settles (t1 ++ t2) = settles t1 ++ settles t2.
Proof. apply flat_map_app. Qed.

Lemma prefix_snoc {A : Type} (l pre post : list A) (x : A) :
  l ++ [x] = pre ++ post ->
  (exists post', l = pre ++ post') \/ pre = l ++ [x].
Proof.
  revert pre. induction l as [|y l IH]; intros pre H; simpl in *.
  - destruct pre as [|z pre]; [left; now exists []|].
    simpl in H. injection H as <- H. right.
    destruct pre; [reflexivity|discriminate].
  - destruct pre as [|z pre]; [left; now exists (y :: l)|].
    simpl in H. injection H as <- H.
    destruct (IH pre H) as [[post' ->] | ->]; [left; now exists post' | now right].
Qed.

Lemma idle_quiescent (s : state) : idle s = true <-> quiescent s.
Proof.
  unfold idle, quiescent. destruct (queue s) as [|j q].
  - rewrite negb_true_iff. split.
    + intros H. split; [reflexivity|]. intros p Hp.
      unfold settled. destruct (nth_error (results s) p) as [pr|] eqn:Hn;
        [|apply nth_error_None in Hn; lia].
      destruct (p_state pr) eqn:Hst; [reflexivity|].
      assert (existsb is_pending (results s) = true); [|congruence].
      apply existsb_exists. exists pr. split; [now apply nth_error_In in Hn|].
      unfold is_pending. now rewrite Hst.
    + intros [_ H]. destruct (existsb is_pending (results s)) eqn:E; [|reflexivity].
      apply existsb_exists in E as [pr [Hin Hp]].
      apply In_nth_error in Hin as [p Hn].
      assert (Hlt : p < List.length (results s)) by (apply nth_error_Some; congruence).
      specialize (H p Hlt). unfold settled in H. rewrite Hn in H.
      unfold is_pending in Hp. destruct (p_state pr); discriminate.
  - split; [discriminate|]. intros [H _]. discriminate.
Qed.

(** *** The invariant of the event loop *)

Section Invariant.

Hypothesis concurrency_pos : 1 <= concurrency.

(** The list [mapWithConcurrency] was called with, and the shared state
    at that moment. *)
Variable input : list Item.
Variable u0 : U.

(** What invocation [p] does to the shared state when it completes. *)
Definition item_step (u : U) (p : nat) : U :=
  match nth_error input p with
  | Some it => fst (finish p it u)
  | None => u
  end.

(** Facts that hold whenever control is with the event loop, and also
    between two turns of the [for] loop. *)
Record core (s : state) : Prop := {
  c_items : exists rest, input = map p_item (results s) ++ rest;
  c_exec_lt : forall p, In p (executing s) -> p < List.length (results s);
  c_pending : forall p, p < List.length (results s) ->
                        settled (results s) p = false -> In p (executing s);
  c_size : List.length (executing s) <= concurrency;
  (* a settled member of the set has its cleanup on the way *)
  c_token : forall p, In p (executing s) -> settled (results s) p = true ->
                      In (JCleanup p) (queue s) \/ In (JPass p) (queue s);
  (* and a race hears of a settlement after the cleanup was scheduled *)
  c_order : forall q1 r p q2, queue s = q1 ++ JRace r p :: q2 -> In p (executing s) ->
                              In (JPass p) q1 \/ In (JCleanup p) (queue s);
  c_sub : forall r p, In (JRace r p) (queue s) ->
                      settled (results s) p = true /\
                      exists pr, nth_error (results s) p = Some pr /\ In r (p_races pr);
  c_fresh : forall p pr r, nth_error (results s) p = Some pr -> In r (p_races pr) ->
                           r < races s;
  c_starts : starts (trace s) = seq 0 (List.length (results s));
  c_nodup : NoDup (settles (trace s));
  c_settles : forall p, In p (settles (trace s)) <-> settled (results s) p = true;
  c_prefix : forall pre post, trace s = pre ++ post ->
                              List.length (starts pre) <= List.length (settles pre) + concurrency;
  c_shared : shared s = fold_left item_step (settles (trace s)) u0;
  (* cleanups are scheduled for settled promises only *)
  c_tok : forall p, In (JCleanup p) (queue s) \/ In (JPass p) (queue s) ->
                    settled (results s) p = true;
  (* a promise is settled by its own invocation *)
  c_outcome : forall p pr o, nth_error (results s) p = Some pr -> p_state pr = Some o ->
                             exists u, o = snd (finish p (p_item pr) u)
}.

(** Facts about where the body of [mapWithConcurrency] stands. *)
Record loop_inv (s : state) : Prop := {
  l_items : input = map p_item (results s) ++ todo s;
  l_done : loop s = LDone -> todo s = [];
  l_await : forall r, loop s = LAwait r ->
      (forall p pr, nth_error (results s) p = Some pr -> In r (p_races pr) ->
                    ~ In p (executing s) -> S (List.length (executing s)) <= concurrency) /\
      ((exists p pr, nth_error (results s) p = Some pr /\ p_state pr = None /\
                     In r (p_races pr)) \/
       exists p, In (JRace r p) (queue s));
  l_wake : forall p, loop s = LWake p ->
      settled (results s) p = true /\
      (~ In p (executing s) -> S (List.length (executing s)) <= concurrency) /\
      exists q1 q2, queue s = q1 ++ JResume :: q2 /\
                    ~ In JResume q1 /\ ~ In JResume q2 /\
                    (In p (executing s) -> In (JCleanup p) q1);
  l_no_resume : (forall p, loop s <> LWake p) -> ~ In JResume (queue s);
  l_threw : forall e, loop s = LThrew e ->
      exists p pr, nth_error (results s) p = Some pr /\ p_state pr = Some (Rejected e)
}.

Definition inv (s : state) : Prop := core s /\ loop_inv s.

(** Pending invocations are members of the set, so there are no more of
    them than the set has elements. *)
Lemma results_le_settles_executing (s : state) :
  core s ->
  List.length (results s) <= List.length (settles (trace s)) + List.length (executing s).
Proof.
  intros C.
  rewrite <- length_app.
  rewrite <- (length_seq (List.length (results s)) 0) at 1.
  apply NoDup_incl_length; [apply seq_NoDup|].
  intros p Hp. apply in_seq in Hp. apply in_or_app.
  destruct (settled (results s) p) eqn:E.
  - left. now apply (c_settles s C).
  - right. apply (c_pending s C); [lia|assumption].
Qed.

Lemma settles_lt (s : state) (p : nat) :
  core s -> In p (settles (trace s)) -> p < List.length (results s).
Proof.
  intros C H. apply settled_lt. now apply (c_settles s C).
Qed.

(** *** One turn of the loop *)

Lemma nth_error_input_next (ps : list promise) (item : Item) (rest : list Item) :
  input = map p_item ps ++ item :: rest ->
  nth_error input (List.length ps) = Some item.
Proof.
  intros ->. rewrite nth_error_app2; rewrite length_map; [|lia].
  now rewrite Nat.sub_diag.
Qed.

Lemma core_start (item : Item) (rest : list Item) (s : state) :
  core s ->
  S (List.length (executing s)) <= concurrency ->
  input = map p_item (results s) ++ item :: rest ->
  core (start item s).
Proof.
  intros C Hsz Hin.
  pose proof (results_le_settles_executing s C) as Hcount.
  assert (Hlen : List.length (starts (trace s)) = List.length (results s)).
  { rewrite (c_starts s C). apply length_seq. }
  unfold start.
  destruct (immediate (List.length (results s)) item) eqn:Him.
  - destruct (finish (List.length (results s)) item (shared s)) as [u o] eqn:Hfin.
    constructor; simpl.
    + exists rest. rewrite map_app. simpl. now rewrite <- app_assoc.
    + intros p Hp. rewrite length_app. simpl.
      apply in_app_or in Hp as [Hp|[<-|[]]]; [|lia].
      pose proof (c_exec_lt s C p Hp). lia.
    + intros p Hp Hs. rewrite length_app in Hp. simpl in Hp.
      apply in_or_app.
      destruct (Nat.eq_dec p (List.length (results s))) as [->|Hne].
      * right. now left.
      * left. apply (c_pending s C); [lia|].
        rewrite settled_app_old in Hs by lia. exact Hs.
    + rewrite length_app. simpl. lia.
    + intros p Hp Hs. apply in_app_or in Hp as [Hp|[<-|[]]].
      * pose proof (c_exec_lt s C p Hp) as Hlt.
        rewrite settled_app_old in Hs by lia.
        destruct (c_token s C p Hp Hs) as [H|H]; [left|right]; apply in_or_app; now left.
      * destruct o; [left|right]; apply in_or_app; right; now left.
    + intros q1 r p q2 Hq Hp.
      apply split_app in Hq as [[q2' [Hq ->]]|[q1' [-> Hq]]].
      * assert (Hr : In (JRace r p) (queue s)).
        { rewrite Hq. apply in_or_app. right. now left. }
        destruct (c_sub s C r p Hr) as [Hs _].
        assert (Hp' : In p (executing s)).
        { apply in_app_or in Hp as [Hp|[<-|[]]]; [assumption|].
          apply settled_lt in Hs. lia. }
        destruct (c_order s C q1 r p q2' Hq Hp') as [H|H]; [now left|].
        right. apply in_or_app. now left.
      * destruct q1' as [|j q1']; simpl in Hq.
        -- destruct o; discriminate.
        -- injection Hq as _ Hq. destruct q1'; discriminate.
    + intros r p Hr. apply in_app_or in Hr as [Hr|[Hr|[]]].
      * destruct (c_sub s C r p Hr) as [Hs [pr [Hn Hi]]].
        pose proof (settled_lt _ _ Hs) as Hlt.
        split; [now rewrite settled_app_old|].
        exists pr. split; [now rewrite nth_error_app1|assumption].
      * destruct o; discriminate.
    + intros p pr r Hn Hi.
      destruct (Nat.lt_ge_cases p (List.length (results s))) as [Hlt|Hge].
      * rewrite nth_error_app1 in Hn by assumption. now apply (c_fresh s C p pr r).
      * rewrite nth_error_app2 in Hn by assumption.
        destruct (p - List.length (results s)) as [|k]; simpl in Hn.
        -- injection Hn as <-. destruct Hi.
        -- destruct k; discriminate.
    + rewrite starts_app, length_app. simpl. rewrite (c_starts s C).
      now rewrite Nat.add_1_r, seq_S.
    + rewrite settles_app. simpl. apply NoDup_app; [apply (c_nodup s C)|constructor; [intros []|constructor]|].
      intros p Hp [Heq|[]]. pose proof (settles_lt s p C Hp). lia.
    + intros p. rewrite settles_app. simpl. rewrite in_app_iff. split.
      * intros [Hp|[<-|[]]].
        -- pose proof (settles_lt s p C Hp) as Hlt.
           rewrite settled_app_old by assumption. now apply (c_settles s C).
        -- unfold settled. rewrite nth_error_app2 by lia. now rewrite Nat.sub_diag.
      * intros Hs.
        destruct (Nat.eq_dec p (List.length (results s))) as [->|Hne]; [right; now left|].
        left. pose proof (settled_lt _ _ Hs) as Hlt. rewrite length_app in Hlt. simpl in Hlt.
        rewrite settled_app_old in Hs by lia. now apply (c_settles s C).
    + intros pre post Hpre.
      change (trace s ++ [EStart (List.length (results s)); ESettle (List.length (results s))])
        with (trace s ++ [EStart (List.length (results s))] ++ [ESettle (List.length (results s))])
        in Hpre.
      rewrite app_assoc in Hpre.
      apply prefix_snoc in Hpre as [[post' Hpre]| ->].
      * apply prefix_snoc in Hpre as [[post'' Hpre]| ->].
        -- now apply (c_prefix s C pre post'').
        -- rewrite starts_app, settles_app, !length_app. simpl. lia.
      * rewrite !starts_app, !settles_app, !length_app. simpl. lia.
    + rewrite settles_app, fold_left_app. simpl. rewrite <- (c_shared s C).
      unfold item_step. rewrite (nth_error_input_next _ _ _ Hin), Hfin. reflexivity.
    + intros p Hp.
      assert (Hcase : (In (JCleanup p) (queue s) \/ In (JPass p) (queue s)) \/
                      p = List.length (results s)).
      { destruct Hp as [Hp|Hp]; apply in_app_or in Hp as [Hp|[Hp|[]]]; auto;
          destruct o; try discriminate; injection Hp as <-; now right. }
      destruct Hcase as [Hold| ->].
      * pose proof (c_tok s C p Hold) as Hs. pose proof (settled_lt _ _ Hs).
        now rewrite settled_app_old.
      * unfold settled. rewrite nth_error_app2 by lia. now rewrite Nat.sub_diag.
    + intros p pr o' Hn Hst.
      destruct (Nat.lt_ge_cases p (List.length (results s))) as [Hlt|Hge].
      * rewrite nth_error_app1 in Hn by assumption. now apply (c_outcome s C p pr o').
      * rewrite nth_error_app2 in Hn by assumption.
        destruct (p - List.length (results s)) as [|k] eqn:Hk; simpl in Hn.
        -- injection Hn as <-. simpl in *. injection Hst as <-.
           assert (p = List.length (results s)) as -> by lia.
           exists (shared s). now rewrite Hfin.
        -- destruct k; discriminate.
  - constructor; simpl.
    + exists rest. rewrite map_app. simpl. now rewrite <- app_assoc.
    + intros p Hp. rewrite length_app. simpl.
      apply in_app_or in Hp as [Hp|[<-|[]]]; [|lia].
      pose proof (c_exec_lt s C p Hp). lia.
    + intros p Hp Hs. rewrite length_app in Hp. simpl in Hp.
      apply in_or_app.
      destruct (Nat.eq_dec p (List.length (results s))) as [->|Hne].
      * right. now left.
      * left. apply (c_pending s C); [lia|].
        rewrite settled_app_old in Hs by lia. exact Hs.
    + rewrite length_app. simpl. lia.
    + intros p Hp Hs. apply in_app_or in Hp as [Hp|[<-|[]]].
      * pose proof (c_exec_lt s C p Hp) as Hlt.
        rewrite settled_app_old in Hs by lia.
        exact (c_token s C p Hp Hs).
      * unfold settled in Hs. rewrite nth_error_app2 in Hs by lia.
        rewrite Nat.sub_diag in Hs. discriminate.
    + intros q1 r p q2 Hq Hp.
      assert (Hr : In (JRace r p) (queue s)).
      { rewrite Hq. apply in_or_app. right. now left. }
      destruct (c_sub s C r p Hr) as [Hs _].
      apply (c_order s C q1 r p q2 Hq).
      apply in_app_or in Hp as [Hp|[<-|[]]]; [assumption|].
      apply settled_lt in Hs. lia.
    + intros r p Hr.
      destruct (c_sub s C r p Hr) as [Hs [pr [Hn Hi]]].
      pose proof (settled_lt _ _ Hs) as Hlt.
      split; [now rewrite settled_app_old|].
      exists pr. split; [now rewrite nth_error_app1|assumption].
    + intros p pr r Hn Hi.
      destruct (Nat.lt_ge_cases p (List.length (results s))) as [Hlt|Hge].
      * rewrite nth_error_app1 in Hn by assumption. now apply (c_fresh s C p pr r).
      * rewrite nth_error_app2 in Hn by assumption.
        destruct (p - List.length (results s)) as [|k]; simpl in Hn.
        -- injection Hn as <-. destruct Hi.
        -- destruct k; discriminate.
    + rewrite starts_app, length_app. simpl. rewrite (c_starts s C).
      now rewrite Nat.add_1_r, seq_S.
    + rewrite settles_app. simpl. rewrite app_nil_r. apply (c_nodup s C).
    + intros p. rewrite settles_app. simpl. rewrite app_nil_r. split.
      * intros Hp. pose proof (settles_lt s p C Hp) as Hlt.
        rewrite settled_app_old by assumption. now apply (c_settles s C).
      * intros Hs.
        destruct (Nat.lt_ge_cases p (List.length (results s))) as [Hlt|Hge].
        -- rewrite settled_app_old in Hs by lia. now apply (c_settles s C).
        -- unfold settled in Hs. rewrite nth_error_app2 in Hs by assumption.
           destruct (p - List.length (results s)) as [|k]; simpl in Hs; [discriminate|].
           destruct k; discriminate.
    + intros pre post Hpre.
      apply prefix_snoc in Hpre as [[post' Hpre]| ->].
      * now apply (c_prefix s C pre post').
      * rewrite starts_app, settles_app, !length_app. simpl. lia.
    + rewrite settles_app. simpl. rewrite app_nil_r. apply (c_shared s C).
    + intros p Hp. pose proof (c_tok s C p Hp) as Hs. pose proof (settled_lt _ _ Hs).
      now rewrite settled_app_old.
    + intros p pr o' Hn Hst.
      destruct (Nat.lt_ge_cases p (List.length (results s))) as [Hlt|Hge].
      * rewrite nth_error_app1 in Hn by assumption. now apply (c_outcome s C p pr o').
      * rewrite nth_error_app2 in Hn by assumption.
        destruct (p - List.length (results s)) as [|k]; simpl in Hn.
        -- injection Hn as <-. discriminate.
        -- destruct k; discriminate.
Qed.

Lemma start_executing (item : Item) (s : state) :
  executing (start item s) = executing s ++ [List.length (results s)].
Proof.
  unfold start. destruct (immediate _ item); [|reflexivity].
  now destruct (finish _ item (shared s)).
Qed.

Lemma start_items (item : Item) (rest : list Item) (s : state) :
  input = map p_item (results s) ++ item :: rest ->
  input = map p_item (results (start item s)) ++ rest.
Proof.
  intros ->. unfold start. destruct (immediate _ item).
  - destruct (finish _ item (shared s)). simpl.
    rewrite map_app. simpl. now rewrite <- app_assoc.
  - simpl. rewrite map_app. simpl. now rewrite <- app_assoc.
Qed.

Lemma start_no_resume (item : Item) (s : state) :
  ~ In JResume (queue s) -> ~ In JResume (queue (start item s)).
Proof.
  unfold start. destruct (immediate _ item); [|auto].
  destruct (finish _ item (shared s)) as [u o]. simpl.
  intros H Hin. apply in_app_or in Hin as [Hin|[Hin|[]]]; [auto|].
  destruct o; discriminate.
Qed.

Lemma map_item_subscribe_all r ex ps :
  forall i, map p_item (subscribe_all r ex i ps) = map p_item ps.
Proof.
  induction ps as [|pr ps IH]; intros i; simpl; [reflexivity|].
  rewrite IH. now destruct (existsb _ ex).
Qed.

(** *** Suspending on a race *)

Lemma inv_await_race (rest : list Item) (s : state) :
  core s ->
  executing s <> [] ->
  input = map p_item (results s) ++ rest ->
  ~ In JResume (queue s) ->
  inv (await_race rest s).
Proof.
  intros C Hne Hin Hnr. split.
  - constructor; simpl.
    + rewrite map_item_subscribe_all. apply (c_items s C).
    + intros p Hp. rewrite length_subscribe_all. now apply (c_exec_lt s C).
    + intros p Hp Hs. rewrite length_subscribe_all in Hp.
      rewrite settled_subscribe_all in Hs. now apply (c_pending s C).
    + apply (c_size s C).
    + intros p Hp Hs. rewrite settled_subscribe_all in Hs.
      destruct (c_token s C p Hp Hs) as [H|H]; [left|right]; apply in_or_app; now left.
    + intros q1 r p q2 Hq Hp.
      apply split_app in Hq as [[q2' [Hq ->]]|[q1' [-> Hq]]].
      * destruct (c_order s C q1 r p q2' Hq Hp) as [H|H]; [now left|].
        right. apply in_or_app. now left.
      * assert (Hmem : In (JRace r p) (map (JRace (races s))
                                           (filter (settled (results s)) (executing s)))).
        { rewrite Hq. apply in_or_app. right. now left. }
        apply in_map_iff in Hmem as [p' [Heq Hp']]. injection Heq as _ ->.
        apply filter_In in Hp' as [_ Hs].
        destruct (c_token s C p Hp Hs) as [H|H].
        -- right. apply in_or_app. now left.
        -- left. apply in_or_app. now left.
    + intros r p Hr. rewrite settled_subscribe_all.
      apply in_app_or in Hr as [Hr|Hr].
      * destruct (c_sub s C r p Hr) as [Hs [pr [Hn Hi]]].
        split; [assumption|].
        rewrite nth_error_subscribe_all, Hn. simpl.
        destruct (existsb _ (executing s)); eexists; split; try reflexivity; simpl; auto.
        apply in_or_app. now left.
      * apply in_map_iff in Hr as [p' [Heq Hp']]. injection Heq as <- ->.
        apply filter_In in Hp' as [Hp Hs]. split; [assumption|].
        pose proof (settled_lt _ _ Hs) as Hlt.
        destruct (nth_error (results s) p) as [pr|] eqn:Hn;
          [|apply nth_error_None in Hn; lia].
        rewrite nth_error_subscribe_all, Hn. simpl.
        apply existsb_eqb_In in Hp. rewrite Hp.
        eexists. split; [reflexivity|]. simpl. apply in_or_app. right. now left.
    + intros p pr r Hn Hi.
      rewrite nth_error_subscribe_all in Hn.
      destruct (nth_error (results s) p) as [pr0|] eqn:Hn0; [|discriminate].
      simpl in Hn. injection Hn as <-.
      destruct (existsb _ (executing s)).
      * simpl in Hi. apply in_app_or in Hi as [Hi|[<-|[]]]; [|lia].
        pose proof (c_fresh s C p pr0 r Hn0 Hi). lia.
      * pose proof (c_fresh s C p pr0 r Hn0 Hi). lia.
    + rewrite length_subscribe_all. apply (c_starts s C).
    + apply (c_nodup s C).
    + intros p. rewrite settled_subscribe_all. apply (c_settles s C).
    + apply (c_prefix s C).
    + apply (c_shared s C).
    + intros p Hp. rewrite settled_subscribe_all. apply (c_tok s C).
      destruct Hp as [Hp|Hp]; apply in_app_or in Hp as [Hp|Hp]; auto;
        apply in_map_iff in Hp as [p' [Heq _]]; discriminate.
    + intros p pr o Hn Hst. rewrite nth_error_subscribe_all in Hn.
      destruct (nth_error (results s) p) as [pr0|] eqn:Hn0; [|discriminate].
      simpl in Hn. injection Hn as <-.
      destruct (existsb _ (executing s)); simpl in *; now apply (c_outcome s C p pr0 o).
  - constructor; simpl.
    + now rewrite map_item_subscribe_all.
    + discriminate.
    + intros r [= <-]. split.
      * intros p pr Hn Hi Hnot.
        rewrite nth_error_subscribe_all in Hn.
        destruct (nth_error (results s) p) as [pr0|] eqn:Hn0; [|discriminate].
        simpl in Hn. injection Hn as <-.
        destruct (existsb (Nat.eqb p) (executing s)) eqn:Hex.
        -- apply existsb_eqb_In in Hex. contradiction.
        -- pose proof (c_fresh s C p pr0 _ Hn0 Hi). lia.
      * assert (Hmem : exists p, In p (executing s)).
        { destruct (executing s) as [|p ex]; [contradiction|]. exists p. now left. }
        destruct Hmem as [p Hp].
        pose proof (c_exec_lt s C p Hp) as Hlt.
        destruct (nth_error (results s) p) as [pr|] eqn:Hn;
          [|apply nth_error_None in Hn; lia].
        destruct (p_state pr) as [o|] eqn:Hst.
        -- right. exists p. apply in_or_app. right.
           apply in_map. apply filter_In. split; [assumption|].
           unfold settled. now rewrite Hn, Hst.
        -- left. exists p, (subscribe (races s) pr). split; [|split].
           ++ rewrite nth_error_subscribe_all, Hn. simpl.
              apply existsb_eqb_In in Hp. now rewrite Hp.
           ++ exact Hst.
           ++ simpl. apply in_or_app. right. now left.
    + discriminate.
    + intros _ Hr. apply in_app_or in Hr as [Hr|Hr]; [auto|].
      apply in_map_iff in Hr as [p' [Heq _]]. discriminate.
    + discriminate.
Qed.

Lemma core_finish_loop (s : state) : core s -> core (finish_loop s).
Proof. intros C. destruct C. constructor; assumption. Qed.

(** *** The loop up to its next suspension *)

Lemma inv_run_loop (items : list Item) :
  forall s,
    core s ->
    S (List.length (executing s)) <= concurrency ->
    input = map p_item (results s) ++ items ->
    ~ In JResume (queue s) ->
    inv (run_loop items s).
Proof.
  induction items as [|item rest IH]; intros s C Hsz Hin Hnr; simpl.
  - split; [now apply core_finish_loop|].
    constructor; simpl; try discriminate; auto.
  - pose proof (core_start item rest s C Hsz Hin) as C1.
    pose proof (start_items item rest s Hin) as Hin1.
    pose proof (start_no_resume item s Hnr) as Hnr1.
    destruct (concurrency <=? List.length (executing (start item s))) eqn:Hfull.
    + apply inv_await_race; auto.
      rewrite start_executing. intros H. now apply app_eq_nil in H as [_ H].
    + apply Nat.leb_gt in Hfull. apply IH; auto.
Qed.

(** *** An invocation completes *)

Lemma map_item_set_nth (ps : list promise) (p : nat) (pr pr' : promise) :
  nth_error ps p = Some pr -> p_item pr' = p_item pr ->
  map p_item (set_nth p pr' ps) = map p_item ps.
Proof.
  revert p. induction ps as [|x ps IH]; intros [|p] Hn He; simpl in *; try discriminate.
  - injection Hn as ->. now rewrite He.
  - now rewrite IH.
Qed.

Lemma nth_error_input (s : state) (p : nat) (pr : promise) :
  core s -> nth_error (results s) p = Some pr -> nth_error input p = Some (p_item pr).
Proof.
  intros C Hn. destruct (c_items s C) as [rest ->].
  rewrite nth_error_app1.
  - now rewrite nth_error_map, Hn.
  - rewrite length_map. apply nth_error_Some. congruence.
Qed.

Lemma no_resume_reactions (o : outcome) (p : nat) (rs : list nat) :
  ~ In JResume (reaction o p :: map (fun r => JRace r p) rs).
Proof.
  intros [H|H]; [destruct o; discriminate|].
  apply in_map_iff in H as [r [H _]]. discriminate.
Qed.

Lemma inv_settle (p : nat) (s s' : state) :
  inv s -> settle p s = Some s' -> inv s'.
Proof.
  intros [C L] Hstep. unfold settle in Hstep.
  destruct (nth_error (results s) p) as [pr|] eqn:Hn; [|discriminate].
  destruct (p_state pr) as [o0|] eqn:Hst; [discriminate|].
  destruct (finish p (p_item pr) (shared s)) as [u o] eqn:Hfin.
  injection Hstep as <-.
  assert (Hlt : p < List.length (results s)) by (apply nth_error_Some; congruence).
  assert (Hunset : settled (results s) p = false) by (unfold settled; now rewrite Hn, Hst).
  set (pr' := {| p_item := p_item pr; p_state := Some o; p_races := p_races pr |}).
  assert (Hmono : forall q, settled (results s) q = true ->
                            settled (set_nth p pr' (results s)) q = true).
  { intros q Hq. destruct (Nat.eq_dec p q) as [<-|Hne]; [congruence|].
    now rewrite settled_set_nth_neq. }
  assert (Hnew : settled (set_nth p pr' (results s)) p = true).
  { now rewrite settled_set_nth_eq. }
  assert (Hnth : forall q prq, nth_error (set_nth p pr' (results s)) q = Some prq ->
                   exists prq0, nth_error (results s) q = Some prq0 /\
                                p_races prq = p_races prq0 /\
                                (q <> p -> prq = prq0)).
  { intros q prq Hq. destruct (Nat.eq_dec p q) as [<-|Hne].
    - rewrite nth_error_set_nth_eq in Hq by assumption. injection Hq as <-.
      exists pr. repeat split; auto. congruence.
    - rewrite nth_error_set_nth_neq in Hq by assumption. exists prq. auto. }
  split.
  - constructor; simpl.
    + rewrite (map_item_set_nth _ p pr pr' Hn eq_refl). apply (c_items s C).
    + intros q Hq. rewrite length_set_nth. now apply (c_exec_lt s C).
    + intros q Hq Hs. rewrite length_set_nth in Hq.
      destruct (Nat.eq_dec p q) as [<-|Hne]; [congruence|].
      rewrite settled_set_nth_neq in Hs by assumption. now apply (c_pending s C).
    + apply (c_size s C).
    + intros q Hq Hs. destruct (Nat.eq_dec p q) as [<-|Hne].
      * destruct o; [left|right]; apply in_or_app; right; now left.
      * rewrite settled_set_nth_neq in Hs by assumption.
        destruct (c_token s C q Hq Hs) as [H|H]; [left|right]; apply in_or_app; now left.
    + intros q1 r q q2 Hq Hin.
      apply split_app in Hq as [[q2' [Hq ->]]|[q1' [-> Hq]]].
      * destruct (c_order s C q1 r q q2' Hq Hin) as [H|H]; [now left|].
        right. apply in_or_app. now left.
      * destruct q1' as [|j q1']; simpl in Hq.
        -- destruct o; discriminate.
        -- injection Hq as <- Hq.
           assert (Hmem : In (JRace r q) (map (fun r => JRace r p) (p_races pr))).
           { rewrite Hq. apply in_or_app. right. now left. }
           apply in_map_iff in Hmem as [r' [Heq _]]. injection Heq as _ <-.
           destruct o; simpl.
           ++ right. apply in_or_app. right. now left.
           ++ left. apply in_or_app. right. now left.
    + intros r q Hr. apply in_app_or in Hr as [Hr|[Hr|Hr]].
      * destruct (c_sub s C r q Hr) as [Hs [prq [Hnq Hi]]].
        split; [now apply Hmono|].
        destruct (Nat.eq_dec p q) as [<-|Hne]; [congruence|].
        exists prq. now rewrite nth_error_set_nth_neq.
      * destruct o; discriminate.
      * apply in_map_iff in Hr as [r' [Heq Hi]]. injection Heq as -> <-.
        split; [assumption|]. exists pr'. split; [now apply nth_error_set_nth_eq|exact Hi].
    + intros q prq r Hq Hi.
      destruct (Hnth q prq Hq) as [prq0 [Hq0 [Hr _]]]. rewrite Hr in Hi.
      now apply (c_fresh s C q prq0 r).
    + rewrite starts_app, length_set_nth. simpl. rewrite app_nil_r. apply (c_starts s C).
    + rewrite settles_app. simpl. apply NoDup_app;
        [apply (c_nodup s C)|constructor; [intros []|constructor]|].
      intros q Hq [Heq|[]]. subst q. apply (c_settles s C) in Hq. congruence.
    + intros q. rewrite settles_app, in_app_iff. simpl. split.
      * intros [Hq|[<-|[]]]; [|assumption]. apply Hmono. now apply (c_settles s C).
      * intros Hs. destruct (Nat.eq_dec p q) as [<-|Hne]; [right; now left|].
        left. rewrite settled_set_nth_neq in Hs by assumption. now apply (c_settles s C).
    + intros pre post Hpre.
      apply prefix_snoc in Hpre as [[post' Hpre]| ->].
      * now apply (c_prefix s C pre post').
      * pose proof (c_prefix s C (trace s) [] (eq_sym (app_nil_r _))) as Hall.
        rewrite starts_app, settles_app, !length_app. simpl. lia.
    + rewrite settles_app, fold_left_app. simpl. rewrite <- (c_shared s C).
      unfold item_step. rewrite (nth_error_input s p pr C Hn), Hfin. reflexivity.
    + intros q Hq.
      assert (Hcase : (In (JCleanup q) (queue s) \/ In (JPass q) (queue s)) \/ q = p).
      { destruct Hq as [Hq|Hq]; apply in_app_or in Hq as [Hq|[Hq|Hq]]; auto;
          try (apply in_map_iff in Hq as [r' [Heq _]]; discriminate);
          destruct o; try discriminate; injection Hq as <-; now right. }
      destruct Hcase as [Hold| ->]; [|assumption].
      apply Hmono. now apply (c_tok s C).
    + intros q prq o' Hq Hso.
      destruct (Nat.eq_dec p q) as [<-|Hne].
      * rewrite nth_error_set_nth_eq in Hq by assumption. injection Hq as <-.
        simpl in *. injection Hso as <-. exists (shared s). now rewrite Hfin.
      * rewrite nth_error_set_nth_neq in Hq by assumption.
        now apply (c_outcome s C q prq o').
  - constructor; simpl.
    + rewrite (map_item_set_nth _ p pr pr' Hn eq_refl). apply (l_items s L).
    + apply (l_done s L).
    + intros r Hr. destruct (l_await s L r Hr) as [Hslack Hlive]. split.
      * intros q prq Hq Hi Hnot.
        destruct (Hnth q prq Hq) as [prq0 [Hq0 [Hrc _]]]. rewrite Hrc in Hi.
        now apply (Hslack q prq0).
      * destruct Hlive as [[q [prq [Hq [Hpend Hi]]]]|[q Hq]].
        -- destruct (Nat.eq_dec p q) as [<-|Hne].
           ++ right. exists p. apply in_or_app. right. right.
              apply in_map_iff. exists r. split; [reflexivity|]. congruence.
           ++ left. exists q, prq. now rewrite nth_error_set_nth_neq.
        -- right. exists q. apply in_or_app. now left.
    + intros q Hq. destruct (l_wake s L q Hq) as [Hs [Hslack [q1 [q2 [Hsplit [H1 [H2 Hc]]]]]]].
      split; [now apply Hmono|]. split; [assumption|].
      exists q1, (q2 ++ reaction o p :: map (fun r => JRace r p) (p_races pr)).
      split; [rewrite Hsplit, <- app_assoc; reflexivity|].
      split; [assumption|]. split; [|assumption].
      intros H. apply in_app_or in H as [H|H]; [auto|].
      now apply no_resume_reactions in H.
    + intros Hl H. apply in_app_or in H as [H|H].
      * now apply (l_no_resume s L Hl).
      * now apply no_resume_reactions in H.
    + intros e He. destruct (l_threw s L e He) as [q [prq [Hq Hrej]]].
      exists q, prq. split; [|assumption].
      rewrite nth_error_set_nth_neq; [assumption|]. intros <-. congruence.
Qed.

(** *** Running a job *)

Definition neutral (j : job) : Prop :=
  match j with
  | JRace _ _ | JResume => True
  | _ => False
  end.

(** Taking a job that is no cleanup off the queue. *)
Lemma core_pop (j : job) (q : list job) (s : state) :
  core s -> queue s = j :: q -> neutral j -> core (with_queue q s).
Proof.
  intros C Hq Hj. constructor; simpl; try apply C.
  - intros p Hp Hs. destruct (c_token s C p Hp Hs) as [H|H]; rewrite Hq in H;
      destruct H as [->|H]; auto; contradiction.
  - intros q1 r p q2 Hsplit Hp.
    destruct (c_order s C (j :: q1) r p q2) as [H|H]; auto.
    + rewrite Hq, Hsplit. reflexivity.
    + destruct H as [->|H]; [contradiction|now left].
    + rewrite Hq in H. destruct H as [->|H]; [contradiction|now right].
  - intros r p Hr. apply (c_sub s C). rewrite Hq. now right.
  - intros p Hp. apply (c_tok s C). rewrite Hq. destruct Hp; [left|right]; now right.
Qed.

Lemma inv_cleanup (p0 : nat) (q : list job) (s : state) :
  inv s -> queue s = JCleanup p0 :: q ->
  inv (with_executing (remove Nat.eq_dec p0 (executing s)) (with_queue q s)).
Proof.
  intros [C L] Hq.
  assert (Hsize : forall x, ~ In x (remove Nat.eq_dec p0 (executing s)) ->
                  (~ In x (executing s) -> S (List.length (executing s)) <= concurrency) ->
                  S (List.length (remove Nat.eq_dec p0 (executing s))) <= concurrency).
  { intros x Hx Hold. destruct (in_dec Nat.eq_dec p0 (executing s)) as [Hin|Hnin].
    - pose proof (remove_length_lt Nat.eq_dec (executing s) p0 Hin).
      pose proof (c_size s C). lia.
    - rewrite notin_remove in * by assumption. auto. }
  split.
  - constructor; simpl; try apply C.
    + intros p Hp. apply in_remove in Hp as [Hp _]. now apply (c_exec_lt s C).
    + intros p Hp Hs. apply in_in_remove; [|now apply (c_pending s C)].
      intros ->. rewrite (c_tok s C p0) in Hs; [discriminate|].
      left. rewrite Hq. now left.
    + pose proof (remove_length_le Nat.eq_dec (executing s) p0).
      pose proof (c_size s C). lia.
    + intros p Hp Hs. apply in_remove in Hp as [Hp Hne].
      destruct (c_token s C p Hp Hs) as [H|H]; rewrite Hq in H;
        destruct H as [H|H]; auto; [congruence|discriminate].
    + intros q1 r p q2 Hsplit Hp. apply in_remove in Hp as [Hp Hne].
      destruct (c_order s C (JCleanup p0 :: q1) r p q2) as [H|H]; auto.
      * rewrite Hq, Hsplit. reflexivity.
      * destruct H as [H|H]; [discriminate|now left].
      * rewrite Hq in H. destruct H as [H|H]; [congruence|now right].
    + intros r p Hr. apply (c_sub s C). rewrite Hq. now right.
    + intros p Hp. apply (c_tok s C). rewrite Hq. destruct Hp; [left|right]; now right.
  - constructor; simpl.
    + apply (l_items s L).
    + apply (l_done s L).
    + intros r Hr. destruct (l_await s L r Hr) as [Hslack Hlive]. split.
      * intros p pr Hn Hi Hnot. apply (Hsize p Hnot). now apply (Hslack p pr).
      * destruct Hlive as [H|[p H]]; [now left|right].
        exists p. rewrite Hq in H. destruct H as [H|H]; [discriminate|assumption].
    + intros p Hp. destruct (l_wake s L p Hp) as [Hs [Hslack [q1 [q2 [Hsplit [H1 [H2 Hc]]]]]]].
      split; [assumption|]. split; [intros Hnot; now apply (Hsize p Hnot)|].
      rewrite Hq in Hsplit. apply split_cons in Hsplit as [[_ [H _]]|[q1' [-> Hsplit]]];
        [discriminate|].
      exists q1', q2. split; [assumption|]. split; [intros H; apply H1; now right|].
      split; [assumption|].
      intros Hin. apply in_remove in Hin as [Hin Hne].
      destruct (Hc Hin) as [H|H]; [congruence|assumption].
    + intros Hl H. apply (l_no_resume s L Hl). rewrite Hq. now right.
    + apply (l_threw s L).
Qed.

Lemma inv_pass (p0 : nat) (q : list job) (s : state) :
  inv s -> queue s = JPass p0 :: q ->
  inv (with_queue (q ++ [JCleanup p0]) s).
Proof.
  intros [C L] Hq. split.
  - constructor; simpl; try apply C.
    + intros p Hp Hs. destruct (c_token s C p Hp Hs) as [H|H]; rewrite Hq in H;
        destruct H as [H|H]; try discriminate.
      * left. apply in_or_app. now left.
      * injection H as <-. left. apply in_or_app. right. now left.
      * right. apply in_or_app. now left.
    + intros q1 r p q2 Hsplit Hp.
      apply split_app in Hsplit as [[q2' [Hsplit ->]]|[q1' [-> Hsplit]]].
      * destruct (c_order s C (JPass p0 :: q1) r p q2') as [H|H]; auto.
        -- rewrite Hq, Hsplit. reflexivity.
        -- destruct H as [H|H]; [|now left]. injection H as <-.
           right. apply in_or_app. right. now left.
        -- rewrite Hq in H. destruct H as [H|H]; [discriminate|].
           right. apply in_or_app. now left.
      * destruct q1' as [|j q1']; simpl in Hsplit; [discriminate|].
        injection Hsplit as _ Hsplit. destruct q1'; discriminate.
    + intros r p Hr. apply (c_sub s C). rewrite Hq.
      apply in_app_or in Hr as [Hr|[Hr|[]]]; [now right|discriminate].
    + intros p Hp. apply (c_tok s C). rewrite Hq.
      destruct Hp as [Hp|Hp]; apply in_app_or in Hp as [Hp|[Hp|[]]].
      * left. now right.
      * injection Hp as <-. right. now left.
      * right. now right.
      * discriminate.
  - constructor; simpl.
    + apply (l_items s L).
    + apply (l_done s L).
    + intros r Hr. destruct (l_await s L r Hr) as [Hslack Hlive]. split; [assumption|].
      destruct Hlive as [H|[p H]]; [now left|right].
      exists p. rewrite Hq in H. destruct H as [H|H]; [discriminate|].
      apply in_or_app. now left.
    + intros p Hp. destruct (l_wake s L p Hp) as [Hs [Hslack [q1 [q2 [Hsplit [H1 [H2 Hc]]]]]]].
      split; [assumption|]. split; [assumption|].
      rewrite Hq in Hsplit. apply split_cons in Hsplit as [[_ [H _]]|[q1' [-> Hsplit]]];
        [discriminate|].
      exists q1', (q2 ++ [JCleanup p0]).
      split; [rewrite Hsplit, <- app_assoc; reflexivity|].
      split; [intros H; apply H1; now right|].
      split; [intros H; apply in_app_or in H as [H|[H|[]]]; [auto|discriminate]|].
      intros Hin. destruct (Hc Hin) as [H|H]; [discriminate|assumption].
    + intros Hl H. apply (l_no_resume s L Hl). rewrite Hq.
      apply in_app_or in H as [H|[H|[]]]; [now right|discriminate].
    + apply (l_threw s L).
Qed.

(** A race reaction that finds the loop elsewhere does nothing. *)
Lemma inv_race_stale (r p0 : nat) (q : list job) (s : state) :
  inv s -> queue s = JRace r p0 :: q -> loop s <> LAwait r ->
  inv (with_queue q s).
Proof.
  intros [C L] Hq Hl. split; [now apply (core_pop (JRace r p0) q s)|].
  constructor; simpl.
  - apply (l_items s L).
  - apply (l_done s L).
  - intros r' Hr. destruct (l_await s L r' Hr) as [Hslack Hlive]. split; [assumption|].
    destruct Hlive as [H|[p H]]; [now left|right].
    exists p. rewrite Hq in H. destruct H as [H|H]; [|assumption].
    injection H as -> ->. contradiction.
  - intros p Hp. destruct (l_wake s L p Hp) as [Hs [Hslack [q1 [q2 [Hsplit [H1 [H2 Hc]]]]]]].
    split; [assumption|]. split; [assumption|].
    rewrite Hq in Hsplit. apply split_cons in Hsplit as [[_ [H _]]|[q1' [-> Hsplit]]];
      [discriminate|].
    exists q1', q2. split; [assumption|]. split; [intros H; apply H1; now right|].
    split; [assumption|].
    intros Hin. destruct (Hc Hin) as [H|H]; [discriminate|assumption].
  - intros Hl' H. apply (l_no_resume s L Hl'). rewrite Hq. now right.
  - apply (l_threw s L).
Qed.

(** The race the loop waits for hears of a settlement. *)
Lemma inv_race_wake (r p0 : nat) (q : list job) (s : state) :
  inv s -> queue s = JRace r p0 :: q -> loop s = LAwait r ->
  inv (with_queue (q ++ [JResume]) (with_loop (LWake p0) (with_queue q s))).
Proof.
  intros [C L] Hq Hl.
  pose proof (core_pop (JRace r p0) q s C Hq I) as C'.
  destruct (c_sub s C r p0) as [Hs [pr [Hn Hi]]]; [rewrite Hq; now left|].
  destruct (l_await s L r Hl) as [Hslack _].
  assert (Hnr : ~ In JResume q).
  { intros H. apply (l_no_resume s L); [intros p; congruence|]. rewrite Hq. now right. }
  split.
  - constructor; simpl; try apply C.
    + intros p Hp Hs'. destruct (c_token _ C' p Hp Hs') as [H|H]; [left|right];
        apply in_or_app; now left.
    + intros q1 r' p q2 Hsplit Hp.
      apply split_app in Hsplit as [[q2' [Hsplit ->]]|[q1' [-> Hsplit]]].
      * destruct (c_order _ C' q1 r' p q2' Hsplit Hp) as [H|H]; [now left|].
        right. apply in_or_app. now left.
      * destruct q1' as [|j q1']; simpl in Hsplit; [discriminate|].
        injection Hsplit as _ Hsplit. destruct q1'; discriminate.
    + intros r' p Hr. apply (c_sub _ C').
      apply in_app_or in Hr as [Hr|[Hr|[]]]; [assumption|discriminate].
    + intros p Hp. apply (c_tok _ C').
      destruct Hp as [Hp|Hp]; apply in_app_or in Hp as [Hp|[Hp|[]]]; auto; discriminate.
  - constructor; simpl.
    + apply (l_items s L).
    + discriminate.
    + discriminate.
    + intros p [= <-]. split; [assumption|]. split; [now apply (Hslack p0 pr)|].
      exists q, []. split; [reflexivity|]. split; [assumption|]. split; [intros []|].
      intros Hin. destruct (c_order s C [] r p0 q Hq Hin) as [[]|H].
      rewrite Hq in H. destruct H as [H|H]; [discriminate|assumption].
    + intros H. exfalso. now apply (H p0).
    + discriminate.
Qed.

(** The continuation of the [await] runs: by then the winner of the
    race has left the set. *)
Lemma resume_ready (p0 : nat) (q : list job) (s : state) :
  inv s -> queue s = JResume :: q -> loop s = LWake p0 ->
  settled (results s) p0 = true /\
  S (List.length (executing s)) <= concurrency /\
  ~ In JResume q.
Proof.
  intros [C L] Hq Hl.
  destruct (l_wake s L p0 Hl) as [Hs [Hslack [q1 [q2 [Hsplit [H1 [H2 Hc]]]]]]].
  rewrite Hq in Hsplit.
  apply split_cons in Hsplit as [[-> [_ ->]]|[q1' [-> _]]].
  - split; [assumption|]. split; [|assumption].
    apply Hslack. intros Hin. destruct (Hc Hin).
  - exfalso. apply H1. now left.
Qed.

Lemma inv_exec_job (j : job) (q : list job) (s : state) :
  inv s -> queue s = j :: q -> inv (exec_job j (with_queue q s)).
Proof.
  intros Hinv Hq. destruct j as [p0|p0|r p0|]; simpl.
  - exact (inv_cleanup p0 q s Hinv Hq).
  - exact (inv_pass p0 q s Hinv Hq).
  - destruct (loop s) as [r'| | |] eqn:Hl;
      try (apply (inv_race_stale r p0); [assumption|assumption|congruence]).
    destruct (Nat.eqb_spec r r') as [->|Hne].
    + exact (inv_race_wake r' p0 q s Hinv Hq Hl).
    + apply (inv_race_stale r p0); [assumption|assumption|congruence].
  - destruct (loop s) as [r'|p0| |] eqn:Hl;
      try (exfalso; destruct Hinv as [_ L];
           apply (l_no_resume s L); [intros p; congruence|rewrite Hq; now left]).
    destruct (resume_ready p0 q s Hinv Hq Hl) as [Hs [Hsz Hnr]].
    destruct Hinv as [C L].
    pose proof (core_pop JResume q s C Hq I) as C'.
    unfold outcome_of. simpl. unfold settled in Hs.
    destruct (nth_error (results s) p0) as [pr|] eqn:Hn; [|discriminate].
    destruct (p_state pr) as [[v|e]|] eqn:Hst; [| |discriminate].
    + apply inv_run_loop; auto. apply (l_items s L).
    + split.
      * destruct C'. constructor; assumption.
      * constructor; simpl; try discriminate; auto.
        -- apply (l_items s L).
        -- intros e' [= <-]. now exists p0, pr.
Qed.

Lemma inv_step (a : action) (s s' : state) :
  inv s -> step a s = Some s' -> inv s'.
Proof.
  intros Hinv Hstep. destruct a as [|p]; simpl in Hstep.
  - destruct (queue s) as [|j q] eqn:Hq; [discriminate|].
    injection Hstep as <-. now apply inv_exec_job.
  - now apply (inv_settle p s).
Qed.

Lemma inv_run (sched : list action) :
  forall s s', inv s -> run sched s = Some s' -> inv s'.
Proof.
  induction sched as [|a sched IH]; simpl; intros s s' Hinv Hrun.
  - now injection Hrun as <-.
  - destruct (step a s) as [s1|] eqn:Hs; [|discriminate].
    apply (IH s1); [|assumption]. now apply (inv_step a s).
Qed.

(** *** Reachable states *)

Lemma inv_initial : inv (mapWithConcurrency input u0).
Proof.
  unfold mapWithConcurrency. apply inv_run_loop.
  - constructor; simpl.
    + now exists input.
    + intros p [].
    + intros p Hp. lia.
    + lia.
    + intros p [].
    + intros q1 r p q2 H. destruct q1; discriminate.
    + intros r p [].
    + intros p pr r H. destruct p; discriminate.
    + reflexivity.
    + constructor.
    + intros p. split; [intros []|]. unfold settled. destruct p; discriminate.
    + intros pre post H. symmetry in H. apply app_eq_nil in H as [-> _]. simpl. lia.
    + reflexivity.
    + intros p [[]|[]].
    + intros p pr o H. destruct p; discriminate.
  - simpl. lia.
  - reflexivity.
  - intros [].
Qed.

Lemma inv_reachable (sched : list action) (s : state) :
  run sched (mapWithConcurrency input u0) = Some s -> inv s.
Proof. apply inv_run. apply inv_initial. Qed.

(** When nothing is left to happen the loop has ended, one way or the
    other. *)
Lemma quiescent_loop (s : state) :
  inv s -> quiescent s ->
  loop s = LDone \/ exists e, loop s = LThrew e.
Proof.
  intros [C L] [Hq Hall].
  destruct (loop s) as [r|p| |e] eqn:Hl; eauto; exfalso.
  - destruct (l_await s L r Hl) as [_ [[p [pr [Hn [Hst _]]]]|[p Hp]]].
    + assert (Hlt : p < List.length (results s)) by (apply nth_error_Some; congruence).
      specialize (Hall p Hlt). unfold settled in Hall. now rewrite Hn, Hst in Hall.
    + now rewrite Hq in Hp.
  - destruct (l_wake s L p Hl) as [_ [_ [q1 [q2 [Hsplit _]]]]].
    rewrite Hq in Hsplit. destruct q1; discriminate.
Qed.

(** Unless nothing is left to happen, the event loop can go on. *)
Lemma progress (s : state) :
  quiescent s \/ exists a s', step a s = Some s'.
Proof.
  destruct (queue s) as [|j q] eqn:Hq.
  - assert (Hdec : (forall p, p < List.length (results s) -> settled (results s) p = true) \/
                   exists p pr, nth_error (results s) p = Some pr /\ p_state pr = None).
    { unfold settled. induction (results s) as [|pr ps IH].
      - left. intros p Hp. simpl in Hp. lia.
      - destruct (p_state pr) as [o|] eqn:Hst.
        + destruct IH as [IH|[p [pr' [Hn Hp]]]].
          * left. intros [|p] Hp; simpl; [now rewrite Hst|]. apply IH. simpl in Hp. lia.
          * right. now exists (S p), pr'.
        + right. now exists 0, pr. }
    destruct Hdec as [Hall|[p [pr [Hn Hst]]]].
    + left. now split.
    + right. exists (Settle p). simpl. unfold settle. rewrite Hn, Hst.
      destruct (finish p (p_item pr) (shared s)). eauto.
  - right. exists RunJob. simpl. rewrite Hq. eauto.
Qed.

(** *** Every run is finite *)

Definition job_weight (j : job) : nat :=
  match j with
  | JCleanup _ => 1
  | JPass _ => 2
  | JRace _ _ => 2
  | JResume => 1
  end.

Definition promise_weight (pr : promise) : nat :=
  match p_state pr with
  | None => 3 + 2 * List.length (p_races pr)
  | Some _ => 0
  end.

Definition queue_weight (q : list job) : nat := list_sum (map job_weight q).
Definition promises_weight (ps : list promise) : nat := list_sum (map promise_weight ps).

Definition turn_weight : nat := 2 * List.length input + 2 * concurrency + 3.

Definition rest_weight (s : state) : nat :=
  promises_weight (results s) + queue_weight (queue s).

Definition measure (s : state) : nat :=
  turn_weight * List.length (todo s) + rest_weight s.

Lemma queue_weight_app (q1 q2 : list job) :
  queue_weight (q1 ++ q2) = queue_weight q1 + queue_weight q2.
Proof. unfold queue_weight. now rewrite map_app, list_sum_app. Qed.

Lemma promises_weight_app (p1 p2 : list promise) :
  promises_weight (p1 ++ p2) = promises_weight p1 + promises_weight p2.
Proof. unfold promises_weight. now rewrite map_app, list_sum_app. Qed.

Lemma queue_weight_races (f : nat -> job) (l : list nat) :
  (forall x, job_weight (f x) = 2) -> queue_weight (map f l) = 2 * List.length l.
Proof.
  intros Hf. unfold queue_weight. induction l as [|x l IH]; simpl; [reflexivity|].
  rewrite Hf. simpl in IH. lia.
Qed.

Lemma promises_weight_subscribe_all r ex ps :
  forall i, promises_weight (subscribe_all r ex i ps) <=
            promises_weight ps + 2 * List.length ps.
Proof.
  unfold promises_weight.
  induction ps as [|pr ps IH]; intros i; simpl; [lia|].
  specialize (IH (S i)).
  assert (promise_weight (if existsb (Nat.eqb i) ex then subscribe r pr else pr)
          <= promise_weight pr + 2).
  { destruct (existsb _ ex); [|lia]. unfold promise_weight, subscribe. simpl.
    destruct (p_state pr); [lia|]. rewrite length_app. simpl. lia. }
  lia.
Qed.

Lemma promises_weight_settle (ps : list promise) (p : nat) (pr pr' : promise) :
  nth_error ps p = Some pr -> promise_weight pr' = 0 ->
  promises_weight (set_nth p pr' ps) + promise_weight pr = promises_weight ps.
Proof.
  unfold promises_weight. revert p.
  induction ps as [|x ps IH]; intros [|p] Hn Hw; simpl in *; try discriminate.
  - injection Hn as ->. lia.
  - specialize (IH p Hn Hw). lia.
Qed.

Lemma rest_weight_start (item : Item) (s : state) :
  rest_weight (start item s) <= rest_weight s + 3.
Proof.
  unfold rest_weight, start. destruct (immediate _ item).
  - destruct (finish _ item (shared s)) as [u o]. simpl.
    rewrite promises_weight_app, queue_weight_app.
    unfold promises_weight, queue_weight, promise_weight. simpl.
    destruct o; simpl; lia.
  - simpl. rewrite promises_weight_app.
    unfold promises_weight, promise_weight. simpl. lia.
Qed.

Lemma results_le_input (s : state) : core s -> List.length (results s) <= List.length input.
Proof.
  intros C. destruct (c_items s C) as [rest H].
  apply (f_equal (@List.length Item)) in H.
  rewrite length_app, length_map in H. lia.
Qed.

Lemma measure_run_loop (items : list Item) :
  forall s,
    core s ->
    S (List.length (executing s)) <= concurrency ->
    input = map p_item (results s) ++ items ->
    measure (run_loop items s) <= turn_weight * List.length items + rest_weight s.
Proof.
  induction items as [|item rest IH]; intros s C Hsz Hin; simpl run_loop.
  - unfold measure. simpl. unfold rest_weight. simpl. lia.
  - pose proof (core_start item rest s C Hsz Hin) as C1.
    pose proof (start_items item rest s Hin) as Hin1.
    pose proof (rest_weight_start item s) as Hw.
    destruct (concurrency <=? List.length (executing (start item s))) eqn:Hfull.
    + unfold measure, rest_weight, await_race. simpl.
      pose proof (promises_weight_subscribe_all (races (start item s))
                    (executing (start item s)) (results (start item s)) 0) as Hsub.
      rewrite queue_weight_app, (queue_weight_races (JRace (races (start item s))))
        by reflexivity.
      pose proof (filter_length_le (settled (results (start item s)))
                    (executing (start item s))) as Hfil.
      pose proof (results_le_input _ C1). pose proof (c_size _ C1).
      unfold rest_weight in Hw. unfold turn_weight. nia.
    + apply Nat.leb_gt in Hfull.
      specialize (IH (start item s) C1 Hfull Hin1). simpl. unfold turn_weight in *. nia.
Qed.

Lemma measure_step (a : action) (s s' : state) :
  inv s -> step a s = Some s' -> measure s' < measure s.
Proof.
  intros Hinv Hstep. destruct a as [|p]; simpl in Hstep.
  - destruct (queue s) as [|j q] eqn:Hq; [discriminate|]. injection Hstep as <-.
    assert (Hpop : measure (with_queue q s) + job_weight j = measure s).
    { unfold measure, rest_weight. simpl. rewrite Hq. unfold queue_weight. simpl. lia. }
    destruct j as [p0|p0|r p0|]; simpl in *.
    + unfold measure, rest_weight in *. simpl in *. lia.
    + unfold measure, rest_weight in *. simpl in *. rewrite queue_weight_app.
      unfold queue_weight at 2. simpl. lia.
    + destruct (loop s); try lia. destruct (Nat.eqb r r0); [|lia].
      unfold measure, rest_weight in *. simpl in *. rewrite queue_weight_app.
      unfold queue_weight at 2. simpl. lia.
    + destruct (loop s) as [r'|p0| |] eqn:Hl; try lia.
      destruct (resume_ready p0 q s Hinv Hq Hl) as [Hs [Hsz Hnr]].
      destruct Hinv as [C L].
      pose proof (core_pop JResume q s C Hq I) as C'.
      destruct (outcome_of (with_queue q s) p0) as [[v|e]|]; [| |lia].
      * pose proof (measure_run_loop (todo s) (with_queue q s) C' Hsz (l_items s L)) as H.
        unfold measure in Hpop at 1. simpl in Hpop. lia.
      * unfold measure, rest_weight in *. simpl in *. lia.
  - unfold settle in Hstep.
    destruct (nth_error (results s) p) as [pr|] eqn:Hn; [|discriminate].
    destruct (p_state pr) as [o0|] eqn:Hst; [discriminate|].
    destruct (finish p (p_item pr) (shared s)) as [u o]. injection Hstep as <-.
    unfold measure, rest_weight. simpl.
    pose proof (promises_weight_settle (results s) p pr
                  {| p_item := p_item pr; p_state := Some o; p_races := p_races pr |}
                  Hn eq_refl) as Hw.
    assert (Hpw : promise_weight pr = 3 + 2 * List.length (p_races pr)).
    { unfold promise_weight. now rewrite Hst. }
    rewrite Hpw in Hw.
    rewrite queue_weight_app.
    change (reaction o p :: map (fun r => JRace r p) (p_races pr))
      with ([reaction o p] ++ map (fun r => JRace r p) (p_races pr)).
    rewrite queue_weight_app, (queue_weight_races (fun r => JRace r p)) by reflexivity.
    assert (queue_weight [reaction o p] <= 2) by (destruct o; unfold queue_weight; simpl; lia).
    lia.
Qed.

(** A run cannot be longer than the measure of the state it starts in. *)
Lemma run_bounded (sched : list action) :
  forall s s', inv s -> run sched s = Some s' ->
               List.length sched + measure s' <= measure s.
Proof.
  induction sched as [|a sched IH]; simpl; intros s s' Hinv Hrun.
  - injection Hrun as <-. lia.
  - destruct (step a s) as [s1|] eqn:Hs; [|discriminate].
    pose proof (measure_step a s s1 Hinv Hs).
    pose proof (IH s1 s' (inv_step a s s1 Hinv Hs) Hrun). lia.
Qed.

Lemma run_app (sched1 sched2 : list action) (s : state) :
  run (sched1 ++ sched2) s =
  match run sched1 s with
  | Some s1 => run sched2 s1
  | None => None
  end.
Proof.
  revert s. induction sched1 as [|a sched1 IH]; intros s; simpl; [reflexivity|].
  destruct (step a s); [apply IH|reflexivity].
Qed.

(** And every run can be carried on until nothing is left to happen. *)
Lemma reaches_quiescence (n : nat) :
  forall s, inv s -> measure s <= n ->
            exists sched s', run sched s = Some s' /\ quiescent s'.
Proof.
  induction n as [|n IH]; intros s Hinv Hn.
  - destruct (progress s) as [Hq|[a [s' Hs]]].
    + now exists [], s.
    + pose proof (measure_step a s s' Hinv Hs). lia.
  - destruct (progress s) as [Hq|[a [s' Hs]]].
    + now exists [], s.
    + pose proof (measure_step a s s' Hinv Hs) as Hlt.
      destruct (IH s' (inv_step a s s' Hinv Hs)) as [sched [s'' [Hrun Hq]]]; [lia|].
      exists (a :: sched), s''. simpl. now rewrite Hs.
Qed.

(** *** What the invariant gives *)

Lemma in_flight_bounded (s : state) (pre post : list event) :
  inv s -> trace s = pre ++ post -> in_flight pre <= concurrency.
Proof.
  intros [C _] H. pose proof (c_prefix s C pre post H). unfold in_flight. lia.
Qed.

Lemma started_once_in_order (s : state) :
  inv s ->
  starts (trace s) = seq 0 (List.length (results s)) /\
  exists rest, input = map p_item (results s) ++ rest.
Proof.
  intros [C _]. split; [apply (c_starts s C)|apply (c_items s C)].
Qed.

Definition never_rejects : Prop :=
  forall i item u, exists v, snd (finish i item u) = Fulfilled v.

Lemma no_rejected_promise (s : state) (p : nat) (pr : promise) (e : Err) :
  never_rejects -> inv s ->
  nth_error (results s) p = Some pr -> p_state pr <> Some (Rejected e).
Proof.
  intros Hnr [C _] Hn Hst.
  destruct (c_outcome s C p pr _ Hn Hst) as [u Hu].
  destruct (Hnr p (p_item pr) u) as [v Hv]. congruence.
Qed.

Lemma quiescent_done (s : state) :
  never_rejects -> inv s -> quiescent s ->
  loop s = LDone /\ map p_item (results s) = input.
Proof.
  intros Hnr Hinv Hq.
  destruct (quiescent_loop s Hinv Hq) as [Hl|[e Hl]].
  - split; [assumption|]. destruct Hinv as [_ L].
    pose proof (l_items s L) as H. rewrite (l_done s L Hl), app_nil_r in H. now symmetry.
  - exfalso. destruct Hinv as [C L].
    destruct (l_threw s L e Hl) as [p [pr [Hn Hst]]].
    now apply (no_rejected_promise s p pr e Hnr (conj C L) Hn).
Qed.

Lemma quiescent_all_started (s : state) :
  never_rejects -> inv s -> quiescent s ->
  starts (trace s) = seq 0 (List.length input) /\ map p_item (results s) = input.
Proof.
  intros Hnr Hinv Hq.
  destruct (quiescent_done s Hnr Hinv Hq) as [_ Hitems].
  split; [|assumption].
  destruct Hinv as [C _]. rewrite (c_starts s C).
  f_equal. now rewrite <- Hitems, length_map.
Qed.

(** At the end every invocation has completed exactly once, in some
    order, and the shared state is what these completions made of it. *)
Lemma quiescent_shared (s : state) :
  never_rejects -> inv s -> quiescent s ->
  Permutation (settles (trace s)) (seq 0 (List.length input)) /\
  shared s = fold_left item_step (settles (trace s)) u0.
Proof.
  intros Hnr Hinv Hq.
  destruct (quiescent_done s Hnr Hinv Hq) as [_ Hitems].
  destruct Hinv as [C _]. destruct Hq as [_ Hall].
  assert (Hlen : List.length (results s) = List.length input).
  { now rewrite <- Hitems, length_map. }
  split; [|apply (c_shared s C)].
  apply NoDup_Permutation; [apply (c_nodup s C)|apply seq_NoDup|].
  intros p. rewrite in_seq, (c_settles s C p). split.
  - intros Hs. apply settled_lt in Hs. lia.
  - intros Hp. apply Hall. lia.
Qed.

Lemma values_pure (result_of : nat -> Item -> Val) (ps : list promise) :
  forall i,
    (forall k pr, nth_error ps k = Some pr ->
                  p_state pr = Some (Fulfilled (result_of (i + k) (p_item pr)))) ->
    values ps = Some (map (fun ix => result_of (fst ix) (snd ix))
                          (combine (seq i (List.length ps)) (map p_item ps))).
Proof.
  induction ps as [|pr ps IH]; intros i H; simpl; [reflexivity|].
  pose proof (H 0 pr eq_refl) as H0. rewrite Nat.add_0_r in H0. rewrite H0.
  rewrite (IH (S i)); [reflexivity|].
  intros k pr' Hk. replace (S i + k) with (i + S k) by lia. now apply H.
Qed.

Lemma values_settled (ps : list promise) (vs : list Val) :
  values ps = Some vs ->
  forall k pr, nth_error ps k = Some pr ->
               exists v, p_state pr = Some (Fulfilled v) /\ nth_error vs k = Some v.
Proof.
  revert vs. induction ps as [|pr0 ps IH]; intros vs Hv k pr Hk; [destruct k; discriminate|].
  simpl in Hv. destruct (p_state pr0) as [[v|e]|] eqn:Hst; try discriminate.
  destruct (values ps) as [vs'|]; [|discriminate]. injection Hv as <-.
  destruct k as [|k]; simpl in Hk.
  - injection Hk as <-. now exists v.
  - now apply (IH vs' eq_refl).
Qed.

Lemma existsb_rejected_false (s : state) :
  never_rejects -> inv s -> existsb is_rejected (results s) = false.
Proof.
  intros Hnr Hinv. destruct (existsb is_rejected (results s)) eqn:E; [|reflexivity].
  apply existsb_exists in E as [pr [Hin Hr]].
  apply In_nth_error in Hin as [p Hn]. unfold is_rejected in Hr.
  destruct (p_state pr) as [[v|e]|] eqn:Hst; try discriminate.
  exfalso. now apply (no_rejected_promise s p pr e Hnr Hinv Hn).
Qed.

(** With a mapper whose result for an item does not depend on the
    moment it completes, the promise of [mapWithConcurrency] can only
    resolve to the results in the order of the items. *)
Lemma settlement_pure (result_of : nat -> Item -> Val) (s : state) :
  (forall i item u, snd (finish i item u) = Fulfilled (result_of i item)) ->
  inv s ->
  settlement_of s <> Failed /\
  (forall vs, settlement_of s = Resolved vs -> vs = mapi result_of input) /\
  (quiescent s -> settlement_of s = Resolved (mapi result_of input)).
Proof.
  intros Hpure Hinv.
  assert (Hnr : never_rejects) by (intros i item u; eexists; apply Hpure).
  pose proof (existsb_rejected_false s Hnr Hinv) as Hrej.
  assert (Hdone : loop s = LDone -> map p_item (results s) = input).
  { intros Hl. destruct Hinv as [_ L].
    pose proof (l_items s L) as H. rewrite (l_done s L Hl), app_nil_r in H. now symmetry. }
  assert (Hfull : forall vs, loop s = LDone -> values (results s) = Some vs ->
                             vs = mapi result_of input).
  { intros vs Hl Hv.
    assert (Hv' : values (results s) =
                  Some (map (fun ix => result_of (fst ix) (snd ix))
                            (combine (seq 0 (List.length (results s)))
                                     (map p_item (results s))))).
    { apply values_pure. intros k pr Hk. simpl.
      destruct (values_settled _ _ Hv k pr Hk) as [v [Hst _]].
      destruct Hinv as [C _].
      destruct (c_outcome s C k pr _ Hk Hst) as [u Hu].
      rewrite Hpure in Hu. congruence. }
    rewrite Hv in Hv'. injection Hv' as ->. unfold mapi.
    rewrite <- (Hdone Hl), length_map. reflexivity. }
  split; [|split].
  - unfold settlement_of. destruct (loop s) as [r|p| |e] eqn:Hl; try discriminate.
    + rewrite Hrej. destruct (values (results s)); discriminate.
    + exfalso. destruct Hinv as [C L].
      destruct (l_threw s L e Hl) as [p [pr [Hn Hst]]].
      now apply (no_rejected_promise s p pr e Hnr (conj C L) Hn).
  - intros vs. unfold settlement_of.
    destruct (loop s) as [r|p| |e] eqn:Hl; try discriminate.
    rewrite Hrej. destruct (values (results s)) as [vs'|] eqn:Hv; [|discriminate].
    intros [= <-]. now apply Hfull.
  - intros Hq. destruct (quiescent_done s Hnr Hinv Hq) as [Hl _].
    unfold settlement_of. rewrite Hl, Hrej.
    assert (Hv : exists vs, values (results s) = Some vs).
    { destruct Hq as [_ Hall]. destruct Hinv as [C _]. clear Hfull Hdone Hrej Hl.
      assert (Hst : forall k pr, nth_error (results s) k = Some pr ->
                                 exists v, p_state pr = Some (Fulfilled v)).
      { intros k pr Hk.
        assert (Hlt : k < List.length (results s)) by (apply nth_error_Some; congruence).
        specialize (Hall k Hlt). unfold settled in Hall. rewrite Hk in Hall.
        destruct (p_state pr) as [o|] eqn:Hst; [|discriminate].
        destruct (c_outcome s C k pr o Hk Hst) as [u ->]. rewrite Hpure. eauto. }
      clear Hall C. induction (results s) as [|pr ps IH]; [now exists []|].
      destruct (Hst 0 pr eq_refl) as [v Hv]. simpl. rewrite Hv.
      destruct IH as [vs Hvs]; [intros k pr' Hk; now apply (Hst (S k))|].
      rewrite Hvs. eauto. }
    destruct Hv as [vs Hv]. rewrite Hv. f_equal. now apply Hfull.
Qed.

Lemma values_inv (ps : list promise) (vs : list Val) :
  values ps = Some vs ->
  List.length vs = List.length ps /\
  forall k v, nth_error vs k = Some v ->
              exists pr, nth_error ps k = Some pr /\ p_state pr = Some (Fulfilled v).
Proof.
  revert vs. induction ps as [|pr0 ps IH]; intros vs Hv; simpl in Hv.
  - injection Hv as <-. split; [reflexivity|]. intros [|k] v H; discriminate.
  - destruct (p_state pr0) as [[v0|e]|] eqn:Hst; try discriminate.
    destruct (values ps) as [vs'|]; [|discriminate]. injection Hv as <-.
    destruct (IH vs' eq_refl) as [Hlen Hnth]. split; [simpl; now rewrite Hlen|].
    intros [|k] v H; simpl in H.
    + injection H as <-. now exists pr0.
    + now apply Hnth.
Qed.

Lemma values_total (ps : list promise) :
  (forall k pr, nth_error ps k = Some pr -> exists v, p_state pr = Some (Fulfilled v)) ->
  exists vs, values ps = Some vs.
Proof.
  induction ps as [|pr ps IH]; intros Hst; [now exists []|].
  destruct (Hst 0 pr eq_refl) as [v Hv]. simpl. rewrite Hv.
  destruct IH as [vs Hvs]; [intros k pr' Hk; now apply (Hst (S k))|].
  rewrite Hvs. eauto.
Qed.

(** With a mapper that never rejects, the promise of
    [mapWithConcurrency] does not reject; what it resolves to has one
    entry per item, the [i]-th being what the invocation on the [i]-th
    item returned; and it has resolved once nothing is left to happen. *)
Lemma settlement_sound (s : state) :
  never_rejects -> inv s ->
  settlement_of s <> Failed /\
  (forall vs, settlement_of s = Resolved vs ->
     List.length vs = List.length input /\
     forall i v, nth_error vs i = Some v ->
       exists item u, nth_error input i = Some item /\
                      snd (finish i item u) = Fulfilled v) /\
  (quiescent s -> exists vs, settlement_of s = Resolved vs).
Proof.
  intros Hnr Hinv.
  pose proof (existsb_rejected_false s Hnr Hinv) as Hrej.
  assert (Hthrew : forall e, loop s <> LThrew e).
  { intros e Hl. destruct Hinv as [C L].
    destruct (l_threw s L e Hl) as [p [pr [Hn Hst]]].
    now apply (no_rejected_promise s p pr e Hnr (conj C L) Hn). }
  split; [|split].
  - unfold settlement_of. destruct (loop s) as [r|p| |e] eqn:Hl; try discriminate.
    + rewrite Hrej. destruct (values (results s)); discriminate.
    + now destruct (Hthrew e).
  - intros vs. unfold settlement_of.
    destruct (loop s) as [r|p| |e] eqn:Hl; try discriminate.
    rewrite Hrej. destruct (values (results s)) as [vs'|] eqn:Hv; [|discriminate].
    intros [= <-]. destruct (values_inv _ _ Hv) as [Hlen Hnth].
    destruct Hinv as [C L].
    pose proof (l_items s L) as Hitems. rewrite (l_done s L Hl), app_nil_r in Hitems.
    split; [now rewrite Hlen, Hitems, length_map|].
    intros i v Hi. destruct (Hnth i v Hi) as [pr [Hn Hst]].
    destruct (c_outcome s C i pr _ Hn Hst) as [u Hu].
    exists (p_item pr), u. split; [now apply (nth_error_input s i pr C)|now symmetry].
  - intros Hq. destruct (quiescent_done s Hnr Hinv Hq) as [Hl _].
    unfold settlement_of. rewrite Hl, Hrej.
    destruct (values_total (results s)) as [vs Hv]; [|rewrite Hv; eauto].
    intros k pr Hk. destruct Hq as [_ Hall]. destruct Hinv as [C _].
    assert (Hlt : k < List.length (results s)) by (apply nth_error_Some; congruence).
    specialize (Hall k Hlt). unfold settled in Hall. rewrite Hk in Hall.
    destruct (p_state pr) as [o|] eqn:Hst; [|discriminate].
    destruct (c_outcome s C k pr o Hk Hst) as [u ->].
    destruct (Hnr k (p_item pr) u) as [v ->]. eauto.
Qed.

Lemma resolves_pos (sched : list action) (s : state) :
  never_rejects ->
  run sched (mapWithConcurrency input u0) = Some s ->
  settlement_of s <> Failed /\
  (forall vs, settlement_of s = Resolved vs ->
     List.length vs = List.length input /\
     forall i v, nth_error vs i = Some v ->
       exists item u, nth_error input i = Some item /\
                      snd (finish i item u) = Fulfilled v) /\
  (quiescent s -> exists vs, settlement_of s = Resolved vs) /\
  (exists sched' s',
      run (sched ++ sched') (mapWithConcurrency input u0) = Some s' /\ quiescent s').
Proof.
  intros Hnr Hrun. pose proof (inv_reachable sched s Hrun) as Hinv.
  destruct (settlement_sound s Hnr Hinv) as [H1 [H2 H3]].
  repeat split; auto; try (now apply H2).
  destruct (reaches_quiescence (measure s) s Hinv (le_n _)) as [sched' [s' [Hrun' Hq]]].
  exists sched', s'. now rewrite run_app, Hrun.
Qed.

(** Once the promise of [mapWithConcurrency] has resolved, every
    invocation has completed exactly once, in some order, and the shared
    state is what these completions made of it. *)
Lemma resolved_shared (s : state) (vs : list Val) :
  inv s -> settlement_of s = Resolved vs ->
  Permutation (settles (trace s)) (seq 0 (List.length input)) /\
  shared s = fold_left item_step (settles (trace s)) u0.
Proof.
  intros [C L] Hres. unfold settlement_of in Hres.
  destruct (loop s) as [r|p| |e] eqn:Hl; try discriminate.
  destruct (existsb is_rejected (results s)); [discriminate|].
  destruct (values (results s)) as [vs'|] eqn:Hv; [|discriminate].
  pose proof (l_items s L) as Hitems. rewrite (l_done s L Hl), app_nil_r in Hitems.
  assert (Hlen : List.length (results s) = List.length input).
  { apply (f_equal (@List.length Item)) in Hitems.
    now rewrite length_map in Hitems. }
  split; [|apply (c_shared s C)].
  apply NoDup_Permutation; [apply (c_nodup s C)|apply seq_NoDup|].
  intros p. rewrite in_seq, (c_settles s C p). split.
  - intros Hs. apply settled_lt in Hs. lia.
  - intros Hp. unfold settled.
    destruct (nth_error (results s) p) as [pr|] eqn:Hn;
      [|apply nth_error_None in Hn; lia].
    destruct (values_settled _ _ Hv p pr Hn) as [v [Hst _]]. now rewrite Hst.
Qed.

(** C3, as the code has it.  For every limit of at least 1 and every
    list, along every run of the event loop: at no point are more
    invocations in flight than the limit; invocations are started in the
    order of the list, each item at most once; every run can be carried
    on until nothing is left to happen, and if no invocation of the mapper
    rejects, by then every item of the list has been started exactly
    once. *)
Theorem window_bounded_and_started_once (sched : list action) (s : state) :
  run sched (mapWithConcurrency input u0) = Some s ->
  (forall pre post, trace s = pre ++ post -> in_flight pre <= concurrency) /\
  (starts (trace s) = seq 0 (List.length (results s)) /\
   exists rest, input = map p_item (results s) ++ rest) /\
  (exists sched' s',
      run (sched ++ sched') (mapWithConcurrency input u0) = Some s' /\ quiescent s') /\
  (never_rejects -> quiescent s ->
   starts (trace s) = seq 0 (List.length input) /\ map p_item (results s) = input).
Proof.
  intros Hrun. pose proof (inv_reachable sched s Hrun) as Hinv.
  split; [|split; [|split]].
  - intros pre post. now apply in_flight_bounded.
  - now apply started_once_in_order.
  - destruct (reaches_quiescence (measure s) s Hinv (le_n _)) as [sched' [s' [Hrun' Hq]]].
    exists sched', s'. now rewrite run_app, Hrun.
  - intros Hnr Hq. now apply quiescent_all_started.
Qed.

(** The same for the result, with the limit kept positive. *)
Lemma resolves_in_order_pos (result_of : nat -> Item -> Val)
    (sched : list action) (s : state) :
  (forall i item u, snd (finish i item u) = Fulfilled (result_of i item)) ->
  run sched (mapWithConcurrency input u0) = Some s ->
  settlement_of s <> Failed /\
  (forall vs, settlement_of s = Resolved vs -> vs = mapi result_of input) /\
  (quiescent s -> settlement_of s = Resolved (mapi result_of input)) /\
  (exists sched' s',
      run (sched ++ sched') (mapWithConcurrency input u0) = Some s' /\ quiescent s').
Proof.
  intros Hpure Hrun. pose proof (inv_reachable sched s Hrun) as Hinv.
  destruct (settlement_pure result_of s Hpure Hinv) as [H1 [H2 H3]].
  repeat split; auto.
  destruct (reaches_quiescence (measure s) s Hinv (le_n _)) as [sched' [s' [Hrun' Hq]]].
  exists sched', s'. now rewrite run_app, Hrun.
Qed.

(** *** Further facts about the call *)

Lemma core_initial :
  core {| todo := input; results := []; executing := []; races := 0; loop := LDone;
          queue := []; shared := u0; trace := [] |}.
Proof.
  constructor; simpl.
  - now exists input.
  - intros p [].
  - intros p Hp. lia.
  - lia.
  - intros p [].
  - intros q1 r p q2 H. destruct q1; discriminate.
  - intros r p [].
  - intros p pr r H. destruct p; discriminate.
  - reflexivity.
  - constructor.
  - intros p. split; [intros []|]. unfold settled. destruct p; discriminate.
  - intros pre post H. symmetry in H. apply app_eq_nil in H as [-> _]. simpl. lia.
  - reflexivity.
  - intros p [[]|[]].
  - intros p pr o H. destruct p; discriminate.
Qed.

Lemma measure_initial :
  measure (mapWithConcurrency input u0) <= turn_weight * List.length input.
Proof.
  unfold mapWithConcurrency.
  pose proof (measure_run_loop input _ core_initial) as H. simpl in H.
  rewrite Nat.add_0_r in H. apply H; [lia|reflexivity].
Qed.

(** X5.  The bookkeeping of the call terminates.  Count the completions
    of mapper invocations and the runs of the jobs that act on the state
    of the call: a [cleanup] callback, the reaction of
    [p.then(cleanup)] that passes a rejection of [p] on to
    [.catch(cleanup)], a reaction of [Promise.race] to a member of
    [executing], a resumption of the loop after its [await].  (The jobs
    by which the engine merely hands a settlement on to the promise of
    the [async] wrapper, of [.catch], of [Promise.all] or of the call are
    not steps here and are not counted.)  Whatever the mapper does and in
    whatever order its invocations complete, a run that starts with the
    call of [mapWithConcurrency] on [M] items under a limit of [N >= 1]
    has at most [(2M + 2N + 3) * M] such steps. *)
Theorem every_run_is_short (sched : list action) (s : state) :
  run sched (mapWithConcurrency input u0) = Some s ->
  List.length sched <= (2 * List.length input + 2 * concurrency + 3) * List.length input.
Proof.
  intros Hrun.
  pose proof (run_bounded sched _ s inv_initial Hrun) as Hb.
  pose proof measure_initial as Hm. unfold turn_weight in Hm. lia.
Qed.

(** X6.  The returned promise always settles, and tells failure from
    success.  Once nothing is left to happen the promise of
    [mapWithConcurrency] is settled; it has rejected exactly when the
    promise of some invocation has. *)
Theorem call_settles_with_its_invocations (sched : list action) (s : state) :
  run sched (mapWithConcurrency input u0) = Some s ->
  quiescent s ->
  settlement_of s <> Unsettled /\
  (settlement_of s = Failed <->
   exists p pr e, nth_error (results s) p = Some pr /\ p_state pr = Some (Rejected e)).
Proof.
  intros Hrun Hq. pose proof (inv_reachable sched s Hrun) as Hinv.
  assert (Hrej : existsb is_rejected (results s) = true <->
                 exists p pr e, nth_error (results s) p = Some pr /\
                                p_state pr = Some (Rejected e)).
  { rewrite existsb_exists. split.
    - intros [pr [Hin Hr]]. apply In_nth_error in Hin as [p Hn].
      unfold is_rejected in Hr. destruct (p_state pr) as [[v|e]|] eqn:Hst; try discriminate.
      now exists p, pr, e.
    - intros [p [pr [e [Hn Hst]]]]. exists pr. split; [now apply nth_error_In in Hn|].
      unfold is_rejected. now rewrite Hst. }
  destruct (quiescent_loop s Hinv Hq) as [Hl|[e Hl]]; unfold settlement_of; rewrite Hl.
  - destruct (existsb is_rejected (results s)) eqn:E.
    + split; [discriminate|]. split; [intros _; now apply Hrej|reflexivity].
    + destruct (values_total (results s)) as [vs Hv].
      { intros k pr Hk. destruct Hq as [_ Hall].
        assert (Hlt : k < List.length (results s)) by (apply nth_error_Some; congruence).
        specialize (Hall k Hlt). unfold settled in Hall. rewrite Hk in Hall.
        destruct (p_state pr) as [[v|e]|] eqn:Hst; [eauto| |discriminate].
        assert (Hf : false = true); [|discriminate Hf].
        apply Hrej. now exists k, pr, e. }
      rewrite Hv. split; [discriminate|]. split; [discriminate|].
      intros H. apply Hrej in H. discriminate H.
  - split; [discriminate|]. split; [|reflexivity]. intros _.
    destruct Hinv as [_ L]. destruct (l_threw s L e Hl) as [p [pr [Hn Hst]]].
    now exists p, pr, e.
Qed.

(** X7.  Nothing is left in the set.  Once nothing is left to happen,
    [executing] is empty again: every promise added to it has been
    deleted by its [cleanup], fulfilled or rejected. *)
Theorem executing_is_emptied (sched : list action) (s : state) :
  run sched (mapWithConcurrency input u0) = Some s ->
  quiescent s ->
  executing s = [].
Proof.
  intros Hrun Hq. destruct (inv_reachable sched s Hrun) as [C _].
  destruct Hq as [Hqueue Hall].
  destruct (executing s) as [|p ex] eqn:Hex; [reflexivity|exfalso].
  assert (Hin : In p (executing s)) by (rewrite Hex; now left).
  pose proof (c_exec_lt s C p Hin) as Hlt.
  destruct (c_token s C p Hin (Hall p Hlt)) as [H|H]; rewrite Hqueue in H; destruct H.
Qed.

End Invariant.

End MapWithConcurrency.

Arguments Fulfilled {Val Err} v.
Arguments Rejected {Val Err} e.
Arguments p_item {Item Val Err} p.
Arguments p_state {Item Val Err} p.
Arguments p_races {Item Val Err} p.
Arguments LAwait {Err} r.
Arguments LWake {Err} p.
Arguments LDone {Err}.
Arguments LThrew {Err} e.
Arguments todo {Item Val Err U} s.
Arguments results {Item Val Err U} s.
Arguments executing {Item Val Err U} s.
Arguments races {Item Val Err U} s.
Arguments loop {Item Val Err U} s.
Arguments queue {Item Val Err U} s.
Arguments shared {Item Val Err U} s.
Arguments trace {Item Val Err U} s.
Arguments start {Item Val Err U} immediate finish item s.
Arguments run_loop {Item Val Err U} immediate finish concurrency items s.
Arguments mapWithConcurrency {Item Val Err U} immediate finish concurrency list u.
Arguments exec_job {Item Val Err U} immediate finish concurrency j s.
Arguments settle {Item Val Err U} finish p s.
Arguments step {Item Val Err U} immediate finish concurrency a s.
Arguments run {Item Val Err U} immediate finish concurrency sched s.
Arguments quiescent {Item Val Err U} s.
Arguments idle {Item Val Err U} s.
Arguments settlement_of {Item Val Err U} s.
Arguments Unsettled {Val}.
Arguments Resolved {Val} vs.
Arguments Failed {Val}.
Arguments never_rejects {Item Val Err U} finish.
Arguments item_step {Item Val Err U} finish input u p.

(** *** A limit of 0 behaves like a limit of 1 *)

Section LimitZero.

Variables (Item Val Err U : Type).
Variable immediate : nat -> Item -> bool.
Variable finish : nat -> Item -> U -> U * outcome Val Err.

(** [executing.size >= 0] always holds, and so does [executing.size >= 1]
    right after [executing.add(p)]. *)
Lemma run_loop_limit_zero (items : list Item) :
  forall s : state Item Val Err U,
    run_loop immediate finish 0 items s = run_loop immediate finish 1 items s.
Proof.
  induction items as [|item rest IH]; intros s; simpl; [reflexivity|].
  rewrite (start_executing Item Val Err U immediate finish item s), length_app. simpl.
  now rewrite Nat.add_1_r.
Qed.

Lemma step_limit_zero (a : action) (s : state Item Val Err U) :
  step immediate finish 0 a s = step immediate finish 1 a s.
Proof.
  destruct a as [|p]; simpl; [|reflexivity].
  destruct (queue s) as [|j q]; [reflexivity|]. f_equal.
  destruct j; simpl; try reflexivity.
  destruct (loop s); try reflexivity.
  destruct (outcome_of _ _ _ _ _ p) as [[v|e]|]; try reflexivity.
  apply run_loop_limit_zero.
Qed.

Lemma run_limit_zero (sched : list action) :
  forall s : state Item Val Err U,
    run immediate finish 0 sched s = run immediate finish 1 sched s.
Proof.
  induction sched as [|a sched IH]; intros s; simpl; [reflexivity|].
  rewrite step_limit_zero. destruct (step immediate finish 1 a s); [apply IH|reflexivity].
Qed.

(** C10.  Whatever the limit, the list and the order in which the
    overlapping invocations complete: if no invocation of the mapper
    rejects, the promise returned by [mapWithConcurrency] never rejects;
    what it resolves to has the length of the list, its [i]-th entry
    being what the invocation on the [i]-th item returned; it has
    resolved once nothing is left to happen, and every run of the event
    loop can be carried on to that point. *)
Theorem results_follow_input_order (concurrency : nat) (input : list Item) (u0 : U)
    (sched : list action) (s : state Item Val Err U) :
  never_rejects finish ->
  run immediate finish concurrency sched
      (mapWithConcurrency immediate finish concurrency input u0) = Some s ->
  settlement_of s <> Failed /\
  (forall vs, settlement_of s = Resolved vs ->
     List.length vs = List.length input /\
     forall i v, nth_error vs i = Some v ->
       exists item u, nth_error input i = Some item /\
                      snd (finish i item u) = Fulfilled v) /\
  (quiescent s -> exists vs, settlement_of s = Resolved vs) /\
  (exists sched' s',
      run immediate finish concurrency (sched ++ sched')
          (mapWithConcurrency immediate finish concurrency input u0) = Some s' /\
      quiescent s').
Proof.
  intros Hnr Hrun. destruct concurrency as [|n].
  - unfold mapWithConcurrency in *.
    rewrite run_limit_zero, run_loop_limit_zero in Hrun.
    destruct (resolves_pos Item Val Err U immediate finish 1 (le_n 1) input u0 sched s Hnr Hrun)
      as [H1 [H2 [H3 [sched' [s' [H4 H5]]]]]].
    repeat split; auto; try (now apply H2).
    exists sched', s'. now rewrite run_limit_zero, run_loop_limit_zero.
  - apply (resolves_pos Item Val Err U immediate finish (S n)); auto. lia.
Qed.

End LimitZero.

(** *** A list shorter than the limit *)

Section ShortList.

Variables (Item Val Err U : Type).
Variable immediate : nat -> Item -> bool.
Variable finish : nat -> Item -> U -> U * outcome Val Err.
Variable concurrency : nat.

Lemma start_effect (item : Item) (s : state Item Val Err U) :
  List.length (results (start immediate finish item s)) = S (List.length (results s)) /\
  starts (trace (start immediate finish item s)) =
    starts (trace s) ++ [List.length (results s)] /\
  map p_item (results (start immediate finish item s)) = map p_item (results s) ++ [item].
Proof.
  unfold start. destruct (immediate _ item).
  - destruct (finish _ item (shared s)) as [u o]. simpl.
    rewrite length_app, map_app, starts_app. simpl. repeat split; lia.
  - simpl. rewrite length_app, map_app, starts_app. simpl. repeat split; lia.
Qed.

Lemma run_loop_without_wait (items : list Item) :
  forall s : state Item Val Err U,
    List.length (executing s) + List.length items < concurrency ->
    loop (run_loop immediate finish concurrency items s) = LDone /\
    starts (trace (run_loop immediate finish concurrency items s)) =
      starts (trace s) ++ seq (List.length (results s)) (List.length items) /\
    map p_item (results (run_loop immediate finish concurrency items s)) =
      map p_item (results s) ++ items /\
    races (run_loop immediate finish concurrency items s) = races s.
Proof.
  induction items as [|item rest IH]; intros s Hlen; simpl.
  - rewrite !app_nil_r. auto.
  - pose proof (start_executing Item Val Err U immediate finish item s) as Hex.
    destruct (start_effect item s) as [Hres [Hst Hit]].
    assert (Hroom : (concurrency <=?
                     List.length (executing (start immediate finish item s))) = false).
    { apply Nat.leb_gt. rewrite Hex, length_app. simpl in *. lia. }
    rewrite Hroom.
    destruct (IH (start immediate finish item s)) as [Hl [Hs [Hi Hr]]].
    { rewrite Hex, length_app. simpl in *. lia. }
    rewrite Hl, Hs, Hi, Hr, Hst, Hit, Hres, <- !app_assoc. simpl. repeat split.
    unfold start. destruct (immediate _ item); [|reflexivity].
    now destruct (finish _ item (shared s)).
Qed.

(** X8.  A short list is started at once.  When the list has fewer items
    than the limit, the call of [mapWithConcurrency] invokes the mapper
    on every item, in order, before it first yields to the event loop: it
    never waits on a race, whatever the invocations do later. *)
Theorem short_list_is_started_at_once (list : list Item) (u : U) :
  List.length list < concurrency ->
  loop (mapWithConcurrency immediate finish concurrency list u) = LDone /\
  races (mapWithConcurrency immediate finish concurrency list u) = 0 /\
  starts (trace (mapWithConcurrency immediate finish concurrency list u)) =
    seq 0 (List.length list) /\
  map p_item (results (mapWithConcurrency immediate finish concurrency list u)) = list.
Proof.
  intros Hlen. unfold mapWithConcurrency.
  destruct (run_loop_without_wait list
              {| todo := list; results := []; executing := []; races := 0; loop := LDone;
                 queue := []; shared := u; trace := [] |} Hlen) as [Hl [Hs [Hi Hr]]].
  auto.
Qed.

End ShortList.

(** *** A mapper over numbers, for concrete runs

    Each invocation awaits something; when it is resumed it appends its
    item to the shared list and returns ten times the item, except that
    the invocation on item 0 rejects. *)

Definition demo_immediate (i item : nat) : bool := false.

Definition demo_finish (i item : nat) (u : list nat) : list nat * outcome nat unit :=
  (u ++ [item], if Nat.eqb item 0 then Rejected tt else Fulfilled (10 * item)).

(** The same mapper with the rejection caught, as both mappers of the
    source do. *)
Definition demo_caught (i item : nat) (u : list nat) : list nat * outcome nat unit :=
  (u ++ [item], Fulfilled (10 * item)).

(** Items 1, 2, 3 under a limit of 2; the second invocation completes
    first, then the first, then the third. *)
Definition demo_sched : list action :=
  [Settle 1; RunJob; RunJob; RunJob; Settle 0; Settle 2;
   RunJob; RunJob; RunJob; RunJob; RunJob; RunJob].

Definition demo_state : state nat nat unit (list nat) :=
  Eval vm_compute in
    match run demo_immediate demo_caught 2 demo_sched
              (mapWithConcurrency demo_immediate demo_caught 2 [1; 2; 3] []) with
    | Some s => s
    | None => mapWithConcurrency demo_immediate demo_caught 2 [1; 2; 3] []
    end.

Lemma demo_run :
  run demo_immediate demo_caught 2 demo_sched
      (mapWithConcurrency demo_immediate demo_caught 2 [1; 2; 3] []) = Some demo_state.
Proof. reflexivity. Qed.

Lemma demo_caught_never_rejects : never_rejects demo_caught.
Proof. intros i item u. now exists (10 * item). Qed.

Lemma demo_state_quiescent : quiescent demo_state.
Proof. apply (proj1 (idle_quiescent _ _ _ _ demo_state)). reflexivity. Qed.

(** An instance of C3. *)
Lemma window_bounded_and_started_once_witness :
  1 <= 2 /\
  trace demo_state = [EStart 0; EStart 1; ESettle 1; EStart 2; ESettle 0; ESettle 2] /\
  (forall pre post, trace demo_state = pre ++ post -> in_flight pre <= 2) /\
  starts (trace demo_state) = seq 0 (List.length [1; 2; 3]) /\
  map p_item (results demo_state) = [1; 2; 3].
Proof.
  assert (Hpos : 1 <= 2) by (repeat constructor).
  destruct (window_bounded_and_started_once nat nat unit (list nat)
              demo_immediate demo_caught 2 Hpos [1; 2; 3] [] demo_sched demo_state demo_run)
    as [Hwin [_ [_ Hall]]].
  destruct (Hall demo_caught_never_rejects demo_state_quiescent) as [Hstarts Hitems].
  repeat split; assumption.
Defined.

(** An instance of C10. *)
Lemma results_follow_input_order_witness :
  never_rejects demo_caught /\
  settlement_of demo_state = Resolved [10; 20; 30] /\
  (forall vs, settlement_of demo_state = Resolved vs ->
     List.length vs = List.length [1; 2; 3] /\
     forall i v, nth_error vs i = Some v ->
       exists item u, nth_error [1; 2; 3] i = Some item /\
                      snd (demo_caught i item u) = Fulfilled v).
Proof.
  split; [exact demo_caught_never_rejects|]. split; [reflexivity|].
  apply (results_follow_input_order nat nat unit (list nat) demo_immediate demo_caught
           2 [1; 2; 3] [] demo_sched demo_state demo_caught_never_rejects demo_run).
Defined.

(** C3 as stated fails when an invocation rejects.  A limit of 1 and
    the items 0 and 7: the invocation on 0 rejects while the loop waits
    for the race, the [await] throws, and once nothing is left to happen
    the second item has not been started. *)
Lemma rejection_leaves_item_unstarted :
  exists s,
    run demo_immediate demo_finish 1 [Settle 0; RunJob; RunJob; RunJob; RunJob]
        (mapWithConcurrency demo_immediate demo_finish 1 [0; 7] []) = Some s /\
    quiescent s /\
    starts (trace s) = [0] /\
    starts (trace s) <> seq 0 (List.length [0; 7]) /\
    loop s = LThrew tt /\
    settlement_of s = Failed.
Proof.
  eexists. split; [reflexivity|].
  split; [apply (proj1 (idle_quiescent _ _ _ _ _)); reflexivity|].
  repeat split; try reflexivity. discriminate.
Qed.

(** Instances of the further facts, on the run above. *)

Lemma every_run_is_short_witness :
  1 <= 2 /\ List.length demo_sched <= (2 * 3 + 2 * 2 + 3) * 3.
Proof.
  assert (Hpos : 1 <= 2) by (repeat constructor).
  split; [exact Hpos|].
  exact (every_run_is_short nat nat unit (list nat) demo_immediate demo_caught 2 Hpos
           [1; 2; 3] [] demo_sched demo_state demo_run).
Defined.

Lemma call_settles_with_its_invocations_witness :
  1 <= 2 /\ quiescent demo_state /\ settlement_of demo_state <> Unsettled.
Proof.
  assert (Hpos : 1 <= 2) by (repeat constructor).
  split; [exact Hpos|]. split; [exact demo_state_quiescent|].
  apply (call_settles_with_its_invocations nat nat unit (list nat) demo_immediate
           demo_caught 2 Hpos [1; 2; 3] [] demo_sched demo_state demo_run
           demo_state_quiescent).
Defined.

Lemma executing_is_emptied_witness :
  1 <= 2 /\ quiescent demo_state /\ executing demo_state = [].
Proof.
  assert (Hpos : 1 <= 2) by (repeat constructor).
  split; [exact Hpos|]. split; [exact demo_state_quiescent|].
  exact (executing_is_emptied nat nat unit (list nat) demo_immediate demo_caught 2 Hpos
           [1; 2; 3] [] demo_sched demo_state demo_run demo_state_quiescent).
Defined.

Lemma short_list_is_started_at_once_witness :
  List.length [5; 6; 7] < 4 /\
  starts (trace (mapWithConcurrency demo_immediate demo_finish 4 [5; 6; 7] [])) = [0; 1; 2].
Proof.
  assert (Hlen : List.length [5; 6; 7] < 4) by (repeat constructor).
  split; [exact Hlen|].
  apply (short_list_is_started_at_once nat nat unit (list nat) demo_immediate demo_finish 4
           [5; 6; 7] [] Hlen).
Defined.

End Scheduler.

(* ================================================================== *)
(** ** Building an archive in the page, and the sequential fallback *)

Module Archive.
Import JsString RemoteListing Scheduler.

Local Open Scope Z_scope.

(** [Math.round(x)]: the nearest integer, a tie going up. *)
Definition js_round (x : Q) : Z := Qfloor (x + (1 # 2)).

(** [2^k], for an integer [k] of either sign. *)
Definition pow2 (k : Z) : Q := Qpower (2 # 1) k.

(** For [x > 0], the exponent [e] with [2^e <= x < 2^(e+1)]. *)
Definition binade (x : Q) : Z :=
  let k := Z.log2 (Qnum x) - Z.log2 (Zpos (Qden x)) in
  if Qle_bool (pow2 k) x then k else k - 1.

(** The integer nearest to [x], the even one of two that are equally
    near. *)
Definition round_half_even (x : Q) : Z :=
  let f := Qfloor x in
  match Qcompare (x - inject_Z f) (1 # 2) with
  | Lt => f
  | Gt => f + 1
  | Eq => if Z.even f then f else f + 1
  end.

(** The binary64 number a non-negative real [x] is rounded to: the
    nearest number with a significand of 53 bits, the one with the even
    significand of two that are equally near.  The exponent range is
    left out: the numbers rounded here are quotients and percentages of
    array lengths (below [2^32]), far from overflow and underflow. *)
Definition binary64 (x : Q) : Q :=
  if Qle_bool x 0 then 0%Q
  else (inject_Z (round_half_even (x * pow2 (52 - binade x))) * pow2 (binade x - 52))%Q.

(** [Math.round((completed / total) * 100)]: the two integers are
    binary64 numbers as they are, their quotient is rounded to
    binary64, so is its product with 100, and [Math.round] takes the
    result to the nearest integer, a tie going up.  ([total] is the
    length of a list that is not empty wherever this is used.) *)
Definition percent (completed total : nat) : Z :=
  js_round (binary64 (binary64 (Z.of_nat completed # Pos.of_nat total) * 100)).

Arguments pow2 : simpl never.
Arguments binary64 : simpl never.
Arguments percent : simpl never.

Local Close Scope Z_scope.

Section Operations.

(** The contents of a fetched file. *)
Variable Blob : Type.

(** The in-memory archive: one file entry per folder label and name
    (the zip library keeps the latest [file(name, data)] for a path). *)
Record entry : Type := { e_dir : string; e_name : string; e_blob : Blob }.

Definition archive : Type := list entry.

(** [zip.folder(dir).file(name, blob)] *)
Fixpoint zip_file (dir name : string) (blob : Blob) (z : archive) : archive :=
  match z with
  | [] => [{| e_dir := dir; e_name := name; e_blob := blob |}]
  | e :: z' =>
      if String.eqb (e_dir e) dir && String.eqb (e_name e) name
      then {| e_dir := dir; e_name := name; e_blob := blob |} :: z'
      else e :: zip_file dir name blob z'
  end.

(** What the user and the browser get to see. *)
Inductive effect : Type :=
| Alert (msg : string)
| Click (href download : string)              (* [a.click()] on a download link *)
| ClickArchive (download : string) (content : archive)
                                              (* the same for the object URL of the archive *)
| Sleep (ms : nat)                            (* [await new Promise(r => setTimeout(r, ms))] *)
| Progress (value : Z)                        (* assignment to [.value] of the indicator *)
| Warn (what : string).                       (* [console.warn] *)

(** The page: what happened so far, the value of [#global-zip-progress]
    if that element exists, and whether [#zip-global-placeholder] does. *)
Record world : Type := {
  log : list effect;
  bar : option Z;
  placeholder : bool
}.

Definition emit (e : effect) (w : world) : world :=
  {| log := log w ++ [e]; bar := bar w; placeholder := placeholder w |}.

(** [progressBar.value = v] *)
Definition set_progress (v : Z) (w : world) : world :=
  {| log := log w ++ [Progress v]; bar := Some v; placeholder := placeholder w |}.

(** [showGlobalProgress()]: creates the indicator at 0 on first use;
    throws when there is no place to put it. *)
Definition showGlobalProgress (w : world) : result world :=
  match bar w with
  | Some _ => Ok w
  | None =>
      if placeholder w
      then Ok {| log := log w; bar := Some 0%Z; placeholder := true |}
      else Throw
  end.

(** [try { showGlobalProgress().value = v; } catch (e) {}] *)
Definition try_set_progress (v : Z) (w : world) : world :=
  match showGlobalProgress w with
  | Ok w' => set_progress v w'
  | Throw => w
  end.

(** [await fetchBlob(url)] *)
Definition fetchBlob (r : fetched Blob) : result Blob :=
  res <- fetch r ;;
  if negb (fst res) then Throw else read_body (snd res).

(** [.filter(Boolean).filter(h => !h.endsWith('../'))] and then
    [.filter(h => !h.endsWith('/'))]: the files of a listing. *)
Definition listed_files (anchors : attributes) : list string :=
  filter (fun h => negb (endsWith "/" h))
    (filter (fun h => negb (endsWith "../" h)) (present anchors)).

(** The file name suggested for a single download. *)
Definition suggested_name (folderName f : string) : string :=
  (if truthy folderName then collapse_spaces folderName +++ "_" else "") +++ basename f.

(** [downloadFilesSequentially(files, basePath, folderName)] *)
Definition downloadFilesSequentially (files : list string) (basePath folderName : string)
    (w : world) : world :=
  fold_left
    (fun w f => emit (Sleep 250) (emit (Click (basePath +++ f) (suggested_name folderName f)) w))
    files w.

(** How an operation ends: it returns, or it throws (its promise
    rejects). *)
Inductive ending : Type := Returned | Threw.

Record report : Type := {
  ended : ending;
  final : world;
  built : option archive        (* the archive handed to the browser *)
}.

Definition returns (w : world) : report := {| ended := Returned; final := w; built := None |}.
Definition throws (w : world) : report := {| ended := Threw; final := w; built := None |}.

(** *** The part both operations share: fetch, pack, encode *)

(** State shared by the invocations of the mapper: the zip object, the
    counter ([completed], [done]) and the page. *)
Record build : Type := { zip : archive; completed : nat; page : world }.

Section Pack.

(** A task, the folder label and the file it is packed under. *)
Variable Task : Type.
Variable dir_of : Task -> string.
Variable file_of : Task -> string.

(** The answer to the request of invocation [i] (for [path + file]). *)
Variable answers : nat -> fetched Blob.

(** [tasks.length] *)
Variable total : nat.

(** The mapper from the point where [await fetchBlob(..)] settles: the
    [try] block or the [catch] block, then the [finally] block.  It
    never rejects. *)
Definition pack_task (i : nat) (t : Task) (b : build) : build * outcome unit unit :=
  let b1 :=
    match fetchBlob (answers i) with
    | Ok blob =>
        {| zip := zip_file (dir_of t) (basename (file_of t)) blob (zip b);
           completed := completed b; page := page b |}
    | Throw =>
        {| zip := zip b; completed := completed b; page := emit (Warn "skip") (page b) |}
    end in
  ({| zip := zip b1; completed := S (completed b1);
      page := set_progress (percent (S (completed b1)) total) (page b1) |},
   Fulfilled tt).

(** Every invocation suspends on its request. *)
Definition suspends (i : nat) (t : Task) : bool := false.

(** [meta => { if (meta.percent) bar.value = Math.round(meta.percent); }] *)
Definition on_update (w : world) (pct : Q) : world :=
  if Qeq_bool pct 0 then w else set_progress (js_round pct) w.

(** From [new JSZip()] to the end of the operation.  [sched] is what the
    event loop does while the mapper runs, [updates] the percentages
    [generateAsync] reports, [encoded] whether it fulfils.  [None]: the
    run [sched] stops before [mapWithConcurrency] has settled. *)
Definition build_archive (tasks : list Task) (sched : list action)
    (updates : list Q) (encoded : bool) (download : string) (w : world) : option report :=
  match run suspends pack_task 4 sched
            (mapWithConcurrency suspends pack_task 4 tasks
               {| zip := []; completed := 0; page := w |}) with
  | None => None
  | Some s =>
      match settlement_of s with
      | Unsettled => None
      | Failed => Some (throws (page (shared s)))
      | Resolved _ =>
          let w1 := fold_left on_update updates (page (shared s)) in
          if encoded then
            Some {| ended := Returned;
                    final := set_progress 100 (emit (ClickArchive download (zip (shared s))) w1);
                    built := Some (zip (shared s)) |}
          else Some (throws w1)
      end
  end.

End Pack.

(** *** createZipFromFolder *)

(** What the environment decides during [createZipFromFolder]. *)
Record zip_env : Type := {
  jszip_loads : bool;                 (* [ensureJSZip()] fulfils *)
  listing : fetched attributes;       (* [fetch(folderPath)], its text, its anchors *)
  blobs : nat -> fetched Blob;        (* the answer to the request for the [i]-th file *)
  schedule : list action;
  encoding : list Q;
  encoded : bool
}.

(** [createZipFromFolder(folderPath, folderName)] *)
Definition createZipFromFolder (folderPath folderName : string) (env : zip_env)
    (w : world) : option report :=
  match fetch (listing env) with
  | Throw => Some (throws w)
  | Ok res =>
      if negb (fst res) then Some (returns (emit (Alert "Failed to list folder") w))
      else
        match read_body (snd res) with
        | Throw => Some (throws w)
        | Ok anchors =>
            let files := listed_files anchors in
            if Nat.eqb (List.length files) 0
            then Some (returns (emit (Alert "No files found to zip") w))
            else if negb (jszip_loads env) then
              let w1 := try_set_progress 0 w in
              let w2 := downloadFilesSequentially files folderPath folderName w1 in
              Some (returns (try_set_progress 100 w2))
            else
              match showGlobalProgress w with
              | Throw => Some (throws w)
              | Ok w1 =>
                  build_archive string (fun _ => or_default folderName "photos") (fun f => f)
                    (blobs env) (List.length files) files (schedule env)
                    (encoding env) (encoded env)
                    (or_default folderName "photos" +++ ".zip") w1
              end
        end
  end.

(** *** downloadAllVisible *)

(** A folder tile of the root page: its title, the path of its "Open"
    link, and what fetching that path gives. *)
Record tile_info : Type := {
  t_name : string;
  t_path : string;
  t_listing : fetched attributes
}.

Record task : Type := { path : string; file : string; folder : string }.

(** The loop over the tiles that collects the tasks. *)
Fixpoint gather (tiles : list tile_info) (tasks : list task) : result (list task) :=
  match tiles with
  | [] => Ok tasks
  | t :: rest =>
      res <- fetch (t_listing t) ;;
      if negb (fst res) then gather rest tasks
      else
        anchors <- read_body (snd res) ;;
        gather rest
          (tasks ++ map (fun f => {| path := t_path t; file := f; folder := t_name t |})
                        (listed_files anchors))
  end.

Record all_env : Type := {
  a_jszip_loads : bool;
  a_tiles : list tile_info;
  a_blobs : nat -> fetched Blob;
  a_schedule : list action;
  a_encoding : list Q;
  a_encoded : bool
}.

(** The body of the fallback loop of [downloadAllVisible]; the second
    component is [done]. *)
Definition download_one (total : nat) (acc : world * nat) (t : task) : world * nat :=
  let w1 := emit (Click (path t +++ file t)
                        ((if truthy (folder t) then collapse_spaces (folder t) +++ "_" else "")
                           +++ basename (file t)))
                 (fst acc) in
  let done := S (snd acc) in
  (emit (Sleep 200) (set_progress (percent done total) w1), done).

(** [downloadAllVisible()] *)
Definition downloadAllVisible (env : all_env) (w : world) : option report :=
  match showGlobalProgress w with
  | Throw => Some (throws w)
  | Ok w1 =>
      match gather (a_tiles env) [] with
      | Throw => Some (throws w1)
      | Ok tasks =>
          if Nat.eqb (List.length tasks) 0
          then Some (returns (emit (Alert "No files found") w1))
          else if negb (a_jszip_loads env) then
            let acc := fold_left (download_one (List.length tasks)) tasks (w1, 0) in
            Some (returns (set_progress 100 (fst acc)))
          else
            build_archive task folder file (a_blobs env) (List.length tasks) tasks
              (a_schedule env) (a_encoding env) (a_encoded env) "photos-all.zip" w1
      end
  end.

(** The values written to the indicator, oldest first. *)
Definition writes (l : list effect) : list Z :=
  flat_map (fun e => match e with Progress v => [v] | _ => [] end) l.

(** Single-file downloads and the pauses between them. *)
Definition transfers (l : list effect) : list effect :=
  filter (fun e => match e with
                   | Click _ _ | ClickArchive _ _ | Sleep _ => true
                   | _ => false
                   end) l.


(** The progress indicator exists or can be created. *)
Definition indicator_available (w : world) : Prop :=
  bar w <> None \/ placeholder w = true.

(** *** Properties *)





















(** *** What the mapper's invocations leave behind *)

Definition paths (z : archive) : list (string * string) :=
  map (fun e => (e_dir e, e_name e)) z.

Lemma in_zip_file (d n : string) (b : Blob) (z : archive) (e : entry) :
  In e (zip_file d n b z) ->
  e = {| e_dir := d; e_name := n; e_blob := b |} \/ In e z.
Proof.
  induction z as [|e0 z IH]; simpl.
  - intros [<-|[]]. now left.
  - destruct (String.eqb (e_dir e0) d && String.eqb (e_name e0) n).
    + intros [<-|H]; [now left|right; now right].
    + intros [<-|H]; [right; now left|].
      destruct (IH H) as [->|H']; [now left|right; now right].
Qed.

Lemma paths_zip_file (d n : string) (b : Blob) (z : archive) (k : string * string) :
  In k (paths (zip_file d n b z)) <-> k = (d, n) \/ In k (paths z).
Proof.
  induction z as [|e0 z IH]; simpl.
  - split; [intros [<-|[]]; now left|intros [->|[]]; now left].
  - destruct (String.eqb (e_dir e0) d && String.eqb (e_name e0) n) eqn:E; simpl.
    + apply andb_true_iff in E as [Ed En].
      apply String.eqb_eq in Ed. apply String.eqb_eq in En. rewrite Ed, En.
      split; [intros [H|H]; [left; now symmetry|right; now right]|].
      intros [H|[H|H]]; [left; now symmetry|now left|now right].
    + rewrite IH. tauto.
Qed.

Lemma writes_app (l1 l2 : list effect) : writes (l1 ++ l2) = writes l1 ++ writes l2.
Proof. apply flat_map_app. Qed.

Lemma transfers_app (l1 l2 : list effect) :
  transfers (l1 ++ l2) = transfers l1 ++ transfers l2.
Proof. apply filter_app. Qed.

Definition alerts (l : list effect) : list string :=
  flat_map (fun e => match e with Alert m => [m] | _ => [] end) l.

Lemma alerts_app (l1 l2 : list effect) : alerts (l1 ++ l2) = alerts l1 ++ alerts l2.
Proof. apply flat_map_app. Qed.

Section PackProperties.

Variable Task : Type.
Variable dir_of : Task -> string.
Variable file_of : Task -> string.
Variable answers : nat -> fetched Blob.
Variable total : nat.
Variable tasks : list Task.

Definition complete (b : build) (i : nat) : build :=
  item_step (pack_task Task dir_of file_of answers total) tasks b i.

(** Task [i] was fetched, and is packed under this folder and name. *)
Definition packed (i : nat) (k : string * string) : Prop :=
  exists t blob, nth_error tasks i = Some t /\ fetchBlob (answers i) = Ok blob /\
                 k = (dir_of t, basename (file_of t)).

Definition packed_as (i : nat) (e : entry) : Prop :=
  exists t, nth_error tasks i = Some t /\ fetchBlob (answers i) = Ok (e_blob e) /\
            e_dir e = dir_of t /\ e_name e = basename (file_of t).

Lemma complete_one (b : build) (i : nat) :
  i < List.length tasks ->
  completed (complete b i) = S (completed b) /\
  writes (log (page (complete b i))) =
    writes (log (page b)) ++ [percent (S (completed b)) total] /\
  transfers (log (page (complete b i))) = transfers (log (page b)) /\
  alerts (log (page (complete b i))) = alerts (log (page b)) /\
  bar (page (complete b i)) = Some (percent (S (completed b)) total) /\
  (forall k, In k (paths (zip (complete b i))) <-> In k (paths (zip b)) \/ packed i k) /\
  (forall e, In e (zip (complete b i)) -> In e (zip b) \/ packed_as i e).
Proof.
  intros Hlt. unfold complete, item_step, packed, packed_as.
  destruct (nth_error tasks i) as [t|] eqn:Hn; [|apply nth_error_None in Hn; lia].
  unfold pack_task. destruct (fetchBlob (answers i)) as [blob|]; simpl.
  - rewrite writes_app, transfers_app, alerts_app. simpl. rewrite !app_nil_r.
    repeat split; auto.
    + intros H. apply paths_zip_file in H as [->|H]; [right|now left].
      now exists t, blob.
    + intros [H|[t' [blob' [Ht [Hb ->]]]]]; apply paths_zip_file; [now right|left].
      now injection Ht as <-.
    + intros e H. apply in_zip_file in H as [->|H]; [right|now left].
      exists t. auto.
  - rewrite !writes_app, !transfers_app, !alerts_app. simpl. rewrite !app_nil_r.
    repeat split; auto.
    + intros [H|[t' [blob' [_ [Hb _]]]]]; [assumption|discriminate].
Qed.

Lemma complete_all (order : list nat) :
  forall b0,
    (forall i, In i order -> i < List.length tasks) ->
    let b := fold_left complete order b0 in
    completed b = completed b0 + List.length order /\
    writes (log (page b)) =
      writes (log (page b0)) ++
      map (fun c => percent c total) (seq (S (completed b0)) (List.length order)) /\
    transfers (log (page b)) = transfers (log (page b0)) /\
    alerts (log (page b)) = alerts (log (page b0)) /\
    (order <> [] -> bar (page b) = Some (percent (completed b0 + List.length order) total)) /\
    (forall k, In k (paths (zip b)) <->
               In k (paths (zip b0)) \/ exists i, In i order /\ packed i k) /\
    (forall e, In e (zip b) -> In e (zip b0) \/ exists i, In i order /\ packed_as i e).
Proof.
  induction order as [|i order IH]; intros b0 Hlt; simpl.
  - rewrite Nat.add_0_r, app_nil_r. repeat split; auto; try tauto.
    + intros [H|[i [[] _]]]. assumption.
  - destruct (complete_one b0 i (Hlt i (or_introl eq_refl)))
      as [Hc [Hw [Ht [Ha [Hb [Hk He]]]]]].
    destruct (IH (complete b0 i) (fun j Hj => Hlt j (or_intror Hj)))
      as [Hc' [Hw' [Ht' [Ha' [Hb' [Hk' He']]]]]].
    repeat split.
    + rewrite Hc', Hc. lia.
    + rewrite Hw', Hw, Hc, <- app_assoc. reflexivity.
    + now rewrite Ht', Ht.
    + now rewrite Ha', Ha.
    + intros _. destruct order as [|j order'].
      * simpl. rewrite Hb. f_equal. f_equal. lia.
      * rewrite Hb' by discriminate. rewrite Hc. f_equal. f_equal. simpl. lia.
    + intros H. apply Hk' in H as [H|[j [Hj Hp]]].
      * apply Hk in H as [H|H]; [now left|right]. exists i. split; [now left|assumption].
      * right. exists j. split; [now right|assumption].
    + intros [H|[j [[<-|Hj] Hp]]]; apply Hk'.
      * left. apply Hk. now left.
      * left. apply Hk. now right.
      * right. now exists j.
    + intros e H. apply He' in H as [H|[j [Hj Hp]]].
      * apply He in H as [H|H]; [now left|right]. exists i. split; [now left|assumption].
      * right. exists j. split; [now right|assumption].
Qed.

End PackProperties.

Lemma on_update_fold (updates : list Q) :
  forall w,
    let w' := fold_left on_update updates w in
    writes (log w') =
      writes (log w) ++ map js_round (filter (fun q => negb (Qeq_bool q 0)) updates) /\
    transfers (log w') = transfers (log w) /\
    alerts (log w') = alerts (log w) /\
    placeholder w' = placeholder w.
Proof.
  induction updates as [|q updates IH]; intros w; simpl.
  - rewrite app_nil_r. auto.
  - destruct (IH (on_update w q)) as [Hw [Ht [Ha Hp]]].
    unfold on_update in *. destruct (Qeq_bool q 0); simpl in *.
    + auto.
    + rewrite Hw, Ht, Ha, Hp, writes_app, transfers_app, alerts_app. simpl.
      rewrite <- !app_assoc, !app_nil_r. auto.
Qed.

Section BuildProperties.

Variable Task : Type.
Variable dir_of : Task -> string.
Variable file_of : Task -> string.
Variable answers : nat -> fetched Blob.
Variable tasks : list Task.

Lemma pack_task_never_rejects :
  never_rejects (pack_task Task dir_of file_of answers (List.length tasks)).
Proof. intros i t b. now exists tt. Qed.

Lemma four_positive : 1 <= 4.
Proof. repeat constructor. Qed.

(** What [build_archive] returns, in terms of the state [b] the mapper's
    invocations leave behind. *)
Lemma build_archive_spec (sched : list action) (updates : list Q) (encoded : bool)
    (download : string) (w : world) (r : report) :
  build_archive Task dir_of file_of answers (List.length tasks) tasks sched updates
                encoded download w = Some r ->
  exists b : build,
    (forall k, In k (paths (zip b)) <-> exists i, packed Task dir_of file_of answers tasks i k) /\
    (forall e, In e (zip b) -> exists i, packed_as Task dir_of file_of answers tasks i e) /\
    writes (log (page b)) =
      writes (log w) ++
      map (fun c => percent c (List.length tasks)) (seq 1 (List.length tasks)) /\
    transfers (log (page b)) = transfers (log w) /\
    alerts (log (page b)) = alerts (log w) /\
    r = if encoded
        then {| ended := Returned;
                final := set_progress 100
                           (emit (ClickArchive download (zip b))
                                 (fold_left on_update updates (page b)));
                built := Some (zip b) |}
        else throws (fold_left on_update updates (page b)).
Proof.
  unfold build_archive.
  set (f := pack_task Task dir_of file_of answers (List.length tasks)).
  set (b0 := {| zip := []; completed := 0; page := w |}).
  destruct (run (suspends Task) f 4 sched (mapWithConcurrency (suspends Task) f 4 tasks b0))
    as [s|] eqn:Hrun; [|discriminate].
  pose proof (inv_reachable _ _ _ _ (suspends Task) f 4 four_positive tasks b0 sched s Hrun)
    as Hinv.
  destruct (settlement_sound _ _ _ _ f 4 tasks b0 s pack_task_never_rejects Hinv)
    as [Hnf _].
  destruct (settlement_of s) as [|vs|] eqn:Hset; [discriminate| |contradiction].
  destruct (resolved_shared _ _ _ _ f 4 four_positive tasks b0 s vs Hinv Hset) as [Hperm Hshared].
  intros Hr. exists (shared s).
  assert (Hin : forall i, In i (settles (trace s)) <-> i < List.length tasks).
  { intros i. split; intros H.
    - apply (Permutation_in _ Hperm) in H. apply in_seq in H. lia.
    - apply (Permutation_in _ (Permutation_sym Hperm)). apply in_seq. lia. }
  assert (Hlen : List.length (settles (trace s)) = List.length tasks).
  { rewrite (Permutation_length Hperm). apply length_seq. }
  destruct (complete_all Task dir_of file_of answers (List.length tasks) tasks
              (settles (trace s)) b0 (fun i Hi => proj1 (Hin i) Hi))
    as [_ [Hw [Ht [Ha [_ [Hk He]]]]]].
  change (complete Task dir_of file_of answers (List.length tasks) tasks)
    with (item_step f tasks) in Hk, He, Hw, Ht, Ha.
  rewrite <- Hshared in Hk, He, Hw, Ht, Ha. simpl in Hk, He, Hw, Ht, Ha.
  rewrite Hlen in Hw.
  repeat split.
  - intros H. apply Hk in H as [[]|[i [_ Hp]]]. now exists i.
  - intros [i Hp]. apply Hk. right. exists i. split; [|assumption].
    apply Hin. destruct Hp as [t [blob [Hn _]]]. apply nth_error_Some. congruence.
  - intros e H. apply He in H as [[]|[i [_ Hp]]]. now exists i.
  - exact Hw.
  - exact Ht.
  - exact Ha.
  - destruct encoded; now injection Hr as <-.
Qed.

(** Whatever the answers, the event loop can run the build to its end. *)
Lemma build_archive_completes (updates : list Q) (encoded : bool)
    (download : string) (w : world) :
  exists sched r,
    build_archive Task dir_of file_of answers (List.length tasks) tasks sched updates
                  encoded download w = Some r.
Proof.
  unfold build_archive.
  set (f := pack_task Task dir_of file_of answers (List.length tasks)).
  set (b0 := {| zip := []; completed := 0; page := w |}).
  pose proof (inv_initial _ _ _ _ (suspends Task) f 4 four_positive tasks b0) as Hinv0.
  destruct (reaches_quiescence _ _ _ _ (suspends Task) f 4 four_positive tasks b0
              _ _ Hinv0 (le_n _)) as [sched [s [Hrun Hq]]].
  pose proof (inv_run _ _ _ _ (suspends Task) f 4 four_positive tasks b0 sched _ s Hinv0 Hrun)
    as Hinv.
  destruct (settlement_sound _ _ _ _ f 4 tasks b0 s pack_task_never_rejects Hinv)
    as [_ [_ Hres]].
  destruct (Hres Hq) as [vs Hset].
  exists sched. rewrite Hrun, Hset. destruct encoded; eauto.
Qed.

End BuildProperties.

(** *** The sequential fallback *)

Definition single_downloads (files : list string) (basePath folderName : string)
  : list effect :=
  flat_map (fun f => [Click (basePath +++ f) (suggested_name folderName f); Sleep 250]) files.

Lemma downloadFilesSequentially_log (files : list string) (basePath folderName : string) :
  forall w,
    log (downloadFilesSequentially files basePath folderName w) =
      log w ++ single_downloads files basePath folderName /\
    bar (downloadFilesSequentially files basePath folderName w) = bar w /\
    placeholder (downloadFilesSequentially files basePath folderName w) = placeholder w.
Proof.
  unfold downloadFilesSequentially, single_downloads.
  revert files. intros fs. induction fs as [|f fs IH]; intros w; simpl.
  - now rewrite app_nil_r.
  - destruct (IH (emit (Sleep 250)
                       (emit (Click (basePath +++ f) (suggested_name folderName f)) w)))
      as [Hl [Hb Hp]].
    rewrite Hl, Hb, Hp. simpl. rewrite <- !app_assoc. auto.
Qed.

Lemma try_set_progress_quiet (v : Z) (w : world) :
  transfers (log (try_set_progress v w)) = transfers (log w) /\
  alerts (log (try_set_progress v w)) = alerts (log w).
Proof.
  unfold try_set_progress, showGlobalProgress.
  destruct (bar w); simpl.
  - rewrite transfers_app, alerts_app. simpl. now rewrite !app_nil_r.
  - destruct (placeholder w); simpl; [|auto].
    rewrite transfers_app, alerts_app. simpl. now rewrite !app_nil_r.
Qed.


(** C6.  When the zip library cannot be loaded, [createZipFromFolder]
    on a folder whose listing names M files returns after exactly M
    single-file downloads, in the order of the listing, each followed by
    a pause of 250 ms; nothing else is handed to the browser, and no
    archive is built. *)
Theorem fallback_downloads_one_by_one (folderPath folderName : string) (env : zip_env)
    (w : world) (anchors : attributes) :
  jszip_loads env = false ->
  listing env = Status true (Some anchors) ->
  exists r,
    createZipFromFolder folderPath folderName env w = Some r /\
    ended r = Returned /\
    built r = None /\
    transfers (log (final r)) =
      transfers (log w) ++
      flat_map (fun f => [Click (folderPath +++ f) (suggested_name folderName f); Sleep 250])
               (listed_files anchors) /\
    List.length (filter (fun e => match e with Click _ _ => true | _ => false end)
                   (flat_map (fun f => [Click (folderPath +++ f) (suggested_name folderName f);
                                        Sleep 250])
                             (listed_files anchors))) =
      List.length (listed_files anchors).
Proof.
  intros Hzip Hlist. unfold createZipFromFolder. rewrite Hlist, Hzip. simpl.
  assert (Hcount : forall fs : list string,
            List.length (filter (fun e => match e with Click _ _ => true | _ => false end)
                           (flat_map (fun f => [Click (folderPath +++ f)
                                                      (suggested_name folderName f);
                                                Sleep 250]) fs)) = List.length fs).
  { induction fs as [|f fs IH]; simpl; [reflexivity|f_equal; exact IH]. }
  destruct (listed_files anchors) as [|f fs] eqn:Hfiles.
  - simpl. eexists. repeat split. simpl. rewrite transfers_app. reflexivity.
  - rewrite <- Hfiles. replace (Nat.eqb (List.length (listed_files anchors)) 0) with false
      by (rewrite Hfiles; reflexivity).
    eexists. split; [reflexivity|]. repeat split; [|apply Hcount]. simpl.
    destruct (downloadFilesSequentially_log (listed_files anchors) folderPath folderName
                (try_set_progress 0 w)) as [Hl _].
    assert (Htr : forall v w0, transfers (log (try_set_progress v w0)) = transfers (log w0)).
    { intros v w0. apply try_set_progress_quiet. }
    rewrite Htr, Hl, transfers_app, Htr. f_equal.
    unfold single_downloads, transfers. clear.
    induction (listed_files anchors) as [|f fs IH]; simpl; [reflexivity|now rewrite IH].
Qed.

(** *** Building the archive *)

Definition with_schedule (sched : list action) (env : zip_env) : zip_env :=
  {| jszip_loads := jszip_loads env; listing := listing env; blobs := blobs env;
     schedule := sched; encoding := encoding env; encoded := encoded env |}.

Lemma showGlobalProgress_available (w : world) :
  indicator_available w ->
  exists w1, showGlobalProgress w = Ok w1 /\ log w1 = log w.
Proof.
  unfold indicator_available, showGlobalProgress. intros [H|H].
  - destruct (bar w); [eauto|contradiction].
  - destruct (bar w); [eauto|]. rewrite H. eauto.
Qed.

(** What [createZipFromFolder] does on the path that builds the
    archive, in terms of [build_archive]. *)
Lemma createZipFromFolder_builds (folderPath folderName : string) (env : zip_env)
    (w w1 : world) (anchors : attributes) :
  jszip_loads env = true ->
  listing env = Status true (Some anchors) ->
  listed_files anchors <> [] ->
  showGlobalProgress w = Ok w1 ->
  createZipFromFolder folderPath folderName env w =
  build_archive string (fun _ => or_default folderName "photos") (fun f => f)
    (blobs env) (List.length (listed_files anchors)) (listed_files anchors)
    (schedule env) (encoding env) (encoded env)
    (or_default folderName "photos" +++ ".zip") w1.
Proof.
  intros Hzip Hlist Hfiles Hshow.
  unfold createZipFromFolder. rewrite Hlist, Hzip. simpl.
  destruct (listed_files anchors) as [|f fs] eqn:E; [contradiction|].
  simpl. now rewrite Hshow.
Qed.

(** C4.  A folder whose listing names at least one file, with the zip
    library loaded, the indicator in place and the encoding succeeding:
    the event loop can always run the build to its end, and whenever it
    has, [createZipFromFolder] returns (it does not throw and alerts
    nothing) with the indicator at 100, having handed the browser an
    archive whose file entries are exactly the files whose fetch
    succeeded, each under its base name, the others being left out. *)
Theorem failed_fetch_is_left_out (folderPath folderName : string) (env : zip_env)
    (w : world) (anchors : attributes) :
  jszip_loads env = true ->
  listing env = Status true (Some anchors) ->
  listed_files anchors <> [] ->
  indicator_available w ->
  encoded env = true ->
  (exists sched r,
      createZipFromFolder folderPath folderName (with_schedule sched env) w = Some r) /\
  (forall r,
      createZipFromFolder folderPath folderName env w = Some r ->
      ended r = Returned /\
      bar (final r) = Some 100%Z /\
      alerts (log (final r)) = alerts (log w) /\
      exists z,
        built r = Some z /\
        (forall name,
            In name (map e_name z) <->
            exists i f blob, nth_error (listed_files anchors) i = Some f /\
                             fetchBlob (blobs env i) = Ok blob /\
                             name = basename f) /\
        (forall e, In e z ->
            e_dir e = or_default folderName "photos" /\
            exists i f, nth_error (listed_files anchors) i = Some f /\
                        fetchBlob (blobs env i) = Ok (e_blob e) /\
                        e_name e = basename f)).
Proof.
  intros Hzip Hlist Hfiles Hind Henc.
  destruct (showGlobalProgress_available w Hind) as [w1 [Hshow Hlog]].
  split.
  - destruct (build_archive_completes string (fun _ => or_default folderName "photos")
                (fun f => f) (blobs env) (listed_files anchors) (encoding env) (encoded env)
                (or_default folderName "photos" +++ ".zip") w1) as [sched [r Hr]].
    exists sched, r.
    rewrite (createZipFromFolder_builds folderPath folderName (with_schedule sched env) w w1
               anchors Hzip Hlist Hfiles Hshow).
    exact Hr.
  - intros r Hr.
    rewrite (createZipFromFolder_builds folderPath folderName env w w1 anchors
               Hzip Hlist Hfiles Hshow) in Hr.
    destruct (build_archive_spec _ _ _ _ _ _ _ _ _ _ _ Hr)
      as [b [Hk [He [_ [_ [Ha ->]]]]]].
    rewrite Henc. simpl.
    destruct (on_update_fold (encoding env) (page b)) as [_ [_ [Ha' _]]].
    repeat split.
    + rewrite !alerts_app, Ha', Ha, Hlog. simpl. now rewrite !app_nil_r.
    + exists (zip b). split; [reflexivity|]. split.
      * intros name. split.
        -- intros Hin. apply in_map_iff in Hin as [e [<- Hin]].
           assert (Hp : In (e_dir e, e_name e) (paths (zip b))).
           { unfold paths. apply in_map_iff. now exists e. }
           apply Hk in Hp as [i [f [blob [Hn [Hb Heq']]]]].
           exists i, f, blob. repeat split; auto. now injection Heq' as _ ->.
        -- intros [i [f [blob [Hn [Hb ->]]]]].
           assert (Hp : In (or_default folderName "photos", basename f) (paths (zip b))).
           { apply Hk. exists i, f, blob. auto. }
           unfold paths in Hp. apply in_map_iff in Hp as [e [Heq' Hin]].
           apply in_map_iff. exists e. split; [|assumption]. now injection Heq' as _ ->.
      * intros e Hin. destruct (He e Hin) as [i [f [Hn [Hb [Hd Hnm]]]]].
        split; [assumption|]. exists i, f. auto.
Qed.

(** *** The progress indicator *)




Lemma showGlobalProgress_unavailable (w : world) :
  ~ indicator_available w -> showGlobalProgress w = Throw.
Proof.
  unfold indicator_available, showGlobalProgress. intros H.
  destruct (bar w) as [v|]; [exfalso; apply H; left; discriminate|].
  destruct (placeholder w); [exfalso; apply H; now right|reflexivity].
Qed.




(** *** Further facts about the two operations *)

Lemma showGlobalProgress_log (w w1 : world) :
  showGlobalProgress w = Ok w1 -> log w1 = log w.
Proof.
  unfold showGlobalProgress. destruct (bar w); [now intros [= <-]|].
  destruct (placeholder w); [now intros [= <-]|discriminate].
Qed.

(** X9.  The indicator is created once.  [showGlobalProgress] throws
    exactly when the indicator does not exist and there is no
    placeholder to put it in; otherwise it leaves an existing indicator
    with its value, creates a missing one at 0, shows nothing to the
    user, and a second call finds the page as the first left it. *)
Theorem showGlobalProgress_creates_once (w : world) :
  (showGlobalProgress w = Throw <-> ~ indicator_available w) /\
  (forall w1,
      showGlobalProgress w = Ok w1 ->
      showGlobalProgress w1 = Ok w1 /\
      log w1 = log w /\
      bar w1 = Some (match bar w with Some v => v | None => 0%Z end)).
Proof.
  split.
  - split; [|apply showGlobalProgress_unavailable].
    unfold showGlobalProgress, indicator_available.
    destruct (bar w) as [v|]; [discriminate|].
    destruct (placeholder w); [discriminate|]. intros _ [H|H]; [now apply H|discriminate].
  - intros w1. unfold showGlobalProgress.
    destruct (bar w) as [v|] eqn:Hb.
    + intros [= <-]. now rewrite Hb.
    + destruct (placeholder w); [|discriminate]. intros [= <-]. simpl. auto.
Qed.

Section ArchiveShape.

Variable Task : Type.
Variable dir_of : Task -> string.
Variable file_of : Task -> string.
Variable answers : nat -> fetched Blob.
Variable tasks : list Task.

Lemma zip_file_distinct (d n : string) (b : Blob) (z : archive) :
  NoDup (paths z) -> NoDup (paths (zip_file d n b z)).
Proof.
  induction z as [|e z IH]; simpl.
  - intros _. constructor; [intros []|constructor].
  - intros Hnd. inversion Hnd as [|k l Hnotin Hrest]; subst.
    destruct (String.eqb (e_dir e) d && String.eqb (e_name e) n) eqn:E; simpl.
    + apply andb_true_iff in E as [Ed En].
      apply String.eqb_eq in Ed. apply String.eqb_eq in En. subst d n.
      now constructor.
    + constructor; [|now apply IH].
      intros Hin. change (In (e_dir e, e_name e) (paths (zip_file d n b z))) in Hin.
      apply paths_zip_file in Hin as [Heq|Hin]; [|contradiction].
      injection Heq as Hd Hn. rewrite Hd, Hn, !String.eqb_refl in E. discriminate.
Qed.

Lemma complete_distinct (b : build) (i : nat) :
  NoDup (paths (zip b)) ->
  NoDup (paths (zip (complete Task dir_of file_of answers (List.length tasks) tasks b i))).
Proof.
  intros Hnd. unfold complete, item_step.
  destruct (nth_error tasks i) as [t|]; [|assumption].
  unfold pack_task. destruct (fetchBlob (answers i)); simpl; [|assumption].
  now apply zip_file_distinct.
Qed.

(** What the build ends with, in terms of the order in which the
    invocations completed. *)
Lemma build_archive_order (sched : list action) (updates : list Q) (encoded : bool)
    (download : string) (w : world) (r : report) :
  build_archive Task dir_of file_of answers (List.length tasks) tasks sched updates
                encoded download w = Some r ->
  exists order : list nat,
    Permutation order (seq 0 (List.length tasks)) /\
    let b := fold_left (complete Task dir_of file_of answers (List.length tasks) tasks)
                       order {| zip := []; completed := 0; page := w |} in
    r = if encoded
        then {| ended := Returned;
                final := set_progress 100
                           (emit (ClickArchive download (zip b))
                                 (fold_left on_update updates (page b)));
                built := Some (zip b) |}
        else throws (fold_left on_update updates (page b)).
Proof.
  unfold build_archive.
  set (f := pack_task Task dir_of file_of answers (List.length tasks)).
  set (b0 := {| zip := []; completed := 0; page := w |}).
  destruct (run (suspends Task) f 4 sched (mapWithConcurrency (suspends Task) f 4 tasks b0))
    as [s|] eqn:Hrun; [|discriminate].
  pose proof (inv_reachable _ _ _ _ (suspends Task) f 4 four_positive tasks b0 sched s Hrun)
    as Hinv.
  destruct (settlement_sound _ _ _ _ f 4 tasks b0 s
              (pack_task_never_rejects Task dir_of file_of answers tasks) Hinv)
    as [Hnf _].
  destruct (settlement_of s) as [|vs|] eqn:Hset; [discriminate| |contradiction].
  destruct (resolved_shared _ _ _ _ f 4 four_positive tasks b0 s vs Hinv Hset) as [Hperm Hshared].
  intros Hr. exists (settles (trace s)). split; [exact Hperm|].
  change (complete Task dir_of file_of answers (List.length tasks) tasks)
    with (item_step f tasks).
  cbv zeta. rewrite <- Hshared. destruct encoded; now injection Hr as <-.
Qed.

Lemma build_archive_distinct (sched : list action) (updates : list Q) (encoded : bool)
    (download : string) (w : world) (r : report) (z : archive) :
  build_archive Task dir_of file_of answers (List.length tasks) tasks sched updates
                encoded download w = Some r ->
  built r = Some z ->
  NoDup (paths z).
Proof.
  intros Hr Hz. destruct (build_archive_order _ _ _ _ _ _ Hr) as [order [_ Heq]].
  cbv zeta in Heq.
  assert (Hall : forall (l : list nat) (b : build),
             NoDup (paths (zip b)) ->
             NoDup (paths (zip (fold_left
                                  (complete Task dir_of file_of answers (List.length tasks) tasks)
                                  l b)))).
  { intros l. induction l as [|i l IH]; intros b Hb; simpl; [assumption|].
    apply IH. now apply complete_distinct. }
  subst r. destruct encoded; simpl in Hz; [|discriminate].
  injection Hz as <-. apply Hall. simpl. constructor.
Qed.

Lemma build_archive_single_download (sched : list action) (updates : list Q) (encoded : bool)
    (download : string) (w : world) (r : report) :
  build_archive Task dir_of file_of answers (List.length tasks) tasks sched updates
                encoded download w = Some r ->
  ended r = Returned ->
  exists z, built r = Some z /\
            transfers (log (final r)) = transfers (log w) ++ [ClickArchive download z].
Proof.
  intros Hr Hend.
  destruct (build_archive_spec _ _ _ _ _ _ _ _ _ _ _ Hr) as [b [_ [_ [_ [Ht [_ ->]]]]]].
  destruct encoded; [|discriminate]. exists (zip b). split; [reflexivity|].
  simpl. destruct (on_update_fold updates (page b)) as [_ [Ht' _]].
  rewrite !transfers_app, Ht', Ht. simpl. now rewrite app_nil_r.
Qed.

End ArchiveShape.

(** X10.  No two entries of an archive share a path.  Whatever archive
    either operation hands to the browser, its entries have pairwise
    different (folder, name) pairs: two files with the same base name in
    one folder end up as one entry. *)
Theorem archive_has_each_path_once :
  (forall folderPath folderName env w r z,
      createZipFromFolder folderPath folderName env w = Some r ->
      built r = Some z ->
      NoDup (paths z)) /\
  (forall env w r z,
      downloadAllVisible env w = Some r ->
      built r = Some z ->
      NoDup (paths z)).
Proof.
  split.
  - intros folderPath folderName env w r z. unfold createZipFromFolder.
    destruct (fetch (listing env)) as [res|]; [|intros [= <-]; discriminate].
    destruct (negb (fst res)); [intros [= <-]; discriminate|].
    destruct (read_body (snd res)) as [anchors|]; [|intros [= <-]; discriminate].
    destruct (Nat.eqb (List.length (listed_files anchors)) 0);
      [intros [= <-]; discriminate|].
    destruct (negb (jszip_loads env)); [intros [= <-]; discriminate|].
    destruct (showGlobalProgress w) as [w1|]; [|intros [= <-]; discriminate].
    apply build_archive_distinct.
  - intros env w r z. unfold downloadAllVisible.
    destruct (showGlobalProgress w) as [w1|]; [|intros [= <-]; discriminate].
    destruct (gather (a_tiles env) []) as [ts|]; [|intros [= <-]; discriminate].
    destruct (Nat.eqb (List.length ts) 0); [intros [= <-]; discriminate|].
    destruct (negb (a_jszip_loads env)); [intros [= <-]; discriminate|].
    apply build_archive_distinct.
Qed.

(** X11.  An operation that builds an archive gives the browser that
    archive and nothing else.  When an operation returns with the zip
    library loaded and at least one file found, what it handed to the
    browser is one download, the archive, under the name of the folder
    ([photos] when it has none) or [photos-all.zip]; no single file is
    downloaded and no pause is made. *)
Theorem archive_is_the_only_download :
  (forall folderPath folderName env w anchors r,
      jszip_loads env = true ->
      listing env = Status true (Some anchors) ->
      listed_files anchors <> [] ->
      createZipFromFolder folderPath folderName env w = Some r ->
      ended r = Returned ->
      exists z, built r = Some z /\
                transfers (log (final r)) =
                  transfers (log w) ++
                  [ClickArchive (or_default folderName "photos" +++ ".zip") z]) /\
  (forall env w tasks r,
      a_jszip_loads env = true ->
      gather (a_tiles env) [] = Ok tasks ->
      tasks <> [] ->
      downloadAllVisible env w = Some r ->
      ended r = Returned ->
      exists z, built r = Some z /\
                transfers (log (final r)) =
                  transfers (log w) ++ [ClickArchive "photos-all.zip" z]).
Proof.
  split.
  - intros folderPath folderName env w anchors r Hzip Hlist Hfiles Hr Hend.
    destruct (showGlobalProgress w) as [w1|] eqn:Hshow.
    + rewrite (createZipFromFolder_builds folderPath folderName env w w1 anchors
                 Hzip Hlist Hfiles Hshow) in Hr.
      rewrite <- (showGlobalProgress_log w w1 Hshow).
      exact (build_archive_single_download _ _ _ _ _ _ _ _ _ _ _ Hr Hend).
    + unfold createZipFromFolder in Hr. rewrite Hlist, Hzip in Hr. simpl in Hr.
      destruct (listed_files anchors) as [|f fs]; [contradiction|]. simpl in Hr.
      rewrite Hshow in Hr. injection Hr as <-. discriminate.
  - intros env w tasks r Hzip Hg Hne Hr Hend. unfold downloadAllVisible in Hr.
    destruct (showGlobalProgress w) as [w1|] eqn:Hshow; [|injection Hr as <-; discriminate].
    assert (Hlen : Nat.eqb (List.length tasks) 0 = false)
      by (destruct tasks; [contradiction|reflexivity]).
    rewrite Hg, Hzip, Hlen in Hr. cbn [negb] in Hr.
    rewrite <- (showGlobalProgress_log w w1 Hshow).
    exact (build_archive_single_download _ _ _ _ _ _ _ _ _ _ _ Hr Hend).
Qed.

(** *** Collecting the tasks of the batch *)

(** The tasks a tile contributes. *)
Definition tile_tasks (t : tile_info) : list task :=
  match t_listing t with
  | Status true (Some anchors) =>
      map (fun f => {| path := t_path t; file := f; folder := t_name t |})
          (listed_files anchors)
  | _ => []
  end.

(** The request for the tile's folder fails, or it answers ok with a
    body that cannot be read. *)
Definition unreadable (t : tile_info) : bool :=
  match t_listing t with
  | NetworkError | Status true None => true
  | _ => false
  end.

Lemma gather_closed (tiles : list tile_info) :
  forall acc,
    gather tiles acc =
    if existsb unreadable tiles then Throw else Ok (acc ++ flat_map tile_tasks tiles).
Proof.
  induction tiles as [|t rest IH]; intros acc; simpl.
  - now rewrite app_nil_r.
  - unfold unreadable at 1, tile_tasks at 1.
    destruct (t_listing t) as [|[|] [a|]]; simpl; try reflexivity.
    + rewrite IH. destruct (existsb unreadable rest); [reflexivity|].
      now rewrite <- app_assoc.
    + apply IH.
    + apply IH.
Qed.

(** X12.  Which tasks the batch collects.  [downloadAllVisible] collects
    the files of the tiles in the order of the tiles, and within a tile
    in the order of its listing; a tile whose folder answers with a
    status that is not ok contributes nothing and does not stop the
    collection, while a tile whose request fails, or whose page cannot
    be read, makes the collection throw. *)
Theorem gather_collects_in_tile_order (tiles : list tile_info) :
  (gather tiles [] = Throw <->
   exists t, In t tiles /\
             (t_listing t = NetworkError \/ t_listing t = Status true None)) /\
  (forall tasks, gather tiles [] = Ok tasks -> tasks = flat_map tile_tasks tiles) /\
  (forall t body, In t tiles -> t_listing t = Status false body -> tile_tasks t = []).
Proof.
  rewrite gather_closed. split; [|split].
  - destruct (existsb unreadable tiles) eqn:E.
    + split; [intros _|reflexivity]. apply existsb_exists in E as [t [Hin Hu]].
      exists t. split; [assumption|]. unfold unreadable in Hu.
      destruct (t_listing t) as [|[|] [a|]]; try discriminate; auto.
    + split; [discriminate|]. intros [t [Hin Hu]].
      assert (Ht : existsb unreadable tiles = true).
      { apply existsb_exists. exists t. split; [assumption|]. unfold unreadable.
        destruct Hu as [-> | ->]; reflexivity. }
      congruence.
  - intros ts. destruct (existsb unreadable tiles); [discriminate|]. now intros [= <-].
  - intros t body _ Hl. unfold tile_tasks. now rewrite Hl.
Qed.

(** X13.  One folder out of reach stops the whole batch.  When the request
    for the folder of some tile fails (or its page cannot be read),
    [downloadAllVisible] rejects without an alert, a download or a write
    to the indicator, whatever the other folders hold. *)
Theorem unreadable_folder_aborts_batch (env : all_env) (w : world) (t : tile_info) :
  In t (a_tiles env) ->
  t_listing t = NetworkError \/ t_listing t = Status true None ->
  exists w', downloadAllVisible env w = Some (throws w') /\ log w' = log w.
Proof.
  intros Hin Hu. unfold downloadAllVisible.
  destruct (showGlobalProgress w) as [w1|] eqn:Hshow; [|now exists w].
  rewrite gather_closed.
  assert (Ht : existsb unreadable (a_tiles env) = true).
  { apply existsb_exists. exists t. split; [assumption|]. unfold unreadable.
    destruct Hu as [-> | ->]; reflexivity. }
  rewrite Ht. exists w1. split; [reflexivity|]. now apply showGlobalProgress_log.
Qed.

(** *** The batch without the zip library *)

Definition batch_downloads (tasks : list task) (first total : nat) : list effect :=
  flat_map (fun it => [Click (path (snd it) +++ file (snd it))
                             (suggested_name (folder (snd it)) (file (snd it)));
                       Progress (percent (fst it) total);
                       Sleep 200])
           (combine (seq first (List.length tasks)) tasks).

Lemma download_one_log (total : nat) (tasks : list task) :
  forall (w : world) (d : nat),
    log (fst (fold_left (download_one total) tasks (w, d))) =
    log w ++ batch_downloads tasks (S d) total.
Proof.
  unfold batch_downloads.
  induction tasks as [|t tasks IH]; intros w d; simpl.
  - now rewrite app_nil_r.
  - unfold download_one at 2. simpl. rewrite IH. simpl.
    rewrite <- !app_assoc. reflexivity.
Qed.

(** X14.  The batch falls back to single downloads.  When the zip library
    cannot be loaded, [downloadAllVisible] on M collected files returns
    after, for each file in order, a click on its link (suggested name:
    folder title, white space collapsed to underscores, underscore, base
    name), the counter written to the indicator as
    [Math.round((done / M) * 100)], quotient and product computed in
    binary64, and a pause of 200 ms; then it sets the indicator to 100.
    Nothing else happens and no archive is built. *)
Theorem batch_falls_back_to_single_downloads (env : all_env) (w : world)
    (tasks : list task) :
  a_jszip_loads env = false ->
  indicator_available w ->
  gather (a_tiles env) [] = Ok tasks ->
  tasks <> [] ->
  exists r,
    downloadAllVisible env w = Some r /\
    ended r = Returned /\
    built r = None /\
    log (final r) =
      log w ++ batch_downloads tasks 1 (List.length tasks) ++ [Progress 100%Z] /\
    bar (final r) = Some 100%Z.
Proof.
  intros Hzip Hind Hg Hne.
  destruct (showGlobalProgress_available w Hind) as [w1 [Hshow Hlog]].
  unfold downloadAllVisible. rewrite Hshow, Hg, Hzip.
  destruct tasks as [|t ts] eqn:E; [contradiction|].
  rewrite <- E. replace (Nat.eqb (List.length tasks) 0) with false by (now rewrite E).
  simpl negb. cbv iota. eexists. split; [reflexivity|].
  split; [reflexivity|]. split; [reflexivity|]. split; [|reflexivity].
  simpl. rewrite download_one_log, Hlog, <- app_assoc. reflexivity.
Qed.

(** *** Operations that find nothing, or no place for the indicator *)

(** X15.  Without a file, nothing is downloaded.  When the listing of the
    folder does not deliver a file (the request fails, the status is
    not ok, the page cannot be read or has no file link),
    [createZipFromFolder] builds no archive, hands nothing to the
    browser and neither creates nor writes the indicator: it rejects
    with the page as it was, or returns after one alert. *)
Theorem no_file_means_no_download (folderPath folderName : string) (env : zip_env)
    (w : world) :
  (forall anchors, listing env = Status true (Some anchors) -> listed_files anchors = []) ->
  exists r,
    createZipFromFolder folderPath folderName env w = Some r /\
    built r = None /\
    bar (final r) = bar w /\
    ((ended r = Threw /\ final r = w) \/
     (ended r = Returned /\ exists msg, log (final r) = log w ++ [Alert msg])).
Proof.
  intros Hnone. unfold createZipFromFolder.
  destruct (listing env) as [|[|] [anchors|]] eqn:Hl; simpl.
  - exists (throws w). repeat split. now left.
  - rewrite (Hnone anchors eq_refl). simpl. eexists. split; [reflexivity|].
    repeat split. right. split; [reflexivity|]. now eexists.
  - exists (throws w). repeat split. now left.
  - eexists. split; [reflexivity|]. repeat split. right. split; [reflexivity|]. now eexists.
  - eexists. split; [reflexivity|]. repeat split. right. split; [reflexivity|]. now eexists.
Qed.

(** X16.  The page without a place for the indicator.  When the indicator
    neither exists nor can be created, [createZipFromFolder] with the
    zip library loaded rejects before it requests a single file, and
    [downloadAllVisible] rejects before it lists a single folder; the
    sequential fallback of [createZipFromFolder] goes ahead and
    downloads every file, writing no progress. *)
Theorem without_a_place_for_the_indicator (folderPath folderName : string)
    (env : zip_env) (w : world) (anchors : attributes) :
  ~ indicator_available w ->
  listing env = Status true (Some anchors) ->
  listed_files anchors <> [] ->
  (jszip_loads env = true ->
   createZipFromFolder folderPath folderName env w = Some (throws w)) /\
  (jszip_loads env = false ->
   createZipFromFolder folderPath folderName env w =
   Some (returns (downloadFilesSequentially (listed_files anchors) folderPath folderName w)) /\
   log (downloadFilesSequentially (listed_files anchors) folderPath folderName w) =
     log w ++ single_downloads (listed_files anchors) folderPath folderName) /\
  (forall all : all_env, downloadAllVisible all w = Some (throws w)).
Proof.
  intros Hind Hlist Hfiles.
  pose proof (showGlobalProgress_unavailable w Hind) as Hshow.
  assert (Hlen : Nat.eqb (List.length (listed_files anchors)) 0 = false).
  { destruct (listed_files anchors); [contradiction|reflexivity]. }
  split; [|split].
  - intros Hzip. unfold createZipFromFolder. rewrite Hlist, Hzip. simpl.
    now rewrite Hlen, Hshow.
  - intros Hzip. split.
    + unfold createZipFromFolder. rewrite Hlist, Hzip. simpl. rewrite Hlen.
      unfold try_set_progress at 2. rewrite Hshow.
      unfold try_set_progress.
      destruct (downloadFilesSequentially_log (listed_files anchors) folderPath folderName w)
        as [_ [Hb Hp]].
      assert (Hshow2 : showGlobalProgress
                         (downloadFilesSequentially (listed_files anchors) folderPath
                            folderName w) = Throw).
      { apply showGlobalProgress_unavailable. unfold indicator_available.
        rewrite Hb, Hp. exact Hind. }
      now rewrite Hshow2.
    + apply downloadFilesSequentially_log.
  - intros all. unfold downloadAllVisible. now rewrite Hshow.
Qed.

(** *** The two ways of reading a listing *)

Lemma listed_files_closed (l : list string) :
  filter (fun h => negb (endsWith "/" h)) (filter (fun h => negb (endsWith "../" h)) l) =
  filter (fun h => negb (endsWith "/" h)) l.
Proof.
  induction l as [|h l IH]; simpl; [reflexivity|].
  destruct (endsWith "../" h) eqn:E2; simpl.
  - rewrite (ListingFacts.endsWith_parent_slash h E2). simpl. exact IH.
  - now rewrite IH.
Qed.

Lemma file_links_closed (l : list string) :
  filter (fun h => negb (endsWith "/" h))
         (filter (fun h => negb (startsWith "?" h) && negb (String.eqb h "../")) l) =
  filter (fun h => negb (startsWith "?" h)) (filter (fun h => negb (endsWith "/" h)) l).
Proof.
  induction l as [|h l IH]; simpl; [reflexivity|].
  destruct (endsWith "/" h) eqn:E1; simpl.
  - destruct (negb (startsWith "?" h) && negb (String.eqb h "../")); simpl;
      [rewrite E1; simpl|]; exact IH.
  - assert (E3 : String.eqb h "../" = false).
    { destruct (String.eqb h "../") eqn:E3; [|reflexivity].
      apply String.eqb_eq in E3. subst h. discriminate E1. }
    rewrite E3, andb_true_r. destruct (startsWith "?" h); simpl.
    + exact IH.
    + rewrite E1. simpl. now rewrite IH.
Qed.

(** X17.  The gallery and the archive read a listing differently.  The
    files [createZipFromFolder] and [downloadAllVisible] take from a
    listing are the non-empty [href]s that do not end with a slash (the
    test on [../] excludes nothing that one does not); the files the
    anchor loop of [loadFolderIndex] shows for the same listing are
    these less the links that start with [?]: sort links of a generated
    index are not shown, but are downloaded. *)
Theorem archive_includes_query_links (anchors : attributes) :
  listed_files anchors = filter (fun h => negb (endsWith "/" h)) (present anchors) /\
  ListingFacts.file_links anchors =
    filter (fun h => negb (startsWith "?" h)) (listed_files anchors) /\
  RemoteListing.files
    (fold_left classify_anchor anchors {| RemoteListing.files := []; folders := [] |}) =
    filter (fun h => negb (startsWith "?" h)) (listed_files anchors).
Proof.
  assert (H1 : listed_files anchors =
               filter (fun h => negb (endsWith "/" h)) (present anchors))
    by apply listed_files_closed.
  assert (H2 : ListingFacts.file_links anchors =
               filter (fun h => negb (startsWith "?" h)) (listed_files anchors)).
  { rewrite H1. unfold ListingFacts.file_links, ListingFacts.link_targets.
    apply file_links_closed. }
  split; [exact H1|]. split; [exact H2|].
  rewrite ListingFacts.fold_classify. simpl. exact H2.
Qed.

End Operations.

Arguments e_dir {Blob} e.
Arguments e_name {Blob} e.
Arguments e_blob {Blob} e.
Arguments Alert {Blob} msg.
Arguments Click {Blob} href download.
Arguments ClickArchive {Blob} download content.
Arguments Sleep {Blob} ms.
Arguments Progress {Blob} value.
Arguments Warn {Blob} what.
Arguments log {Blob} w.
Arguments bar {Blob} w.
Arguments placeholder {Blob} w.
Arguments ended {Blob} r.
Arguments final {Blob} r.
Arguments built {Blob} r.
Arguments jszip_loads {Blob} z.
Arguments listing {Blob} z.
Arguments blobs {Blob} z.
Arguments schedule {Blob} z.
Arguments encoding {Blob} z.
Arguments encoded {Blob} z.
Arguments createZipFromFolder {Blob} folderPath folderName env w.
Arguments downloadAllVisible {Blob} env w.
Arguments writes {Blob} l.
Arguments transfers {Blob} l.
Arguments alerts {Blob} l.
Arguments indicator_available {Blob} w.
Arguments fetchBlob {Blob} r.
Arguments suggested_name folderName f : assert.

(** *** The folder of the design document: a.jpg and b.jpg

    A page that has the placeholder of the indicator and nothing else
    yet; file contents are strings. *)

Definition blank_page : world string :=
  {| log := []; bar := None; placeholder := true |}.

Definition trip_listing : fetched attributes :=
  Status true (Some [Some "../"; Some "a.jpg"; Some "b.jpg"]).

(** Both files arrive; the encoder reports 50 and 100 percent. *)
Definition trip_env : zip_env string :=
  {| jszip_loads := true;
     listing := trip_listing;
     blobs := fun i => Status true (Some (if Nat.eqb i 0 then "AAAA" else "BBBB"));
     schedule := [Settle 0; RunJob; Settle 1; RunJob];
     encoding := [50 # 1; 100 # 1]%Q;
     encoded := true |}.

(** The request for b.jpg fails, and fails first. *)
Definition trip_env_b_fails : zip_env string :=
  {| jszip_loads := true;
     listing := trip_listing;
     blobs := fun i => if Nat.eqb i 0 then Status true (Some "AAAA") else NetworkError;
     schedule := [Settle 1; RunJob; Settle 0; RunJob];
     encoding := [50 # 1; 100 # 1]%Q;
     encoded := true |}.

(** The zip library does not load. *)
Definition trip_env_no_zip : zip_env string :=
  {| jszip_loads := false;
     listing := trip_listing;
     blobs := fun i => NetworkError;
     schedule := [];
     encoding := [];
     encoded := false |}.

Lemma blank_page_available : indicator_available blank_page.
Proof. now right. Qed.

Lemma trip_files : listed_files [Some "../"; Some "a.jpg"; Some "b.jpg"] = ["a.jpg"; "b.jpg"].
Proof. reflexivity. Qed.


(** And an operation that finds no file leaves the indicator alone. *)
Example no_file_no_progress :
  createZipFromFolder "/photos/empty/" "empty"
    {| jszip_loads := true; listing := Status true (Some [Some "../"]);
       blobs := fun i => NetworkError; schedule := []; encoding := []; encoded := true |}
    blank_page
  = Some {| ended := Returned;
            final := {| log := [Alert "No files found to zip"]; bar := None;
                        placeholder := true |};
            built := None |}.
Proof. vm_compute. reflexivity. Qed.


(** The instance of C4 the design document gives: b.jpg fails. *)
Lemma failed_fetch_is_left_out_witness :
  exists r,
    createZipFromFolder "/photos/trip/" "trip" trip_env_b_fails blank_page = Some r /\
    built r = Some [{| e_dir := "trip"; e_name := "a.jpg"; e_blob := "AAAA" |}] /\
    ended r = Returned /\
    bar (final r) = Some 100%Z /\
    alerts (log (final r)) = [].
Proof.
  eexists. split; [vm_compute; reflexivity|]. split; [reflexivity|].
  destruct (failed_fetch_is_left_out string "/photos/trip/" "trip" trip_env_b_fails blank_page
              [Some "../"; Some "a.jpg"; Some "b.jpg"]
              eq_refl eq_refl) as [_ H].
  - discriminate.
  - exact blank_page_available.
  - reflexivity.
  - assert (Hrun : createZipFromFolder "/photos/trip/" "trip" trip_env_b_fails blank_page =
                   Some {| ended := Returned;
                           final := {| log := [Warn "skip"; Progress 50; Progress 100;
                                               Progress 50; Progress 100;
                                               ClickArchive "trip.zip"
                                                 [{| e_dir := "trip"; e_name := "a.jpg";
                                                     e_blob := "AAAA" |}];
                                               Progress 100];
                                       bar := Some 100%Z; placeholder := true |};
                           built := Some [{| e_dir := "trip"; e_name := "a.jpg";
                                             e_blob := "AAAA" |}] |})
      by (vm_compute; reflexivity).
    destruct (H _ Hrun) as [He [Hb [Ha _]]]. auto.
Defined.

(** With both files fetched the archive has both. *)
Example both_files_packed :
  option_map built (createZipFromFolder "/photos/trip/" "trip" trip_env blank_page) =
  Some (Some [{| e_dir := "trip"; e_name := "a.jpg"; e_blob := "AAAA" |};
              {| e_dir := "trip"; e_name := "b.jpg"; e_blob := "BBBB" |}]).
Proof. vm_compute. reflexivity. Qed.

(** An instance of C6. *)
Lemma fallback_downloads_one_by_one_witness :
  exists r,
    createZipFromFolder "/photos/trip/" "Lake Trip" trip_env_no_zip blank_page = Some r /\
    ended r = Returned /\
    built r = None /\
    transfers (log (final r)) =
      [Click "/photos/trip/a.jpg" "Lake_Trip_a.jpg"; Sleep 250;
       Click "/photos/trip/b.jpg" "Lake_Trip_b.jpg"; Sleep 250].
Proof.
  destruct (fallback_downloads_one_by_one string "/photos/trip/" "Lake Trip"
              trip_env_no_zip blank_page [Some "../"; Some "a.jpg"; Some "b.jpg"]
              eq_refl eq_refl) as [r [Hr [He [Hb [Ht _]]]]].
  exists r. split; [exact Hr|]. split; [exact He|]. split; [exact Hb|].
  rewrite Ht. vm_compute. reflexivity.
Defined.

(** *** Instances of the further facts *)

(** A folder that links to a.jpg twice, once through a sub-directory. *)
Definition twice_env : zip_env string :=
  {| jszip_loads := true;
     listing := Status true (Some [Some "a.jpg"; Some "old/a.jpg"]);
     blobs := fun i => Status true (Some (if Nat.eqb i 0 then "AAAA" else "BBBB"));
     schedule := [Settle 0; RunJob; Settle 1; RunJob];
     encoding := [];
     encoded := true |}.

Lemma archive_has_each_path_once_witness :
  exists r z,
    createZipFromFolder "/photos/trip/" "trip" twice_env blank_page = Some r /\
    built r = Some z /\
    z = [{| e_dir := "trip"; e_name := "a.jpg"; e_blob := "BBBB" |}] /\
    NoDup (paths string z).
Proof.
  eexists. eexists. split; [vm_compute; reflexivity|]. split; [reflexivity|].
  split; [reflexivity|].
  destruct (archive_has_each_path_once string) as [H _].
  apply (H "/photos/trip/" "trip" twice_env blank_page
           {| ended := Returned;
              final := {| log := [Progress 50; Progress 100;
                                  ClickArchive "trip.zip"
                                    [{| e_dir := "trip"; e_name := "a.jpg";
                                        e_blob := "BBBB" |}];
                                  Progress 100];
                          bar := Some 100%Z; placeholder := true |};
              built := Some [{| e_dir := "trip"; e_name := "a.jpg"; e_blob := "BBBB" |}] |}).
  - vm_compute. reflexivity.
  - reflexivity.
Defined.

Lemma archive_is_the_only_download_witness :
  exists r z,
    createZipFromFolder "/photos/trip/" "trip" trip_env blank_page = Some r /\
    built r = Some z /\
    transfers (log (final r)) = [ClickArchive "trip.zip" z].
Proof.
  destruct (archive_is_the_only_download string) as [H _].
  assert (Hrun : createZipFromFolder "/photos/trip/" "trip" trip_env blank_page =
                 Some {| ended := Returned;
                         final := {| log := [Progress 50; Progress 100;
                                             Progress 50; Progress 100;
                                             ClickArchive "trip.zip"
                                               [{| e_dir := "trip"; e_name := "a.jpg";
                                                   e_blob := "AAAA" |};
                                                {| e_dir := "trip"; e_name := "b.jpg";
                                                   e_blob := "BBBB" |}];
                                             Progress 100];
                                     bar := Some 100%Z; placeholder := true |};
                         built := Some [{| e_dir := "trip"; e_name := "a.jpg";
                                           e_blob := "AAAA" |};
                                        {| e_dir := "trip"; e_name := "b.jpg";
                                           e_blob := "BBBB" |}] |})
    by (vm_compute; reflexivity).
  destruct (H "/photos/trip/" "trip" trip_env blank_page
              [Some "../"; Some "a.jpg"; Some "b.jpg"] _ eq_refl eq_refl
              ltac:(discriminate) Hrun eq_refl) as [z [Hz Ht]].
  eexists. exists z. split; [exact Hrun|]. split; [exact Hz|]. exact Ht.
Defined.

(** The root page with two folders, the second one out of reach. *)
Definition two_tiles (second : fetched attributes) : list tile_info :=
  [ {| t_name := "Lake Trip"; t_path := "/photos/Lake%20Trip/";
       t_listing := Status true (Some [Some "../"; Some "a.jpg"; Some "raw/"]) |};
    {| t_name := "paris"; t_path := "/photos/paris/"; t_listing := second |} ].

Definition batch_env (second : fetched attributes) : all_env string :=
  {| a_jszip_loads := false;
     a_tiles := two_tiles second;
     a_blobs := fun i => NetworkError;
     a_schedule := [];
     a_encoding := [];
     a_encoded := false |}.

Lemma unreadable_folder_aborts_batch_witness :
  exists w',
    downloadAllVisible (batch_env NetworkError) blank_page = Some (throws string w') /\
    log w' = [].
Proof.
  apply (unreadable_folder_aborts_batch string (batch_env NetworkError) blank_page
           {| t_name := "paris"; t_path := "/photos/paris/"; t_listing := NetworkError |}).
  - right. left. reflexivity.
  - left. reflexivity.
Defined.

(** A folder that answers 404 is passed over. *)
Example missing_folder_is_skipped :
  gather (two_tiles (Status false None)) [] =
  Ok [{| path := "/photos/Lake%20Trip/"; file := "a.jpg"; folder := "Lake Trip" |}].
Proof. reflexivity. Qed.

Lemma batch_falls_back_to_single_downloads_witness :
  exists r,
    downloadAllVisible (batch_env (Status true (Some [Some "b.jpg"]))) blank_page = Some r /\
    ended r = Returned /\
    built r = None /\
    log (final r) =
      [Click "/photos/Lake%20Trip/a.jpg" "Lake_Trip_a.jpg"; Progress 50; Sleep 200;
       Click "/photos/paris/b.jpg" "paris_b.jpg"; Progress 100; Sleep 200;
       Progress 100] /\
    bar (final r) = Some 100%Z.
Proof.
  destruct (batch_falls_back_to_single_downloads string
              (batch_env (Status true (Some [Some "b.jpg"]))) blank_page
              [{| path := "/photos/Lake%20Trip/"; file := "a.jpg"; folder := "Lake Trip" |};
               {| path := "/photos/paris/"; file := "b.jpg"; folder := "paris" |}]
              eq_refl blank_page_available eq_refl ltac:(discriminate))
    as [r [Hr [He [Hb [Hl Hbar]]]]].
  exists r. split; [exact Hr|]. split; [exact He|]. split; [exact Hb|].
  split; [|exact Hbar]. rewrite Hl. vm_compute. reflexivity.
Defined.

Lemma no_file_means_no_download_witness :
  exists r,
    createZipFromFolder "/photos/gone/" "gone"
      {| jszip_loads := true; listing := Status false None;
         blobs := fun i => NetworkError; schedule := []; encoding := []; encoded := true |}
      blank_page = Some r /\
    built r = None /\
    bar (final r) = None.
Proof.
  destruct (no_file_means_no_download string "/photos/gone/" "gone"
              {| jszip_loads := true; listing := Status false None;
                 blobs := fun i => NetworkError; schedule := []; encoding := [];
                 encoded := true |}
              blank_page ltac:(intros anchors H; discriminate H))
    as [r [Hr [Hb [Hbar _]]]].
  exists r. split; [exact Hr|]. split; [exact Hb|]. exact Hbar.
Defined.

(** A page that has no placeholder for the indicator. *)
Definition bare_page : world string :=
  {| log := []; bar := None; placeholder := false |}.

Lemma bare_page_unavailable : ~ indicator_available bare_page.
Proof. intros [H|H]; [now apply H|discriminate H]. Qed.

Lemma without_a_place_for_the_indicator_witness :
  createZipFromFolder "/photos/trip/" "trip" trip_env bare_page = Some (throws string bare_page) /\
  downloadAllVisible (batch_env NetworkError) bare_page = Some (throws string bare_page).
Proof.
  destruct (without_a_place_for_the_indicator string "/photos/trip/" "trip" trip_env bare_page
              [Some "../"; Some "a.jpg"; Some "b.jpg"]
              bare_page_unavailable eq_refl ltac:(discriminate)) as [Hzip [_ Hall]].
  split; [exact (Hzip eq_refl)|exact (Hall (batch_env NetworkError))].
Defined.

(** A generated index with its sort links: the gallery shows two files,
    the archive code takes four. *)
Example sort_links_are_downloaded :
  listed_files [Some "?C=N;O=D"; Some "?C=M;O=A"; Some "../"; Some "a.jpg"; Some "b.jpg"] =
    ["?C=N;O=D"; "?C=M;O=A"; "a.jpg"; "b.jpg"] /\
  ListingFacts.file_links
    [Some "?C=N;O=D"; Some "?C=M;O=A"; Some "../"; Some "a.jpg"; Some "b.jpg"] =
    ["a.jpg"; "b.jpg"].
Proof. split; reflexivity. Qed.

(** *** The percentage, as the machine computes it *)

(** 23 of 40: the quotient rounds to a binary64 number just below
    0.575, its product with 100 to one just below 57.5, and [Math.round]
    gives 57, where the exact fraction would give 58. *)
Example percent_rounds_as_the_machine_does :
  percent 23 40 = 57%Z /\ js_round ((23 # 40) * 100) = 58%Z /\
  percent 1 3 = 33%Z /\ percent 2 3 = 67%Z /\ percent 40 40 = 100%Z.
Proof. vm_compute. repeat split. Qed.

(** The product [(c / n) * 100] computed by the binary64 arithmetic of
    the machine, and its exact value. *)
Definition machine_product (c n : nat) : PrimFloat.float :=
  PrimFloat.mul
    (PrimFloat.div (PrimFloat.of_uint63 (Uint63.of_Z (Z.of_nat c)))
                   (PrimFloat.of_uint63 (Uint63.of_Z (Z.of_nat n))))
    (PrimFloat.of_uint63 (Uint63.of_Z 100)).

Definition float_value (f : PrimFloat.float) : Q :=
  match FloatOps.Prim2SF f with
  | SpecFloat.S754_finite false m e => (inject_Z (Zpos m) * pow2 e)%Q
  | _ => 0%Q
  end.

(** For every total up to 64 and every count up to the total, the
    rounding defined here gives the number the machine computes. *)
Example binary64_agrees_with_the_machine :
  forallb (fun n =>
             forallb (fun c =>
                        Qeq_bool (float_value (machine_product c n))
                                 (binary64 (binary64 (Z.of_nat c # Pos.of_nat n) * 100)))
                     (seq 0 (S n)))
          (seq 1 64) = true.
Proof. vm_compute. reflexivity. Qed.

(** A folder of forty files without the zip library: the value written
    after the 23rd download is 57. *)
Definition forty_files : list (option string) :=
  map (fun i => Some ("f" +++ String (ascii_of_nat (48 + i / 10))
                            (String (ascii_of_nat (48 + i mod 10)) ".jpg")))
      (seq 1 40).

Example batch_of_forty_writes_57 :
  option_map (fun r => nth 22 (writes (log (final r))) 0%Z)
    (downloadAllVisible
       {| a_jszip_loads := false;
          a_tiles := [{| t_name := "trip"; t_path := "/photos/trip/";
                         t_listing := Status true (Some forty_files) |}];
          a_blobs := fun i => NetworkError (B := string);
          a_schedule := []; a_encoding := []; a_encoded := false |}
       blank_page) = Some 57%Z.
Proof. vm_compute. reflexivity. Qed.

End Archive.

(* ================================================================== *)
(** ** More on locating a pre-built archive *)

Module ResolverFacts.
Import JsString ZipResolver.

(** What a click may end with, given the answers of the server: a
    download of the URL probed last, whose probe succeeded after all
    earlier ones had failed, or the build in the page for this very
    folder once every probe has failed. *)
Definition justified (probe : string -> head_result) (path name : string)
    (r : click_result) : Prop :=
  match action r with
  | Download href _ =>
      head_ok (probe href) = true /\
      exists pre, probed r = pre ++ [href] /\ Forall (fails probe) pre
  | ClientZip p n => p = path /\ n = name /\ Forall (fails probe) (probed r)
  end.

Lemma resolve_generic_justified probe before cs attr path name :
  Forall (fails probe) before ->
  justified probe path name (resolve_generic probe before cs attr path name) /\
  List.length (probed (resolve_generic probe before cs attr path name))
    <= List.length before + List.length cs /\
  (cs <> [] ->
   List.length before < List.length (probed (resolve_generic probe before cs attr path name))).
Proof.
  intros Hbefore. unfold resolve_generic, justified.
  destruct (findAvailableZip_prefix probe cs) as [rest [Heq Hres]].
  destruct (findAvailableZip probe cs) as [log [url|]]; simpl in *.
  - destruct Hres as [Hok [pre [-> Hpre]]]. split; [|split].
    + split; [assumption|]. exists (before ++ pre). split; [now rewrite app_assoc|].
      apply Forall_app. auto.
    + rewrite Heq, !length_app. lia.
    + intros _. rewrite !length_app. simpl. lia.
  - destruct Hres as [-> Hall]. rewrite app_nil_r in Heq. subst log. split; [|split].
    + repeat split. apply Forall_app. auto.
    + rewrite length_app. lia.
    + intros Hne. rewrite length_app. destruct cs; [contradiction|simpl; lia].
Qed.

(** X30.  [findAvailableZip] on any list of candidates.  It returns a URL
    exactly when some candidate answers ok, and then the first such one
    in the order of the list, having probed the candidates up to it and
    no later one; it returns null exactly when no candidate answers ok
    (a request that fails counts like a status that is not ok), having
    probed them all. *)
Theorem findAvailableZip_returns_first_existing
    (probe : string -> head_result) (cs : list string) :
  (forall url,
      snd (findAvailableZip probe cs) = Some url <->
      exists pre post, cs = pre ++ url :: post /\ Forall (fails probe) pre /\
                       head_ok (probe url) = true) /\
  (forall url pre post,
      cs = pre ++ url :: post -> Forall (fails probe) pre -> head_ok (probe url) = true ->
      fst (findAvailableZip probe cs) = pre ++ [url]) /\
  (snd (findAvailableZip probe cs) = None <-> Forall (fails probe) cs) /\
  (snd (findAvailableZip probe cs) = None -> fst (findAvailableZip probe cs) = cs).
Proof.
  destruct (findAvailableZip_prefix probe cs) as [rest [Heq Hres]].
  split; [|split; [|split]].
  - intros url. split.
    + intros Hsome. rewrite Hsome in Hres. destruct Hres as [Hok [pre [Hlog Hpre]]].
      exists pre, rest. split; [|auto]. rewrite Heq at 1. rewrite Hlog, <- app_assoc.
      reflexivity.
    + intros [pre [post [-> [Hpre Hok]]]].
      now rewrite (findAvailableZip_first probe pre url post Hpre Hok).
  - intros url pre post -> Hpre Hok.
    now rewrite (findAvailableZip_first probe pre url post Hpre Hok).
  - split.
    + intros Hnone. rewrite Hnone in Hres. tauto.
    + intros Hall. now rewrite (findAvailableZip_none probe cs Hall).
  - intros Hnone. rewrite Hnone in Hres. destruct Hres as [-> _].
    now rewrite app_nil_r in Heq.
Qed.

(** X18.  Neither "Download ZIP" handler sends the browser to an archive
    it has not seen.  On a folder tile and on a folder page alike, for
    every name, path and server: a click issues between one and five
    HEAD requests; if it ends in a download, the URL downloaded is the
    one probed last, its probe succeeded and every earlier probe had
    failed; if it ends in [createZipFromFolder], every probe had failed
    and the folder zipped is the handler's own. *)
Theorem clicks_download_only_what_exists
    (name path : string) (probe : string -> head_result) :
  (justified probe path name (folderTile_zipClick name path probe) /\
   1 <= List.length (probed (folderTile_zipClick name path probe)) <= 5) /\
  (justified probe path name (renderFolderPage_zipClick path name probe) /\
   1 <= List.length (probed (renderFolderPage_zipClick path name probe)) <= 5).
Proof.
  assert (Hcs : tile_candidates name path <> []) by discriminate.
  assert (Hps : page_candidates path name <> []) by discriminate.
  split.
  - unfold folderTile_zipClick.
    destruct (is_special name).
    + destruct (head_ok (probe minnesotaZipPath)) eqn:Hm.
      * split; [|simpl; lia]. unfold justified. simpl. split; [assumption|].
        exists []. split; [reflexivity|constructor].
      * destruct (resolve_generic_justified probe [minnesotaZipPath]
                    (tile_candidates name path) (or_default name "photos" +++ ".zip")
                    path name) as [Hj [Hle Hge]].
        { constructor; [exact Hm|constructor]. }
        split; [exact Hj|]. specialize (Hge Hcs). simpl in Hle, Hge. lia.
    + destruct (resolve_generic_justified probe [] (tile_candidates name path)
                  (or_default name "photos" +++ ".zip") path name) as [Hj [Hle Hge]].
      { constructor. }
      split; [exact Hj|]. specialize (Hge Hcs). simpl in Hle, Hge. lia.
  - unfold renderFolderPage_zipClick.
    destruct (head_ok (probe minnesotaZipPath)) eqn:Hm.
    + split; [|simpl; lia]. unfold justified. simpl. split; [assumption|].
      exists []. split; [reflexivity|constructor].
    + destruct (resolve_generic_justified probe [minnesotaZipPath]
                  (page_candidates path name) (or_default name "photos" +++ ".zip")
                  path name) as [Hj [Hle Hge]].
      { constructor; [exact Hm|constructor]. }
      split; [exact Hj|]. specialize (Hge Hps). simpl in Hle, Hge. lia.
Qed.

End ResolverFacts.

(* ================================================================== *)
(** ** Rendering: the contents of a tile, and the folder page *)

Module FolderPage.
Import JsString ZipResolver RemoteListing ListingFacts.

(** *** renderFolderContents *)

(** What is put into the list: a nested folder tile, built by
    [folderTile(name, path)], or a file with its thumbnail, its caption
    and the two links "View" and "Download" (both to [href]). *)
Inductive node : Type :=
| NestedTile (name path : string)
| FileItem (src alt href download : string).

Inductive contents_view : Type :=
| NoContent                          (* "No content available" *)
| FolderList (nodes : list node)
| EmptyFolder.                       (* "This folder is empty" *)

(** [renderFolderContents(container, data, basePath)], on an index whose
    files are strings (as in every listing [loadFolderIndex] builds
    itself; [f.thumb] is undefined on a string).  [None] is a falsy
    [data]. *)
Definition renderFolderContents (data : option listing) (basePath : string) : contents_view :=
  match data with
  | None => NoContent
  | Some d =>
      let tiles := map (fun n => NestedTile n (basePath +++ n +++ "/")) (folders d) in
      match files d with
      | [] => match folders d with
              | [] => EmptyFolder
              | _ => FolderList tiles
              end
      | fs => FolderList
                (tiles ++ map (fun f => FileItem (basePath +++ f) f (basePath +++ f) f) fs)
      end
  end.

Definition nodes_of (v : contents_view) : list node :=
  match v with
  | FolderList ns => ns
  | _ => []
  end.

(** *** decodeURIComponent *)

Definition hex_value (c : ascii) : option nat :=
  let n := nat_of_ascii c in
  if (48 <=? n) && (n <=? 57) then Some (n - 48)
  else if (65 <=? n) && (n <=? 70) then Some (n - 55)
  else if (97 <=? n) && (n <=? 102) then Some (n - 87)
  else None.

(** The byte of an escape [%XY] at the head of [s], and what follows. *)
Definition escaped_byte (s : string) : option (nat * string) :=
  match s with
  | String c (String h (String l rest)) =>
      if Ascii.eqb c "%" then
        match hex_value h, hex_value l with
        | Some a, Some b => Some (16 * a + b, rest)
        | _, _ => None
        end
      else None
  | _ => None
  end.

Fixpoint escaped_bytes (n : nat) (s : string) : option (list nat * string) :=
  match n with
  | O => Some ([], s)
  | S k =>
      match escaped_byte s with
      | Some (b, rest) =>
          match escaped_bytes k rest with
          | Some (bs, rest') => Some (b :: bs, rest')
          | None => None
          end
      | None => None
      end
  end.

Definition continuation (b : nat) : bool := (128 <=? b) && (b <=? 191).

(** The well-formed UTF-8 sequences of two to four bytes. *)
Definition utf8_sequence (bs : list nat) : bool :=
  match bs with
  | [a; b] => (194 <=? a) && (a <=? 223) && continuation b
  | [a; b; c] =>
      ((Nat.eqb a 224 && (160 <=? b) && (b <=? 191))
       || ((225 <=? a) && (a <=? 236) && continuation b)
       || (Nat.eqb a 237 && (128 <=? b) && (b <=? 159))
       || ((238 <=? a) && (a <=? 239) && continuation b))
      && continuation c
  | [a; b; c; d] =>
      ((Nat.eqb a 240 && (144 <=? b) && (b <=? 191))
       || ((241 <=? a) && (a <=? 243) && continuation b)
       || (Nat.eqb a 244 && (128 <=? b) && (b <=? 143)))
      && continuation c && continuation d
  | _ => false
  end.

(** The number of bytes a sequence that starts with [b >= 128]
    announces (the leading one bits of [b]). *)
Definition announced (b : nat) : nat :=
  if b <? 192 then 1 else if b <? 224 then 2 else if b <? 240 then 3
  else if b <? 248 then 4 else 5.

Fixpoint bytes_string (bs : list nat) (tail : string) : string :=
  match bs with
  | [] => tail
  | b :: bs' => String (ascii_of_nat b) (bytes_string bs' tail)
  end.

(** [decodeURIComponent(s)]: every escape is replaced by the character
    it encodes; it throws on an escape that is cut short, has a digit
    that is not hexadecimal, or does not belong to a well-formed UTF-8
    sequence of escapes. *)
Fixpoint decode_from (fuel : nat) (s : string) : result string :=
  match s with
  | EmptyString => Ok EmptyString
  | String c s' =>
      match fuel with
      | O => Throw
      | S k =>
          if Ascii.eqb c "%" then
            match escaped_byte s with
            | None => Throw
            | Some (b, rest) =>
                if b <? 128 then
                  r <- decode_from k rest ;; Ok (String (ascii_of_nat b) r)
                else
                  let n := announced b in
                  if Nat.eqb n 1 || (4 <? n) then Throw
                  else
                    match escaped_bytes (n - 1) rest with
                    | None => Throw
                    | Some (bs, rest') =>
                        if utf8_sequence (b :: bs)
                        then r <- decode_from k rest' ;; Ok (bytes_string (b :: bs) r)
                        else Throw
                    end
            end
          else r <- decode_from k s' ;; Ok (String c r)
      end
  end.

Definition decodeURIComponent (s : string) : result string :=
  decode_from (String.length s) s.

(** *** renderFolderPage *)

(** [s.split('/').pop()]: what follows the last slash, the whole of [s]
    when it has none. *)
Fixpoint last_segment (s : string) : string :=
  match s with
  | EmptyString => EmptyString
  | String _ s' => if slash_free s then s else last_segment s'
  end.

(** [decodeURIComponent((basePath.replace(/\//, '')).split('/').pop())] *)
Definition folderName (basePath : string) : result string :=
  decodeURIComponent (last_segment (remove_first_slash basePath)).

(** [(data && data.files) ? data.files.filter(f => !f.endsWith('/')) : []] *)
Definition page_files (data : option listing) : list string :=
  match data with
  | Some d => filter (fun f => negb (endsWith "/" f)) (files d)
  | None => []
  end.

(** [Math.min(8, Math.max(4, Math.floor(n / 4) * 2 || 4))] *)
Definition default_topCount (n : nat) : nat :=
  let k := (n / 4) * 2 in
  Nat.min 8 (Nat.max 4 (if Nat.eqb k 0 then 4 else k)).

(** The index [slice] makes of an integer argument: counted from the
    end when negative, clamped to the array. *)
Definition slice_index (len : nat) (k : Z) : nat :=
  if (k <? 0)%Z then Z.to_nat (Z.max (Z.of_nat len + k) 0)
  else Nat.min (Z.to_nat k) len.

(** [typeof options.topCount === 'number' ? options.topCount : ...];
    a number is given by its integer part, which is what [slice] uses. *)
Definition topCount (option_topCount : option Z) (n : nat) : Z :=
  match option_topCount with
  | Some k => k
  | None => Z.of_nat (default_topCount n)
  end.

(** What the page shows: the "Download ZIP" button, the files of the
    top strip, those of the grid (each linked to [basePath + f]), and
    whether the grid holds the note "No photos in this folder". *)
Record page_view : Type := {
  zip_href : string;
  zip_download : string;
  top_strip : list string;
  grid : list string;
  empty_note : bool
}.

(** [renderFolderPage(basePath, containerSelector, options)].
    [has_container] tells whether the selector finds an element,
    [loaded] is what [await loadFolderIndex(basePath)] gives.  The
    result is [None] when the function returns without rendering. *)
Definition renderFolderPage (has_container : bool) (basePath : string)
    (option_topCount : option Z) (loaded : result (option listing))
  : result (option page_view) :=
  if negb has_container then Ok None
  else
    data <- loaded ;;
    let files := page_files data in
    name <- folderName basePath ;;
    let k := slice_index (List.length files) (topCount option_topCount (List.length files)) in
    let topFiles := firstn k files in
    let rest := skipn k files in
    Ok (Some {| zip_href := basePath +++ encodeURIComponent name +++ ".zip";
                zip_download := or_default name "photos" +++ ".zip";
                top_strip := topFiles;
                grid := rest;
                empty_note := Nat.eqb (List.length rest) 0 &&
                              Nat.eqb (List.length topFiles) 0 |}).

(** *** tryAutoInitFolderPage *)

Fixpoint strip_prefix (p s : string) : option string :=
  match p, s with
  | EmptyString, _ => Some s
  | String a p', String b s' => if Ascii.eqb a b then strip_prefix p' s' else None
  | String _ _, EmptyString => None
  end.

Fixpoint strip_suffix (suf s : string) : option string :=
  if String.eqb suf s then Some EmptyString
  else match s with
       | EmptyString => None
       | String c s' => option_map (String c) (strip_suffix suf s')
       end.

(** The first group of a match of
    [/^\/photos\/([^\/]+)(?:index.html)?$/] on [pathname].

    After the prefix, the group takes characters other than a slash, as
    many as it can.  When the rest of the path has no slash the group
    takes all of it and the optional part matches nothing.  When it has
    one, the optional part must cover it, which only its dot can: the
    rest then ends with "index/html" and the group is what precedes. *)
Definition auto_init_folder (pathname : string) : option string :=
  match strip_prefix "/photos/" pathname with
  | None => None
  | Some rest =>
      if slash_free rest then (if truthy rest then Some rest else None)
      else
        match strip_suffix "index/html" rest with
        | Some x => if truthy x && slash_free x then Some x else None
        | None => None
        end
  end.

(** [tryAutoInitFolderPage()]: the base path [renderFolderPage] is
    called with, if it is called. *)
Definition tryAutoInitFolderPage (pathname : string) (has_root has_header : bool)
  : option string :=
  match auto_init_folder pathname with
  | Some folder =>
      if has_root || has_header then Some ("/photos/" +++ folder +++ "/") else None
  | None => None
  end.

(** *** Properties *)

Lemma append_assoc (a b c : string) : (a +++ b) +++ c = a +++ b +++ c.
Proof. induction a as [|x a IH]; simpl; [reflexivity|now rewrite IH]. Qed.

Lemma length_append (a b : string) :
  String.length (a +++ b) = String.length a + String.length b.
Proof. induction a as [|x a IH]; simpl; [reflexivity|now rewrite IH]. Qed.

Lemma slash_free_no_trailing_slash (s : string) :
  slash_free s = true -> endsWith "/" s = false.
Proof.
  induction s as [|c s IH]; [reflexivity|]. simpl slash_free.
  intros H. apply andb_true_iff in H as [Hc Hs]. apply negb_true_iff in Hc.
  change (endsWith "/" (String c s)) with (String.eqb "/" (String c s) || endsWith "/" s).
  rewrite (IH Hs), orb_false_r.
  destruct (String.eqb "/" (String c s)) eqn:E; [|reflexivity].
  apply String.eqb_eq in E. injection E as <- _. vm_compute in Hc. discriminate Hc.
Qed.

(** Whether a string ends with a slash is decided by its last
    character. *)
Lemma endsWith_slash_append (a : string) (c : ascii) (b : string) :
  endsWith "/" (a +++ String c b) = endsWith "/" (String c b).
Proof.
  induction a as [|x a IH]; [reflexivity|].
  change (endsWith "/" (String x a +++ String c b))
    with (String.eqb "/" (String x (a +++ String c b)) || endsWith "/" (a +++ String c b)).
  rewrite IH.
  assert (H : String.eqb "/" (String x (a +++ String c b)) = false).
  { destruct (String.eqb "/" (String x (a +++ String c b))) eqn:E; [|reflexivity].
    apply String.eqb_eq in E. injection E as _ E. destruct a; discriminate E. }
  now rewrite H.
Qed.

Lemma strip_prefix_spec (p s r : string) : strip_prefix p s = Some r <-> s = p +++ r.
Proof.
  revert s. induction p as [|a p IH]; intros s; simpl.
  - split; [now intros [= ->]|now intros ->].
  - destruct s as [|b s]; [split; discriminate|].
    destruct (Ascii.eqb a b) eqn:E.
    + apply Ascii.eqb_eq in E. subst b. rewrite IH. split; [now intros ->|now intros [= ->]].
    + split; [discriminate|]. intros [= -> _]. now rewrite Ascii.eqb_refl in E.
Qed.

Lemma strip_suffix_spec (suf s r : string) : strip_suffix suf s = Some r <-> s = r +++ suf.
Proof.
  revert r. induction s as [|c s IH]; intros r.
  - simpl. destruct (String.eqb suf "") eqn:E.
    + apply String.eqb_eq in E. subst suf. split.
      * now intros [= <-].
      * intros H. destruct r; [reflexivity|discriminate].
    + split; [discriminate|]. intros H. destruct r; simpl in H.
      * subst suf. discriminate.
      * discriminate.
  - change (strip_suffix suf (String c s))
      with (if String.eqb suf (String c s) then Some EmptyString
            else option_map (String c) (strip_suffix suf s)).
    destruct (String.eqb suf (String c s)) eqn:E.
    + apply String.eqb_eq in E. subst suf. split.
      * now intros [= <-].
      * intros H. apply (f_equal String.length) in H. rewrite length_append in H.
        destruct r; [reflexivity|simpl in H; lia].
    + destruct r as [|x r].
      * split.
        -- destruct (strip_suffix suf s); discriminate.
        -- simpl. intros <-. now rewrite String.eqb_refl in E.
      * specialize (IH r). destruct (strip_suffix suf s) as [r'|]; simpl.
        -- split.
           ++ intros [= <- <-]. f_equal. now apply IH.
           ++ intros [= <- H]. f_equal. f_equal. apply IH in H. now injection H.
        -- split; [discriminate|]. intros [= <- H]. apply IH in H. discriminate.
Qed.

Lemma last_segment_trailing (x : string) : last_segment (x +++ "/") = EmptyString.
Proof.
  induction x as [|c x IH]; [reflexivity|].
  change (last_segment (String c x +++ "/"))
    with (if slash_free (String c (x +++ "/")) then String c (x +++ "/")
          else last_segment (x +++ "/")).
  assert (H : slash_free (String c (x +++ "/")) = false).
  { simpl. rewrite slash_free_app. simpl. now rewrite !andb_false_r. }
  now rewrite H.
Qed.

Lemma last_segment_slash_free (s : string) : slash_free s = true -> last_segment s = s.
Proof.
  destruct s as [|c s]; [reflexivity|]. intros H.
  change (last_segment (String c s))
    with (if slash_free (String c s) then String c s else last_segment s).
  now rewrite H.
Qed.

(** The pathnames on which the regular expression matches. *)
Lemma auto_init_folder_spec (pathname f : string) :
  auto_init_folder pathname = Some f <->
  truthy f = true /\ slash_free f = true /\
  (pathname = "/photos/" +++ f \/ pathname = "/photos/" +++ f +++ "index/html").
Proof.
  unfold auto_init_folder. split.
  - destruct (strip_prefix "/photos/" pathname) as [rest|] eqn:Hp; [|discriminate].
    apply strip_prefix_spec in Hp. subst pathname.
    destruct (slash_free rest) eqn:Hs.
    + destruct (truthy rest) eqn:Ht; [|discriminate]. intros [= <-]. auto.
    + destruct (strip_suffix "index/html" rest) as [x|] eqn:Hx; [|discriminate].
      apply strip_suffix_spec in Hx. subst rest.
      destruct (truthy x && slash_free x) eqn:E; [|discriminate].
      apply andb_true_iff in E as [Ht Hf]. intros [= <-]. auto.
  - intros [Ht [Hs [-> | ->]]].
    + assert (Hp : strip_prefix "/photos/" ("/photos/" +++ f) = Some f)
        by now apply strip_prefix_spec.
      now rewrite Hp, Hs, Ht.
    + assert (Hp : strip_prefix "/photos/" ("/photos/" +++ f +++ "index/html") =
                   Some (f +++ "index/html")) by now apply strip_prefix_spec.
      rewrite Hp, slash_free_app, Hs. simpl.
      assert (Hx : strip_suffix "index/html" (f +++ "index/html") = Some f)
        by now apply strip_suffix_spec.
      now rewrite Hx, Ht, Hs.
Qed.

Lemma folderName_trailing_slash (x : string) :
  folderName ("/" +++ x +++ "/") = Ok EmptyString.
Proof.
  unfold folderName. simpl remove_first_slash. now rewrite last_segment_trailing.
Qed.

Lemma renderFolderPage_view (basePath : string) (option_topCount : option Z)
    (data : option listing) (name : string) :
  folderName basePath = Ok name ->
  exists v,
    renderFolderPage true basePath option_topCount (Ok data) = Ok (Some v) /\
    zip_href v = basePath +++ encodeURIComponent name +++ ".zip" /\
    zip_download v = or_default name "photos" +++ ".zip".
Proof.
  intros H. unfold renderFolderPage. cbn [negb bind]. rewrite H. cbn [bind].
  eexists. split; [reflexivity|]. split; reflexivity.
Qed.

(** X19.  The links of a rendered listing.  For a folder shown from its
    directory listing, whose folder links are plain ([name/], the name
    without a slash): the nested tiles are those links, in order, each
    under its name and opening [basePath] followed by the link, and
    they come before the files, which are linked as [basePath] followed
    by the file entry. *)
Theorem rendered_listing_follows_its_links (J : Type) (index_resp : fetched J)
    (ok : bool) (pg : page) (basePath : string) :
  index_unavailable index_resp ->
  (forall h, In h (folder_links (anchors pg)) ->
             exists n, h = n +++ "/" /\ slash_free n = true) ->
  exists l,
    loadFolderIndex index_resp (Status ok (Some pg)) = Ok (IndexListing l) /\
    nodes_of (renderFolderContents (Some l) basePath) =
      map (fun h => NestedTile (remove_first_slash h) (basePath +++ h))
          (folder_links (anchors pg)) ++
      map (fun f => FileItem (basePath +++ f) f (basePath +++ f) f) (files l).
Proof.
  intros Hidx Hplain. exists (parse_listing pg). split.
  - unfold loadFolderIndex, index_unavailable in *.
    destruct index_resp as [|[|] [j|]]; simpl; try reflexivity. contradiction.
  - assert (Htiles : map (fun n => NestedTile n (basePath +++ n +++ "/"))
                         (folders (parse_listing pg)) =
                     map (fun h => NestedTile (remove_first_slash h) (basePath +++ h))
                         (folder_links (anchors pg))).
    { rewrite parse_listing_closed. simpl. rewrite map_map. apply map_ext_in.
      intros h Hin. destruct (Hplain h Hin) as [n [-> Hn]].
      now rewrite (remove_first_slash_trailing n Hn). }
    unfold renderFolderContents. rewrite Htiles.
    destruct (files (parse_listing pg)) as [|f fs] eqn:Hf.
    + simpl. rewrite app_nil_r.
      destruct (folders (parse_listing pg)) as [|n ns] eqn:Hn; [|reflexivity].
      simpl in Htiles. now rewrite <- Htiles.
    + reflexivity.
Qed.

Lemma rendered_listing_follows_its_links_witness :
  exists l,
    loadFolderIndex (J := unit) NetworkError
      (Status true (Some {| anchors := [Some "../"; Some "raw/"; Some "a.jpg"];
                            imgs := [] |})) = Ok (IndexListing l) /\
    nodes_of (renderFolderContents (Some l) "/photos/trip/") =
      [NestedTile "raw" "/photos/trip/raw/";
       FileItem "/photos/trip/a.jpg" "a.jpg" "/photos/trip/a.jpg" "a.jpg"].
Proof.
  destruct (rendered_listing_follows_its_links unit NetworkError true
              {| anchors := [Some "../"; Some "raw/"; Some "a.jpg"]; imgs := [] |}
              "/photos/trip/" I) as [l [Hl Hn]].
  - intros h [<-|[]]. exists "raw". split; reflexivity.
  - exists l. split; [exact Hl|]. rewrite Hn.
    assert (E : l = {| files := ["a.jpg"]; folders := ["raw"] |}).
    { vm_compute in Hl. now injection Hl as <-. }
    rewrite E. reflexivity.
Defined.

(** X20.  Every photo of the page, once.  Whatever index was loaded and
    whatever [topCount] was asked for (negative and oversized values
    included), the top strip followed by the grid is the list of the
    files of the index that do not end with a slash, in order; the note
    for an empty folder is shown exactly when there is no such file; and
    without [topCount] the strip takes the first 4 of up to 11 files,
    the first 6 of 12 to 15, the first 8 of 16 or more. *)
Theorem page_shows_every_photo_once (basePath : string) (option_topCount : option Z)
    (data : option listing) (v : page_view) :
  renderFolderPage true basePath option_topCount (Ok data) = Ok (Some v) ->
  top_strip v ++ grid v = page_files data /\
  (empty_note v = true <-> page_files data = []) /\
  (option_topCount = None ->
   List.length (top_strip v) =
   Nat.min (List.length (page_files data))
           (if List.length (page_files data) <? 12 then 4
            else if List.length (page_files data) <? 16 then 6 else 8)).
Proof.
  unfold renderFolderPage. simpl negb. cbv iota. simpl bind at 1.
  destruct (folderName basePath) as [name|]; [|discriminate].
  simpl. intros [= <-]. simpl. split; [apply firstn_skipn|]. split.
  - rewrite andb_true_iff, !Nat.eqb_eq. split.
    + intros [H1 H2]. rewrite <- (firstn_skipn
        (slice_index (List.length (page_files data))
                     (topCount option_topCount (List.length (page_files data))))
        (page_files data)).
      apply length_zero_iff_nil in H1. apply length_zero_iff_nil in H2.
      now rewrite H1, H2.
    + intros ->. now rewrite firstn_nil, skipn_nil.
  - intros ->. simpl topCount. unfold slice_index.
    assert (Hneg : (Z.of_nat (default_topCount (List.length (page_files data))) <? 0)%Z
                   = false) by (apply Z.ltb_ge; lia).
    rewrite Hneg, Nat2Z.id, length_firstn.
    set (n := List.length (page_files data)).
    assert (Hdef : default_topCount n =
                   if n <? 12 then 4 else if n <? 16 then 6 else 8).
    { unfold default_topCount.
      destruct (n <? 12) eqn:E1; [apply Nat.ltb_lt in E1|apply Nat.ltb_ge in E1].
      - assert (n / 4 <= 2) by (apply Nat.lt_succ_r, Nat.Div0.div_lt_upper_bound; lia).
        destruct (Nat.eqb (n / 4 * 2) 0); lia.
      - destruct (n <? 16) eqn:E2; [apply Nat.ltb_lt in E2|apply Nat.ltb_ge in E2].
        + assert (n / 4 = 3).
          { assert (n / 4 <= 3) by (apply Nat.lt_succ_r, Nat.Div0.div_lt_upper_bound; lia).
            assert (3 <= n / 4) by (apply Nat.div_le_lower_bound; lia). lia. }
          rewrite H. reflexivity.
        + assert (4 <= n / 4) by (apply Nat.div_le_lower_bound; lia).
          assert (E : Nat.eqb (n / 4 * 2) 0 = false) by (apply Nat.eqb_neq; lia).
          rewrite E. lia. }
    rewrite Hdef. lia.
Qed.

Lemma page_shows_every_photo_once_witness :
  exists v,
    renderFolderPage true "/photos/trip" (Some (-1)%Z)
      (Ok (Some {| files := ["a.jpg"; "b.jpg"; "raw/"; "c.jpg"]; folders := [] |}))
      = Ok (Some v) /\
    top_strip v = ["a.jpg"; "b.jpg"] /\
    grid v = ["c.jpg"] /\
    top_strip v ++ grid v = ["a.jpg"; "b.jpg"; "c.jpg"].
Proof.
  eexists. split; [vm_compute; reflexivity|]. split; [reflexivity|]. split; [reflexivity|].
  apply (page_shows_every_photo_once "/photos/trip" (Some (-1)%Z)
           (Some {| files := ["a.jpg"; "b.jpg"; "raw/"; "c.jpg"]; folders := [] |})).
  vm_compute. reflexivity.
Defined.

(** X21.  Where the page starts by itself.  [tryAutoInitFolderPage] calls
    [renderFolderPage] exactly when the page has [#folder-page-root] or
    a [.photos-header] and the path is /photos/ followed by one
    non-empty segment without a slash (or by such a segment and
    "index/html", the dot of the expression matching the slash); the
    base path passed is /photos/, the segment and a slash. *)
Theorem auto_init_needs_a_single_segment (pathname : string) (has_root has_header : bool)
    (base : string) :
  tryAutoInitFolderPage pathname has_root has_header = Some base <->
  has_root || has_header = true /\
  exists f, truthy f = true /\ slash_free f = true /\
            base = "/photos/" +++ f +++ "/" /\
            (pathname = "/photos/" +++ f \/ pathname = "/photos/" +++ f +++ "index/html").
Proof.
  unfold tryAutoInitFolderPage. split.
  - destruct (auto_init_folder pathname) as [f|] eqn:E; [|discriminate].
    apply auto_init_folder_spec in E as [Ht [Hs Hp]].
    destruct (has_root || has_header); [|discriminate]. intros [= <-].
    split; [reflexivity|]. exists f. auto.
  - intros [Hany [f [Ht [Hs [-> Hp]]]]].
    assert (E : auto_init_folder pathname = Some f) by (apply auto_init_folder_spec; auto).
    now rewrite E, Hany.
Qed.

(** X22.  A path that ends with a slash starts nothing.  On a pathname
    with a trailing slash, such as /photos/paris/, the expression does
    not match and [renderFolderPage] is not called. *)
Theorem trailing_slash_starts_nothing (pathname : string) (has_root has_header : bool) :
  endsWith "/" pathname = true ->
  tryAutoInitFolderPage pathname has_root has_header = None.
Proof.
  intros Hend. unfold tryAutoInitFolderPage.
  destruct (auto_init_folder pathname) as [f|] eqn:E; [exfalso|reflexivity].
  apply auto_init_folder_spec in E as [Ht [Hs [Hp|Hp]]]; subst pathname.
  - destruct f as [|c f]; [discriminate Ht|].
    rewrite (endsWith_slash_append "/photos/" c f) in Hend.
    now rewrite (slash_free_no_trailing_slash _ Hs) in Hend.
  - rewrite <- append_assoc in Hend.
    change "index/html" with (String "i" "ndex/html") in Hend.
    rewrite endsWith_slash_append in Hend. discriminate Hend.
Qed.

Lemma trailing_slash_starts_nothing_witness :
  endsWith "/" "/photos/paris/" = true /\
  tryAutoInitFolderPage "/photos/paris/" true true = None.
Proof.
  split; [reflexivity|].
  apply (trailing_slash_starts_nothing "/photos/paris/" true true). reflexivity.
Defined.

(** Nor does the usual name of the page's document. *)
Example index_document_starts_nothing :
  tryAutoInitFolderPage "/photos/paris/index.html" true true = None /\
  tryAutoInitFolderPage "/photos/paris" true true = Some "/photos/paris/" /\
  tryAutoInitFolderPage "/photos/index.html" true true = Some "/photos/index.html/".
Proof. repeat split. Qed.

(** X23.  A page that started by itself has no folder name.  Whenever
    [tryAutoInitFolderPage] calls [renderFolderPage], the folder name
    computed from the base path is the empty string, so the button
    links to [base + ".zip"] under the name photos.zip, and the
    candidates its click probes after the special path are
    [base + ".zip"], [base + ".ZIP"], /photos/.zip and
    /photos/altfiles/.zip, whatever the folder. *)
Theorem self_started_page_has_no_folder_name (pathname : string)
    (has_root has_header : bool) (base : string) (data : option listing) :
  tryAutoInitFolderPage pathname has_root has_header = Some base ->
  folderName base = Ok EmptyString /\
  (exists v, renderFolderPage true base None (Ok data) = Ok (Some v) /\
             zip_href v = base +++ ".zip" /\ zip_download v = "photos.zip") /\
  page_candidates base "" =
    [base +++ ".zip"; base +++ ".ZIP"; "/photos/.zip"; "/photos/altfiles/.zip"].
Proof.
  unfold tryAutoInitFolderPage.
  destruct (auto_init_folder pathname) as [f|]; [|discriminate].
  destruct (has_root || has_header); [|discriminate]. intros [= <-].
  assert (Hname : folderName ("/photos/" +++ f +++ "/") = Ok EmptyString)
    by exact (folderName_trailing_slash ("photos/" +++ f)).
  split; [exact Hname|]. split; [|reflexivity].
  exact (renderFolderPage_view _ None data _ Hname).
Qed.

Lemma self_started_page_has_no_folder_name_witness :
  tryAutoInitFolderPage "/photos/paris" true false = Some "/photos/paris/" /\
  folderName "/photos/paris/" = Ok EmptyString /\
  page_candidates "/photos/paris/" "" =
    ["/photos/paris/.zip"; "/photos/paris/.ZIP"; "/photos/.zip"; "/photos/altfiles/.zip"].
Proof.
  split; [reflexivity|].
  destruct (self_started_page_has_no_folder_name "/photos/paris" true false
              "/photos/paris/" None eq_refl) as [Hn [_ Hc]].
  split; [exact Hn|exact Hc].
Defined.

(** *** Escapes *)

Fixpoint ascii_only (s : string) : bool :=
  match s with
  | EmptyString => true
  | String c s' => (nat_of_ascii c <? 128) && ascii_only s'
  end.

Lemma hex_value_digit (m : nat) : m < 16 -> hex_value (hex_digit m) = Some m.
Proof.
  intros H.
  do 16 (destruct m as [|m]; [reflexivity|]). lia.
Qed.

Lemma unreserved_not_percent (c : ascii) : uri_unreserved c = true -> Ascii.eqb c "%" = false.
Proof.
  intros H. destruct (Ascii.eqb c "%") eqn:E; [|reflexivity].
  apply Ascii.eqb_eq in E. subst c. discriminate H.
Qed.

Lemma unreserved_not_slash (c : ascii) : uri_unreserved c = true -> Ascii.eqb c slash = false.
Proof.
  intros H. destruct (Ascii.eqb c slash) eqn:E; [|reflexivity].
  apply Ascii.eqb_eq in E. subst c. discriminate H.
Qed.

Lemma encodeURIComponent_cons (c : ascii) (s : string) :
  encodeURIComponent (String c s) =
  if uri_unreserved c then String c (encodeURIComponent s)
  else String "%" (String (hex_digit (nat_of_ascii c / 16))
                     (String (hex_digit (nat_of_ascii c mod 16)) (encodeURIComponent s))).
Proof. reflexivity. Qed.

Lemma slash_free_cons (c : ascii) (s : string) :
  slash_free (String c s) = negb (Ascii.eqb c slash) && slash_free s.
Proof. reflexivity. Qed.

Lemma hex_digit_not_slash (m : nat) : m < 16 -> Ascii.eqb (hex_digit m) slash = false.
Proof.
  intros H. do 16 (destruct m as [|m]; [reflexivity|]). lia.
Qed.

Lemma byte_digits (c : ascii) :
  nat_of_ascii c / 16 < 16 /\ nat_of_ascii c mod 16 < 16 /\
  16 * (nat_of_ascii c / 16) + nat_of_ascii c mod 16 = nat_of_ascii c.
Proof.
  pose proof (nat_ascii_bounded c) as Hb. split; [|split].
  - apply Nat.Div0.div_lt_upper_bound. lia.
  - apply Nat.mod_upper_bound. lia.
  - symmetry. apply Nat.div_mod_eq.
Qed.

Lemma encodeURIComponent_slash_free (s : string) : slash_free (encodeURIComponent s) = true.
Proof.
  induction s as [|c s IH]; [reflexivity|]. rewrite encodeURIComponent_cons.
  destruct (uri_unreserved c) eqn:E.
  - now rewrite slash_free_cons, (unreserved_not_slash c E), IH.
  - destruct (byte_digits c) as [Hhi [Hlo _]].
    rewrite !slash_free_cons, IH, !hex_digit_not_slash by assumption. reflexivity.
Qed.

Lemma decode_plain (k : nat) (c : ascii) (s : string) :
  Ascii.eqb c "%" = false ->
  decode_from (S k) (String c s) = (r <- decode_from k s ;; Ok (String c r)).
Proof. intros H. cbn [decode_from]. now rewrite H. Qed.

Lemma decode_escape (k : nat) (h l : ascii) (rest : string) (a b : nat) :
  hex_value h = Some a -> hex_value l = Some b -> 16 * a + b < 128 ->
  decode_from (S k) (String "%" (String h (String l rest))) =
  (r <- decode_from k rest ;; Ok (String (ascii_of_nat (16 * a + b)) r)).
Proof.
  intros Hh Hl Hlt. apply Nat.ltb_lt in Hlt.
  cbn [decode_from escaped_byte]. rewrite Ascii.eqb_refl, Hh, Hl, Hlt. reflexivity.
Qed.

Lemma decode_encode (s : string) :
  ascii_only s = true ->
  forall fuel, String.length (encodeURIComponent s) <= fuel ->
               decode_from fuel (encodeURIComponent s) = Ok s.
Proof.
  induction s as [|c s IH]; intros Hs fuel Hfuel.
  - now destruct fuel.
  - change (ascii_only (String c s)) with ((nat_of_ascii c <? 128) && ascii_only s) in Hs.
    apply andb_true_iff in Hs as [Hc Hs]. apply Nat.ltb_lt in Hc.
    rewrite encodeURIComponent_cons in *.
    destruct (uri_unreserved c) eqn:E.
    + destruct fuel as [|k]; [simpl String.length in Hfuel; lia|].
      simpl String.length in Hfuel.
      rewrite (decode_plain k c _ (unreserved_not_percent c E)).
      rewrite (IH Hs k) by lia. reflexivity.
    + destruct fuel as [|k]; [simpl String.length in Hfuel; lia|].
      simpl String.length in Hfuel.
      destruct (byte_digits c) as [Hhi [Hlo Hsum]].
      rewrite (decode_escape k _ _ _ _ _ (hex_value_digit _ Hhi) (hex_value_digit _ Hlo))
        by (rewrite Hsum; exact Hc).
      rewrite Hsum, ascii_nat_embedding.
      rewrite (IH Hs k) by lia. reflexivity.
Qed.

Lemma last_segment_after_slash (x e : string) :
  slash_free e = true -> last_segment (x +++ "/" +++ e) = e.
Proof.
  intros He. induction x as [|c x IH].
  - change (last_segment ("" +++ "/" +++ e))
      with (if slash_free (String "/" e) then String "/" e else last_segment e).
    rewrite slash_free_cons. change (Ascii.eqb "/" slash) with true. simpl negb.
    cbn [andb]. now apply last_segment_slash_free.
  - change (last_segment (String c x +++ "/" +++ e))
      with (if slash_free (String c (x +++ "/" +++ e)) then String c (x +++ "/" +++ e)
            else last_segment (x +++ "/" +++ e)).
    assert (H : slash_free (String c (x +++ "/" +++ e)) = false).
    { rewrite slash_free_cons, slash_free_app.
      change (slash_free ("/" +++ e)) with (negb (Ascii.eqb "/" slash) && slash_free e).
      change (Ascii.eqb "/" slash) with true. simpl negb. cbn [andb].
      now rewrite !andb_false_r. }
    now rewrite H.
Qed.

Lemma folderName_of_segment (x e : string) :
  slash_free e = true ->
  folderName ("/" +++ x +++ "/" +++ e) = decodeURIComponent e.
Proof.
  intros He. unfold folderName.
  change (remove_first_slash ("/" +++ x +++ "/" +++ e)) with (x +++ "/" +++ e).
  now rewrite last_segment_after_slash.
Qed.

(** X24.  The title of a page called by name.  For a folder name of ASCII
    characters, [renderFolderPage] called with /photos/ followed by the
    encoded name (no trailing slash) computes that name back: the title
    and the suggested archive name are the folder's, and the button
    links to the encoded name inside the base path. *)
Theorem encoded_base_path_gives_the_name_back (name : string) (data : option listing) :
  ascii_only name = true ->
  folderName ("/photos/" +++ encodeURIComponent name) = Ok name /\
  exists v,
    renderFolderPage true ("/photos/" +++ encodeURIComponent name) None (Ok data)
      = Ok (Some v) /\
    zip_href v = "/photos/" +++ encodeURIComponent name +++ encodeURIComponent name +++ ".zip" /\
    zip_download v = or_default name "photos" +++ ".zip".
Proof.
  intros Hascii.
  assert (Hname : folderName ("/photos/" +++ encodeURIComponent name) = Ok name).
  { change ("/photos/" +++ encodeURIComponent name)
      with ("/" +++ "photos" +++ "/" +++ encodeURIComponent name).
    rewrite (folderName_of_segment "photos" _ (encodeURIComponent_slash_free name)).
    unfold decodeURIComponent. now apply decode_encode. }
  split; [exact Hname|].
  destruct (renderFolderPage_view _ None data _ Hname) as [v [Hv [Hh Hd]]].
  exists v. split; [exact Hv|]. split; [|exact Hd].
  now rewrite Hh, append_assoc.
Qed.

Lemma encoded_base_path_gives_the_name_back_witness :
  ascii_only "Lake Trip" = true /\
  folderName "/photos/Lake%20Trip" = Ok "Lake Trip".
Proof.
  split; [reflexivity|].
  apply (encoded_base_path_gives_the_name_back "Lake Trip" None). reflexivity.
Defined.

(** Escapes of several bytes, and what [decodeURIComponent] refuses. *)
Example decode_examples :
  decodeURIComponent "caf%C3%A9" =
    Ok (String "c" (String "a" (String "f"
          (String (ascii_of_nat 195) (String (ascii_of_nat 169) EmptyString))))) /\
  decodeURIComponent "100%" = Throw /\
  decodeURIComponent "%zz" = Throw /\
  decodeURIComponent "%C0%80" = Throw /\
  decodeURIComponent "%E2%82" = Throw /\
  decodeURIComponent "%41%2f" = Ok "A/".
Proof. repeat split. Qed.

End FolderPage.

(* ================================================================== *)
(** ** The "download all" button *)

Module DownloadAllButton.

(** The button [#download-all-root] with the click handler [initPhotos]
    attaches: [dataset.busy] ([None] while the attribute is not set),
    the class [busy], the calls of [downloadAllVisible] that have not
    settled yet, and counters of the calls started and of the alerts
    "Download failed" shown. *)
Record button : Type := {
  busy : option string;
  busy_class : bool;
  in_flight : nat;
  started : nat;
  failure_alerts : nat
}.

Definition fresh : button :=
  {| busy := None; busy_class := false; in_flight := 0; started := 0; failure_alerts := 0 |}.

(** A click on the button, or the settlement of a call of
    [downloadAllVisible] that a handler awaits. *)
Inductive event : Type :=
| Click
| Settled (fulfilled : bool).

(** [dl.dataset.busy === '1'] *)
Definition is_busy (b : button) : bool :=
  match busy b with
  | Some v => String.eqb v "1"
  | None => false
  end.

(** A click runs the handler up to its [await]; a settlement runs the
    [catch] block if the call rejected, and the [finally] block.
    [None]: there is no call to settle. *)
Definition step (e : event) (b : button) : option button :=
  match e with
  | Click =>
      if is_busy b then Some b
      else Some {| busy := Some "1"; busy_class := true;
                   in_flight := S (in_flight b); started := S (started b);
                   failure_alerts := failure_alerts b |}
  | Settled fulfilled =>
      match in_flight b with
      | O => None
      | S k => Some {| busy := Some "0"; busy_class := false;
                       in_flight := k; started := started b;
                       failure_alerts := if fulfilled then failure_alerts b
                                         else S (failure_alerts b) |}
      end
  end.

Fixpoint run (evs : list event) (b : button) : option button :=
  match evs with
  | [] => Some b
  | e :: rest =>
      match step e b with
      | Some b' => run rest b'
      | None => None
      end
  end.

Definition settled (evs : list event) : nat :=
  List.length (filter (fun e => match e with Settled _ => true | Click => false end) evs).

Definition rejected (evs : list event) : nat :=
  List.length (filter (fun e => match e with Settled false => true | _ => false end) evs).

(** What holds between two events. *)
Definition guarded (b : button) : Prop :=
  in_flight b <= 1 /\
  (is_busy b = true <-> in_flight b = 1) /\
  busy_class b = is_busy b.

Lemma guarded_fresh : guarded fresh.
Proof. repeat split; try discriminate. simpl. lia. Qed.

Lemma guarded_step (e : event) (b b' : button) :
  guarded b -> step e b = Some b' ->
  guarded b' /\
  in_flight b' + settled [e] + started b = in_flight b + started b' /\
  failure_alerts b' = failure_alerts b + rejected [e].
Proof.
  intros [Hle [Hiff Hcl]] Hstep. destruct e as [|ok]; simpl in Hstep.
  - destruct (is_busy b) eqn:Hb.
    + injection Hstep as <-. unfold settled, rejected. simpl.
      split; [|lia]. unfold guarded. rewrite Hb.
      split; [exact Hle|]. split; [exact Hiff|exact Hcl].
    + assert (Hz : in_flight b = 0).
      { destruct (in_flight b) as [|[|k]] eqn:E; [reflexivity| |lia].
        assert (Hf : false = true) by (now apply Hiff). discriminate Hf. }
      injection Hstep as <-. unfold guarded, settled, rejected, is_busy. simpl.
      rewrite Hz. split; [|lia]. split; [lia|]. split; [|reflexivity].
      split; reflexivity.
  - destruct (in_flight b) as [|k] eqn:E; [discriminate|].
    assert (k = 0) by lia. subst k.
    injection Hstep as <-. unfold guarded, settled, rejected, is_busy. simpl.
    split; [|destruct ok; simpl; lia]. split; [lia|]. split; [|reflexivity].
    split; discriminate.
Qed.

Lemma guarded_run (evs : list event) :
  forall b b',
    guarded b -> run evs b = Some b' ->
    guarded b' /\
    in_flight b' + settled evs + started b = in_flight b + started b' /\
    failure_alerts b' = failure_alerts b + rejected evs.
Proof.
  induction evs as [|e evs IH]; intros b b' Hg Hrun; simpl in Hrun.
  - injection Hrun as <-. unfold settled, rejected. simpl. split; [exact Hg|lia].
  - destruct (step e b) as [b1|] eqn:Hstep; [|discriminate].
    destruct (guarded_step e b b1 Hg Hstep) as [Hg1 [H1 H2]].
    destruct (IH b1 b' Hg1 Hrun) as [Hg' [H3 H4]].
    split; [exact Hg'|].
    assert (Hs : settled (e :: evs) = settled [e] + settled evs).
    { unfold settled. simpl. destruct e; simpl; lia. }
    assert (Hr : rejected (e :: evs) = rejected [e] + rejected evs).
    { unfold rejected. simpl. destruct e as [|[|]]; simpl; lia. }
    rewrite Hs, Hr. lia.
Qed.

(** X25.  One batch at a time.  Whatever the sequence of clicks and
    settlements since the page was set up: at most one call of
    [downloadAllVisible] is in flight, and the button is marked busy
    (in [dataset.busy] and by its class) exactly while one is; every
    call that was started is in flight or has settled; and a failure
    alert was shown once for each call that rejected. *)
Theorem one_batch_at_a_time (evs : list event) (b : button) :
  run evs fresh = Some b ->
  in_flight b <= 1 /\
  (is_busy b = true <-> in_flight b = 1) /\
  busy_class b = is_busy b /\
  started b = in_flight b + settled evs /\
  failure_alerts b = rejected evs.
Proof.
  intros Hrun.
  destruct (guarded_run evs fresh b guarded_fresh Hrun) as [[H1 [H2 H3]] [H4 H5]].
  simpl in H4, H5. split; [exact H1|]. split; [exact H2|]. split; [exact H3|]. lia.
Qed.

Lemma one_batch_at_a_time_witness :
  exists b,
    run [Click; Click; Settled false; Click] fresh = Some b /\
    in_flight b <= 1 /\ started b = 2 /\ failure_alerts b = 1.
Proof.
  eexists. split; [reflexivity|].
  destruct (one_batch_at_a_time [Click; Click; Settled false; Click]
              {| busy := Some "1"; busy_class := true; in_flight := 1; started := 2;
                 failure_alerts := 1 |} eq_refl) as [H _].
  split; [exact H|]. split; reflexivity.
Defined.

(** X26.  The guard is always released.  After any sequence of events a
    click is either ignored, which happens exactly while a call is in
    flight, or starts a call; and once the call in flight settles,
    fulfilled or rejected, the next click starts a new one. *)
Theorem guard_is_released (evs : list event) (b : button) :
  run evs fresh = Some b ->
  (in_flight b = 1 ->
   step Click b = Some b /\
   forall fulfilled, exists b1 b2,
       step (Settled fulfilled) b = Some b1 /\
       step Click b1 = Some b2 /\
       in_flight b2 = 1 /\ started b2 = S (started b)) /\
  (in_flight b = 0 ->
   exists b', step Click b = Some b' /\ in_flight b' = 1 /\ started b' = S (started b)).
Proof.
  intros Hrun.
  destruct (guarded_run evs fresh b guarded_fresh Hrun) as [[H1 [H2 H3]] _].
  split.
  - intros Hf. split.
    + simpl. now rewrite (proj2 H2 Hf).
    + intros ok. simpl. rewrite Hf. eexists. eexists. split; [reflexivity|].
      split; [reflexivity|]. simpl. auto.
  - intros Hf. simpl.
    destruct (is_busy b) eqn:Hb.
    + assert (in_flight b = 1) by now apply H2. lia.
    + eexists. split; [reflexivity|]. simpl. rewrite Hf. auto.
Qed.

Lemma guard_is_released_witness :
  exists b,
    run [Click; Settled false] fresh = Some b /\
    exists b', step Click b = Some b' /\ in_flight b' = 1 /\ started b' = 2.
Proof.
  eexists. split; [reflexivity|].
  destruct (guard_is_released [Click; Settled false]
              {| busy := Some "0"; busy_class := false; in_flight := 0; started := 1;
                 failure_alerts := 1 |} eq_refl) as [_ H].
  exact (H eq_refl).
Defined.

End DownloadAllButton.

(* ================================================================== *)
(** ** The root page *)

Module RootPage.
Import JsString RemoteListing ListingFacts.

(** A child handed to [create(tag, props, ...children)]: [null] or
    [undefined], a string, a DOM node, or another object. *)
Inductive child : Type :=
| Nothing
| Text (s : string)
| Node
| Object.

(** What the loop over the children of [create] does with one child:
    it passes over it, or appends a text node or the node itself;
    [appendChild] throws on an object that is no node. *)
Definition create_child (c : child) : result (list child) :=
  match c with
  | Nothing => Ok []
  | Text s => Ok [Text s]
  | Node => Ok [Node]
  | Object => Throw
  end.

(** [create(tag, props, ...children)]: the children of the new element. *)
Fixpoint create (children : list child) : result (list child) :=
  match children with
  | [] => Ok []
  | c :: rest =>
      first <- create_child c ;;
      others <- create rest ;;
      Ok (first ++ others)
  end.

(** A tile of the root page: the text of its title and the target of
    its "Open" link. *)
Record tile_view : Type := { title : list child; open_href : string }.

(** [folderTile(name, path)], as far as the root page goes: the title
    element is [create('div', { class: 'folder-title' }, name)]. *)
Definition folderTile (name : child) (path : string) : result tile_view :=
  t <- create [name] ;; Ok {| title := t; open_href := path |}.

(** [f.name || f] for an entry [f] that is an object with a [name]: the
    name, or the object itself when the name is empty. *)
Definition name_or_entry (f : folder_entry) : child :=
  if truthy (name f) then Text (name f) else Object.

(** ['/photos/' + (f.name || f) + '/'] *)
Definition tile_path (f : folder_entry) : string :=
  "/photos/" +++ (if truthy (name f) then name f else "[object Object]") +++ "/".

Inductive root_view : Type :=
| RootMissing                          (* no [#folders-root]: nothing is done *)
| NoFoldersFound                       (* "No folders found" *)
| RootTiles (tiles : list tile_view).

(** [folders.forEach(f => { ... root.appendChild(tile); })]: the tiles
    appended, and whether the loop threw. *)
Fixpoint append_tiles (folders : list folder_entry) (shown : list tile_view)
  : list tile_view * bool :=
  match folders with
  | [] => (shown, false)
  | f :: rest =>
      match folderTile (name_or_entry f) (tile_path f) with
      | Ok t => append_tiles rest (shown ++ [t])
      | Throw => (shown, true)
      end
  end.

(** [renderRoot()] on the folder list of a manifest whose entries are
    objects with a [name] (as in the list [loadManifest] builds itself):
    what the page shows, and whether the call rejected. *)
Definition renderRoot (has_root : bool) (folders : list folder_entry) : root_view * bool :=
  if negb has_root then (RootMissing, false)
  else
    match folders with
    | [] => (NoFoldersFound, false)
    | _ => let (tiles, threw) := append_tiles folders [] in (RootTiles tiles, threw)
    end.

(** *** Properties *)

Definition tile_of_link (h : string) : tile_view :=
  {| title := [Text (remove_first_slash h)];
     open_href := "/photos/" +++ remove_first_slash h +++ "/" |}.

Definition entry_of_link (h : string) : folder_entry :=
  {| name := remove_first_slash h; path := "/photos/" +++ remove_first_slash h +++ "/" |}.

Lemma heuristic_folders_map (anchors : attributes) :
  heuristic_folders anchors = map entry_of_link (filter (endsWith "/") (present anchors)).
Proof. reflexivity. Qed.

Lemma present_app (a b : attributes) : present (a ++ b) = present a ++ present b.
Proof. unfold present. apply flat_map_app. Qed.

(** Only the link [/] gives the empty name. *)
Lemma empty_name_is_root_link (h : string) :
  endsWith "/" h = true -> remove_first_slash h = EmptyString -> h = "/".
Proof.
  destruct h as [|c h]; [discriminate|]. intros _. simpl.
  destruct (Ascii.eqb c slash) eqn:E; [|discriminate].
  apply Ascii.eqb_eq in E. now intros ->; subst c.
Qed.

Lemma append_tiles_named (links : list string) :
  forall rest shown,
    ~ In "/" links ->
    Forall (fun h => endsWith "/" h = true) links ->
    append_tiles (map entry_of_link links ++ rest) shown =
    append_tiles rest (shown ++ map tile_of_link links).
Proof.
  induction links as [|h links IH]; intros rest shown Hroot Hall; simpl.
  - now rewrite app_nil_r.
  - inversion Hall as [|h' l' Hh Hl]; subst.
    assert (Ht : truthy (remove_first_slash h) = true).
    { destruct (remove_first_slash h) eqn:E; [|reflexivity].
      exfalso. apply Hroot. left. exact (empty_name_is_root_link h Hh E). }
    unfold folderTile, name_or_entry, tile_path. simpl name. rewrite Ht. simpl.
    rewrite IH; [|intros Hin; apply Hroot; now right|assumption].
    rewrite <- app_assoc. reflexivity.
Qed.

Lemma links_without_root (anchors : attributes) :
  ~ In (Some "/") anchors -> ~ In "/" (filter (endsWith "/") (present anchors)).
Proof.
  intros H Hin. apply filter_In in Hin as [Hin _]. apply in_present in Hin as [Hin _].
  contradiction.
Qed.

Lemma links_end_with_slash (anchors : attributes) :
  Forall (fun h => endsWith "/" h = true) (filter (endsWith "/") (present anchors)).
Proof. apply Forall_forall. intros h Hin. now apply filter_In in Hin as [_ H]. Qed.

(** X27.  The root page built from the index of /photos/.  When the
    manifest is not delivered and no link of the index is [/], the root
    page shows one tile for each link that ends with a slash (the
    parent link [../] is one), in order, titled with the link less its
    first slash and opening the path the manifest entry carries; without
    such a link it shows "No folders found"; and [renderRoot] does not
    reject. *)
Theorem root_page_follows_the_index (J : Type) (manifest_resp : fetched J)
    (ok : bool) (anchors : attributes) :
  manifest_failed manifest_resp ->
  ~ In (Some "/") anchors ->
  exists fs,
    loadManifest manifest_resp (Status ok (Some anchors)) = Ok (ManifestFolders fs) /\
    renderRoot true fs =
      (match fs with
       | [] => NoFoldersFound
       | _ => RootTiles (map (fun f => {| title := [Text (name f)]; open_href := path f |}) fs)
       end, false).
Proof.
  intros Hfail Hroot. exists (heuristic_folders anchors). split.
  - unfold loadManifest. destruct manifest_resp as [|[|] [j|]]; simpl in *;
      try reflexivity. contradiction.
  - unfold renderRoot. simpl negb. cbv iota.
    destruct (heuristic_folders anchors) as [|f fs] eqn:E; [reflexivity|].
    rewrite <- E. rewrite heuristic_folders_map.
    rewrite <- (app_nil_r (map entry_of_link (filter (endsWith "/") (present anchors)))) at 1.
    rewrite (append_tiles_named _ [] [] (links_without_root anchors Hroot)
               (links_end_with_slash anchors)).
    simpl. rewrite map_map. reflexivity.
Qed.

Lemma root_page_follows_the_index_witness :
  exists fs,
    loadManifest (J := unit) NetworkError
      (Status true (Some [Some "../"; Some "paris/"; Some "notes.txt"; Some "oslo/"]))
      = Ok (ManifestFolders fs) /\
    renderRoot true fs =
      (RootTiles [{| title := [Text ".."]; open_href := "/photos/../" |};
                  {| title := [Text "paris"]; open_href := "/photos/paris/" |};
                  {| title := [Text "oslo"]; open_href := "/photos/oslo/" |}], false).
Proof.
  destruct (root_page_follows_the_index unit NetworkError true
              [Some "../"; Some "paris/"; Some "notes.txt"; Some "oslo/"] I) as [fs [Hm Hr]].
  - intros [H|[H|[H|[H|[]]]]]; discriminate H.
  - exists fs. split; [exact Hm|]. rewrite Hr.
    assert (E : fs = heuristic_folders
                       [Some "../"; Some "paris/"; Some "notes.txt"; Some "oslo/"]).
    { vm_compute in Hm. injection Hm as <-. reflexivity. }
    rewrite E. reflexivity.
Defined.

(** X28.  A link to the site root stops the root page.  When the manifest
    is not delivered and the index of /photos/ has a link [/], its
    manifest entry has the empty name, [f.name || f] is the entry
    object, and [create] throws on it as a child: [renderRoot] rejects,
    having shown the tiles of the folder links before that link and
    none of those after it. *)
Theorem root_link_stops_the_root_page (J : Type) (manifest_resp : fetched J)
    (ok : bool) (before after : attributes) :
  manifest_failed manifest_resp ->
  ~ In (Some "/") before ->
  exists fs,
    loadManifest manifest_resp (Status ok (Some (before ++ Some "/" :: after)))
      = Ok (ManifestFolders fs) /\
    renderRoot true fs =
      (RootTiles (map tile_of_link (filter (endsWith "/") (present before))), true).
Proof.
  intros Hfail Hroot. exists (heuristic_folders (before ++ Some "/" :: after)). split.
  - unfold loadManifest. destruct manifest_resp as [|[|] [j|]]; simpl in *;
      try reflexivity. contradiction.
  - assert (E : heuristic_folders (before ++ Some "/" :: after) =
                map entry_of_link (filter (endsWith "/") (present before)) ++
                entry_of_link "/" :: heuristic_folders after).
    { rewrite heuristic_folders_map.
      change (before ++ Some "/" :: after) with (before ++ [Some "/"] ++ after).
      rewrite !present_app, !filter_app, !map_app. reflexivity. }
    unfold renderRoot. simpl negb. cbv iota. rewrite E.
    rewrite (append_tiles_named _ _ [] (links_without_root before Hroot)
               (links_end_with_slash before)).
    destruct (map entry_of_link (filter (endsWith "/") (present before)) ++
              entry_of_link "/" :: heuristic_folders after) eqn:E2.
    + destruct (map entry_of_link (filter (endsWith "/") (present before))); discriminate E2.
    + reflexivity.
Qed.

Lemma root_link_stops_the_root_page_witness :
  exists fs,
    loadManifest (J := unit) NetworkError
      (Status true (Some ([Some "paris/"] ++ Some "/" :: [Some "oslo/"])))
      = Ok (ManifestFolders fs) /\
    renderRoot true fs =
      (RootTiles [{| title := [Text "paris"]; open_href := "/photos/paris/" |}], true).
Proof.
  apply (root_link_stops_the_root_page unit NetworkError true [Some "paris/"] [Some "oslo/"] I).
  intros [H|[]]. discriminate H.
Defined.

End RootPage.

(* ================================================================== *)
(** ** More on the expansion of a folder tile *)

Module TileFacts.
Import FolderTile.

(** Settlements of [loadFolderIndex] among the events. *)
Definition settlements {D : Type} (evs : list (event D)) : nat :=
  List.length (filter (fun e => match e with LoadSettles _ => true | ToggleClick => false end)
                      evs).

Definition clicks {D : Type} (evs : list (event D)) : nat :=
  List.length (filter (fun e => match e with ToggleClick => true | LoadSettles _ => false end)
                      evs).

(** Some load delivered an index that was rendered. *)
Definition delivered {D : Type} (evs : list (event D)) : Prop :=
  exists d, In (LoadSettles (Ok d)) evs.

Lemma last_cons_default {A : Type} (l : list A) :
  forall a d d', last (a :: l) d = last (a :: l) d'.
Proof.
  induction l as [|b l IH]; intros a d d'; [reflexivity|].
  change (last (b :: l) d = last (b :: l) d'). apply IH.
Qed.

Lemma history_last {D : Type} (e : event D) (evs : list (event D)) (t t1 : tile D)
    (h : list (tile D)) :
  step e t = Some t1 ->
  history (e :: evs) t = Some h ->
  exists h1, history evs t1 = Some h1 /\ last h t = last h1 t1.
Proof.
  intros Hs Hh. simpl in Hh. rewrite Hs in Hh.
  destruct (history evs t1) as [h1|] eqn:Hh1; [|discriminate].
  injection Hh as <-. exists h1. split; [reflexivity|].
  destruct (history_head evs t1 h1 Hh1) as [h' ->].
  change (last (t1 :: h') t = last (t1 :: h') t1). apply last_cons_default.
Qed.

Definition is_click {D : Type} (e : event D) : bool :=
  match e with ToggleClick => true | LoadSettles _ => false end.

Lemma step_books {D : Type} (e : event D) (t t1 : tile D) :
  step e t = Some t1 ->
  (expanded t = negb (hidden t) -> expanded t1 = negb (hidden t1)) /\
  hidden t1 = (if is_click e then negb (hidden t) else hidden t) /\
  requests t1 + pending t = requests t + pending t1 + (if is_click e then 0 else 1) /\
  (loaded t1 = true <-> loaded t = true \/ exists d, e = LoadSettles (Ok d)).
Proof.
  destruct e as [|r]; simpl.
  - intros [= <-]. simpl. split; [now intros ->|]. split; [reflexivity|]. split.
    + destruct (negb (negb (hidden t)) && negb (loaded t)); lia.
    + split; [now left|]. intros [H|[d H]]; [exact H|discriminate H].
  - destruct (pending t) as [|k]; [discriminate|].
    destruct r as [d|]; intros [= <-]; simpl.
    + split; [auto|]. split; [reflexivity|]. split; [lia|].
      split; [intros _; right; now exists d|reflexivity].
    + split; [auto|]. split; [reflexivity|]. split; [lia|].
      split; [now left|]. intros [H|[d H]]; [exact H|discriminate H].
Qed.

Lemma clicks_cons {D : Type} (e : event D) (evs : list (event D)) :
  clicks (e :: evs) = (if is_click e then 1 else 0) + clicks evs.
Proof. unfold clicks. simpl. now destruct e. Qed.

Lemma settlements_cons {D : Type} (e : event D) (evs : list (event D)) :
  settlements (e :: evs) = (if is_click e then 0 else 1) + settlements evs.
Proof. unfold settlements. simpl. now destruct e. Qed.

Lemma history_books {D : Type} (evs : list (event D)) :
  forall (t : tile D) (h : list (tile D)),
    history evs t = Some h ->
    (expanded t = negb (hidden t) -> expanded (last h t) = negb (hidden (last h t))) /\
    hidden (last h t) = (if Nat.even (clicks evs) then hidden t else negb (hidden t)) /\
    requests (last h t) + pending t = requests t + pending (last h t) + settlements evs /\
    (loaded (last h t) = true <-> loaded t = true \/ delivered evs).
Proof.
  induction evs as [|e evs IH]; intros t h Hh.
  - simpl in Hh. injection Hh as <-. unfold delivered, settlements, clicks. simpl.
    split; [auto|]. split; [reflexivity|]. split; [lia|].
    split; [auto|]. intros [H|[d []]]. exact H.
  - destruct (step e t) as [t1|] eqn:Hs; [|simpl in Hh; rewrite Hs in Hh; discriminate].
    destruct (history_last e evs t t1 h Hs Hh) as [h1 [Hh1 ->]].
    destruct (IH t1 h1 Hh1) as [He [Hhid [Hr Hl]]].
    destruct (step_books e t t1 Hs) as [Se [Shid [Sr Sl]]].
    rewrite clicks_cons, settlements_cons.
    split; [auto|]. split; [|split].
    + rewrite Hhid, Shid. destruct (is_click e).
      * change (1 + clicks evs) with (S (clicks evs)).
        rewrite Nat.even_succ, <- Nat.negb_even.
        destruct (Nat.even (clicks evs)); simpl; [reflexivity|apply negb_involutive].
      * reflexivity.
    + lia.
    + rewrite Hl, Sl. unfold delivered. split.
      * intros [[H|[d H]]|[d H]].
        -- now left.
        -- right. exists d. left. now symmetry.
        -- right. exists d. now right.
      * intros [H|[d [H|H]]].
        -- left. now left.
        -- left. right. exists d. now symmetry.
        -- right. now exists d.
Qed.

(** X29.  The books of a tile.  After any sequence of clicks and
    settlements on a tile as [folderTile] made it: the arrow is turned
    exactly when the contents area is visible, which it is after an odd
    number of clicks; every call of [loadFolderIndex] issued has settled
    or is pending; and the flag [loaded] is set exactly when some call
    delivered an index that was rendered, so that a tile whose loads all
    failed asks again when it is next opened. *)
Theorem tile_keeps_its_books (D : Type) (evs : list (event D)) (hist : list (tile D))
    (t : tile D) :
  history evs (fresh D) = Some hist ->
  last hist (fresh D) = t ->
  expanded t = negb (hidden t) /\
  hidden t = Nat.even (clicks evs) /\
  requests t = pending t + settlements evs /\
  (loaded t = true <-> delivered evs) /\
  (~ delivered evs -> hidden t = true ->
   exists t', step ToggleClick t = Some t' /\ requests t' = S (requests t)).
Proof.
  intros Hh <-.
  destruct (history_books evs (fresh D) hist Hh) as [He [Hhid [Hr Hl]]].
  simpl in He, Hhid, Hr, Hl.
  split; [now apply He|]. split.
  - rewrite Hhid. now destruct (Nat.even (clicks evs)).
  - split; [lia|]. split.
    + rewrite Hl. split; [intros [H|H]; [discriminate|exact H]|now right].
    + intros Hnd Hhidden. simpl. eexists. split; [reflexivity|]. simpl.
      rewrite Hhidden. simpl.
      destruct (loaded (last hist (fresh D))) eqn:E; [|reflexivity].
      exfalso. apply Hnd. destruct (proj1 Hl eq_refl) as [H|H]; [discriminate H|exact H].
Qed.

Lemma tile_keeps_its_books_witness :
  exists hist t,
    history [ToggleClick; LoadSettles Throw; ToggleClick] (fresh nat) = Some hist /\
    last hist (fresh nat) = t /\
    requests t = 1 /\
    loaded t = false /\
    exists t', step ToggleClick t = Some t' /\ requests t' = 2.
Proof.
  eexists. eexists. split; [reflexivity|]. split; [reflexivity|].
  destruct (tile_keeps_its_books nat [ToggleClick; LoadSettles Throw; ToggleClick] _ _
              eq_refl eq_refl) as [_ [_ [_ [_ H]]]].
  split; [reflexivity|]. split; [reflexivity|].
  apply H; [|reflexivity].
  intros [d [Hd|[Hd|[Hd|[]]]]]; discriminate Hd.
Defined.

End TileFacts.
